(** * Emotion-based music player: matcher, playback controller, emotion
      adapter and dataset join

    A shallow embedding of [src/music_player.py], [src/emotion_detector.py]
    and the capture loop and buttons of [src/main.py].

    Numbers.  The program computes on Python floats.  The clock, the
    volume, the scores of the detector and the annotations of the songs are
    modelled by exact rationals [Q].  The distances that the matcher
    computes and compares are modelled as the program has them, as IEEE 754
    binary64 numbers (Rocq's primitive floats), computed from the binary64
    values of the coordinates with the roundings of the program's
    subtractions, squares, sum and square root; next to each such number
    the model keeps the exact rational whose square root it approximates.

    Recursion.  [find_matching_song] calls itself once for every row that
    it drops, and the interpreter bounds the nesting of calls; the bound is
    a parameter of the model.

    Exceptions.  Python's [try ... except Exception] blocks are modelled with
    a result type and, for the playback controller, a state-and-exception
    monad in which the writes made before a raise persist. *)

From Stdlib Require Import ZArith QArith Qminmax Reals Qreals Lia.
From Stdlib Require Import List String.
From Stdlib Require Floats.
From stdpp Require Import base strings gmap sorting.
Import ListNotations.

Local Open Scope Q_scope.

(** ** Python exceptions *)

Inductive exn : Type :=
| ValueError         (* max() / idxmin() / concat() of an empty sequence *)
| KeyError           (* a label or a column that is not there *)
| TypeError          (* an operation applied to a value of the wrong type *)
| FileNotFoundError  (* a file that is not there *)
| MixerError         (* pygame.error raised by the mixer *)
| Exception.         (* raise Exception(...) *)

Inductive result (A : Type) : Type :=
| Ok (a : A)
| Raise (e : exn).
Arguments Ok {A} a.
Arguments Raise {A} e.

(** ** Comparison of rationals as booleans *)

Definition Qlt_bool (x y : Q) : bool := negb (Qle_bool y x).

(** ** Binary64 numbers *)

(** The binary64 number nearest to an integer. *)
Definition Z2F (z : Z) : PrimFloat.float :=
  FloatOps.SF2Prim (SpecFloat.binary_normalize FloatOps.prec FloatOps.emax z 0 false).

(** The binary64 number that stands for a rational: the quotient, rounded,
    of its numerator and denominator.  It is the rational itself when that
    is a binary64 number, written with a numerator below 2^53 in magnitude
    and a power of two as denominator; for a decimal such as 0.8 it is the
    binary64 number that Python reads from the literal. *)
Definition Q2F (q : Q) : PrimFloat.float :=
  PrimFloat.div (Z2F (Qnum q)) (Z2F (Zpos (Qden q))).

(** A binary64 value that is a number: NaN is the one value different from
    itself. *)
Definition is_number (x : PrimFloat.float) : bool := PrimFloat.eqb x x.

(** ** The emotion classifier adapter ([emotion_detector.py]) *)

Module EmotionDetector.

(** [emotion_map], the dictionary literal of [emotion_to_valence_arousal]. *)
Definition emotion_map : gmap string (Q * Q) :=
  list_to_map
    [ ("happy"%string,    ( 0.8,  0.8));
      ("sad"%string,      (-0.8, -0.4));
      ("angry"%string,    (-0.7,  0.8));
      ("neutral"%string,  ( 0.0,  0.0));
      ("fear"%string,     (-0.8,  0.5));
      ("surprise"%string, ( 0.4,  0.8));
      ("disgust"%string,  (-0.8,  0.1)) ].

(** [emotion_map.get(emotion, (0.0, 0.0))].  The argument is optional
    because Python accepts [None] as a key; it is found in no entry. *)
Definition emotion_to_valence_arousal (emotion : option string) : Q * Q :=
  match emotion with
  | Some label => default (0.0, 0.0) (emotion_map !! label)
  | None => (0.0, 0.0)
  end.

(** [max(items, key=lambda x: x[1])]: the first item with the greatest
    score; [ValueError] on an empty sequence. *)
Fixpoint max_by_score (best : string * Q) (items : list (string * Q))
  : string * Q :=
  match items with
  | [] => best
  | x :: rest =>
      if Qlt_bool (snd best) (snd x) then max_by_score x rest
      else max_by_score best rest
  end.

Definition max_item (items : list (string * Q)) : result (string * Q) :=
  match items with
  | [] => Raise ValueError
  | x :: rest => Ok (max_by_score x rest)
  end.

(** One detected face: the value of its ['emotions'] key, as the items of
    the dictionary in insertion order. *)
Record Face : Type := { emotions : list (string * Q) }.

Section Detector.
(** The external detector: [self.detector.detect_emotions(frame)]
    returns a list of faces or raises. *)
Variable Frame : Type.
Variable detect_emotions : Frame -> result (list Face).

(** The body of the [try] block of [detect_emotion]. *)
Definition detect_emotion_body (frame : Frame)
  : result (option string * Q * Q) :=
  match detect_emotions frame with
  | Raise e => Raise e
  | Ok faces =>
      match faces with
      | [] => Ok (None, 0, 0)                      (* [if emotions:] fails *)
      | face :: _ =>
          let emotions_dict := emotions face in
          match max_item emotions_dict with
          | Raise e => Raise e
          | Ok dominant =>
              let dominant_emotion := fst dominant in
              let '(valence, arousal) :=
                emotion_to_valence_arousal (Some dominant_emotion) in
              Ok (Some dominant_emotion, valence, arousal)
          end
      end
  end.

(** [detect_emotion]: the [except Exception] returns [(None, 0, 0)]. *)
Definition detect_emotion (frame : Frame) : option string * Q * Q :=
  match detect_emotion_body frame with
  | Ok r => r
  | Raise _ => (None, 0, 0)
  end.
End Detector.

End EmotionDetector.


(** ** The music player ([music_player.py]) *)

Module MusicPlayer.

(** *** The song table *)

(** A value of the ['distance'] column: [rounded] is the binary64 number
    that [np.sqrt] returned, the value that the program holds and compares;
    [radicand] is the exact rational whose square root that number
    approximates, kept next to it so that statements can speak of the exact
    distance. *)
Record Dist : Type := Sqrt { radicand : Q; rounded : PrimFloat.float }.

(** [<] on the values of the column, as [idxmin] compares them. *)
Definition Dist_ltb (x y : Dist) : bool := PrimFloat.ltb (rounded x) (rounded y).

(** The real number that a [Dist] approximates. *)
Definition Dist_to_R (d : Dist) : R := sqrt (Q2R (radicand d)).

(** One row of [merged_df].  [name] is the row's index label
    ([closest_song.name]); [features] are the aggregated feature columns;
    [distance] is the column written by every query, absent after load. *)
Record Song : Type := {
  name : Z;
  features : list (option Q);
  song_id : Z;
  audio_path : string;
  valence_average : Q;
  arousal_average : Q;
  distance : option Dist
}.

Abbreviation DataFrame := (list Song).

Definition index (df : DataFrame) : list Z := name <$> df.

(** *** [load_dataset] *)

(** One row of [features_df]: the column means of a song's feature file,
    the song's id and the path of its audio file. *)
Record FeatureRow : Type := {
  f_features : list (option Q);
  f_song_id : Z;
  f_audio_path : string
}.

(** One row of an annotation table after the selection and renaming of
    its three columns. *)
Record LabelRow : Type := {
  l_song_id : Z;
  l_valence_average : Q;
  l_arousal_average : Q
}.

Definition mean (xs : list Q) : Q :=
  fold_right Qplus 0 xs / inject_Z (Z.of_nat (length xs)).

(** [groupby('song_id')]: the groups in increasing order of the key, each
    with its rows in their order of appearance. *)
Fixpoint insert_group (row : LabelRow) (groups : list (Z * list LabelRow))
  : list (Z * list LabelRow) :=
  match groups with
  | [] => [(l_song_id row, [row])]
  | (k, g) :: rest =>
      if Z.ltb (l_song_id row) k then (l_song_id row, [row]) :: (k, g) :: rest
      else if Z.eqb (l_song_id row) k then (k, g ++ [row]) :: rest
      else (k, g) :: insert_group row rest
  end.

Definition groupby_song_id (rows : list LabelRow) : list (Z * list LabelRow) :=
  fold_left (fun groups row => insert_group row groups) rows [].

(** [.agg({'valence_average': 'mean', 'arousal_average': 'mean'}).reset_index()] *)
Definition agg_mean (groups : list (Z * list LabelRow)) : list LabelRow :=
  (fun '(k, g) =>
     {| l_song_id := k;
        l_valence_average := mean (l_valence_average <$> g);
        l_arousal_average := mean (l_arousal_average <$> g) |}) <$> groups.

(** [pd.merge(features_df, labels_df, on='song_id')]: the default inner
    join, in the order of the left rows; the result has a fresh index
    0, 1, 2, ... *)
Definition merged_row (f : FeatureRow) (l : LabelRow) (label : Z) : Song :=
  {| name := label; features := f_features f; song_id := f_song_id f;
     audio_path := f_audio_path f;
     valence_average := l_valence_average l;
     arousal_average := l_arousal_average l;
     distance := None |}.

Definition merge (features_df : list FeatureRow) (labels_df : list LabelRow)
  : DataFrame :=
  imap (fun i row => row (Z.of_nat i))
    (flat_map (fun f =>
                 merged_row f <$>
                   filter (fun l => l_song_id l = f_song_id f) labels_df)
       features_df).

(** [fillna] with the column means, on the feature columns (the id and
    annotation columns have no missing value in this model).  A column
    without any value keeps its gaps. *)
Definition cell (j : nat) (row : Song) : option Q :=
  match nth_error (features row) j with
  | Some (Some x) => Some x
  | _ => None
  end.

Definition column_mean (j : nat) (df : DataFrame) : option Q :=
  match omap (cell j) df with
  | [] => None
  | xs => Some (mean xs)
  end.

Definition width (df : DataFrame) : nat :=
  fold_right Nat.max 0%nat ((fun row => length (features row)) <$> df).

Definition fillna (df : DataFrame) : DataFrame :=
  (fun row =>
     {| name := name row;
        features := (fun j => match cell j row with
                              | Some x => Some x
                              | None => column_mean j df
                              end) <$> seq 0 (width df);
        song_id := song_id row; audio_path := audio_path row;
        valence_average := valence_average row;
        arousal_average := arousal_average row;
        distance := distance row |}) <$> df.

(** [labels_df]: the two annotation tables put one after the other,
    grouped by song and averaged. *)
Definition labels_df (labels_1 labels_2 : list LabelRow) : list LabelRow :=
  agg_mean (groupby_song_id (labels_1 ++ labels_2)).

Section LoadDataset.
(** What the loader finds on disk.  [read_features song_id] is [None]
    when the song has no feature file, [Some (Raise _)] when the file
    cannot be processed, and otherwise the column means of the file.
    [audio_file song_id] is [os.path.join(AUDIO_PATH, f'{song_id}.mp3')].
    [labels_1] and [labels_2] are what [pd.read_csv] followed by the
    selection of the columns [song_id], [valence_mean] and [arousal_mean]
    gives for each of the two annotation files: the rows, or the exception
    raised for a file that is not there or cannot be parsed, or for a
    column that is not in it. *)
Variable read_features : Z -> option (result (list (option Q))).
Variable audio_file : Z -> string.
Variables labels_1 labels_2 : result (list LabelRow).

(** The loop over [range(2, 2058)]. *)
Definition features_list : list FeatureRow :=
  omap (fun song_id =>
          match read_features song_id with
          | Some (Ok mean_features) =>
              Some {| f_features := mean_features; f_song_id := song_id;
                      f_audio_path := audio_file song_id |}
          | _ => None
          end) (seqZ 2 2056).

(** The body of the [try] block of [load_dataset], after the loop: the
    new value of [self.merged_df], or the exception of [pd.concat] on an
    empty list, or the one of an annotation file. *)
Definition load_dataset_body : result DataFrame :=
  match features_list with
  | [] => Raise ValueError
  | features_df =>
      match labels_1 with
      | Raise e => Raise e
      | Ok labels_1 =>
          match labels_2 with
          | Raise e => Raise e
          | Ok labels_2 =>
              Ok (fillna (merge features_df (labels_df labels_1 labels_2)))
          end
      end
  end.

(** [load_dataset]: whatever the body raises is raised again as a plain
    [Exception] ([except Exception as e: raise Exception(...)]). *)
Definition load_dataset : result DataFrame :=
  match load_dataset_body with
  | Ok df => Ok df
  | Raise _ => Raise Exception
  end.
End LoadDataset.

(** *** [find_matching_song] *)

(** [np.sqrt((valence_average - valence) ** 2 + (arousal_average - arousal) ** 2)]
    for one row: the number computed in binary64, each operation rounding
    its result, and the exact sum of squares. *)
Definition euclidean (valence arousal : Q) (row : Song) : Dist :=
  let dv := PrimFloat.sub (Q2F (valence_average row)) (Q2F valence) in
  let da := PrimFloat.sub (Q2F (arousal_average row)) (Q2F arousal) in
  {| radicand := (valence_average row - valence) ^ 2
                 + (arousal_average row - arousal) ^ 2;
     rounded := PrimFloat.sqrt (PrimFloat.add (PrimFloat.mul dv dv)
                                  (PrimFloat.mul da da)) |}.

Definition set_distance (d : option Dist) (row : Song) : Song :=
  {| name := name row; features := features row; song_id := song_id row;
     audio_path := audio_path row; valence_average := valence_average row;
     arousal_average := arousal_average row; distance := d |}.

(** [self.merged_df['distance'] = ...]: the column is (over)written in
    every row. *)
Definition assign_distance (valence arousal : Q) (df : DataFrame) : DataFrame :=
  (fun row => set_distance (Some (euclidean valence arousal row)) row) <$> df.

(** The ['distance'] column as (label, value) pairs, without the missing
    values and the NaN, which [idxmin] skips. *)
Definition distance_column (df : DataFrame) : list (Z * Dist) :=
  omap (fun row => match distance row with
                   | Some d =>
                       if is_number (rounded d) then Some (name row, d) else None
                   | None => None
                   end) df.

(** [Series.idxmin()]: the label of the first occurrence of the minimum;
    [ValueError] when there is no value. *)
Fixpoint idxmin_from (best : Z * Dist) (col : list (Z * Dist)) : Z :=
  match col with
  | [] => fst best
  | x :: rest =>
      if Dist_ltb (snd x) (snd best) then idxmin_from x rest
      else idxmin_from best rest
  end.

Definition idxmin (col : list (Z * Dist)) : result Z :=
  match col with
  | [] => Raise ValueError
  | x :: rest => Ok (idxmin_from x rest)
  end.

(** [df.loc[label]] as the program uses it: the row carrying the label.
    A missing label raises [KeyError]; a label carried by several rows
    yields a frame, on which the following [os.path.exists] raises. *)
Definition loc (df : DataFrame) (label : Z) : result Song :=
  match filter (fun row => name row = label) df with
  | [row] => Ok row
  | [] => Raise KeyError
  | _ :: _ :: _ => Raise TypeError
  end.

(** [df[df.index != label]] *)
Definition drop_label (label : Z) (df : DataFrame) : DataFrame :=
  filter (fun row => name row <> label) df.

(** [sys.getrecursionlimit()]: the number of nested calls that Python
    allows by default; the program does not change it. *)
Definition recursion_limit : nat := 1000.

(** [find_matching_song], with the table passed in and out.  [exists_]
    is [os.path.exists].

    The source calls itself once for every row that it drops, each call
    nested in the one before.  When the nesting reaches the interpreter's
    limit, a [RecursionError] is raised, in the call that is being entered
    or in one of the library calls that it makes; the [except Exception] of
    that call turns it into [None], which the calls around it return in
    turn.  A call cut short in this way leaves the table as it received it
    (what it may have written in the distance column is what was there, see
    [assign_distance_drop]), so the outcome is that of the call before it
    giving up once it has reduced the table.  [depth] is the number of
    nested calls, below [recursion_limit], that the interpreter lets run to
    their end under the call at hand. *)
Fixpoint find_matching_song (depth : nat) (exists_ : string -> bool)
    (merged_df : DataFrame) (valence arousal : Q) {struct depth}
  : option Song * DataFrame :=
  let merged_df := assign_distance valence arousal merged_df in
  match idxmin (distance_column merged_df) with
  | Raise _ => (None, merged_df)                      (* except: return None *)
  | Ok label =>
      match loc merged_df label with
      | Raise _ => (None, merged_df)                  (* except: return None *)
      | Ok closest_song =>
          if exists_ (audio_path closest_song) then
            (Some closest_song, merged_df)
          else
            let merged_df := drop_label (name closest_song) merged_df in
            match depth with
            | O => (None, merged_df)    (* RecursionError; except: return None *)
            | S depth => find_matching_song depth exists_ merged_df valence arousal
            end
      end
  end.

(** A session, as [update_frame] of [main.py] runs it: queries answered
    one after the other on the shared table, each with the file system and
    the room for nested calls as they are at that moment. *)
Record Query : Type := {
  q_depth : nat;
  q_exists : string -> bool;
  q_valence : Q;
  q_arousal : Q
}.

Fixpoint session (merged_df : DataFrame) (queries : list Query)
  : list (option Song) * DataFrame :=
  match queries with
  | [] => ([], merged_df)
  | q :: rest =>
      let '(answer, merged_df') :=
        find_matching_song (q_depth q) (q_exists q) merged_df
          (q_valence q) (q_arousal q) in
      let '(answers, final) := session merged_df' rest in
      (answer :: answers, final)
  end.

(** *** The playback controller *)

(** The attributes of the player that the playback operations use. *)
Record Player : Type := {
  current_song : option string;
  is_playing : bool;
  volume : Q;
  last_play_time : Q
}.

(** [self.min_play_interval], assigned once by [__init__]. *)
Definition min_play_interval : Q := 1.0.

(** The calls made on [pygame.mixer.music]. *)
Inductive MixerCall : Type :=
| music_load (path : string)
| music_set_volume (v : Q)
| music_play
| music_stop.

(** The player together with the calls the mixer has received, oldest
    first. *)
Record World : Type := {
  self : Player;
  mixer_calls : list MixerCall
}.

(** What a call of [play_song] finds outside the program: the clock, the
    file system, and whether the mixer accepts the file.  The mixer was
    initialised by [__init__] (which raises otherwise), so [set_volume]
    and [stop] do not raise; [load] and [play] depend on the file and on
    the device. *)
Record Env : Type := {
  time_time : Q;
  path_exists : string -> bool;
  path_getsize : string -> Z;
  load_ok : string -> bool;
  play_ok : bool
}.

(** Computations that read and write the world and may raise; what was
    written before a raise stays written. *)
Definition M (A : Type) : Type := World -> result A * World.

Definition ret {A} (a : A) : M A := fun w => (Ok a, w).

Definition bind {A B} (m : M A) (k : A -> M B) : M B :=
  fun w => match m w with
           | (Ok a, w') => k a w'
           | (Raise e, w') => (Raise e, w')
           end.

(** [try: body except Exception: handler] *)
Definition try_except {A} (body handler : M A) : M A :=
  fun w => match body w with
           | (Ok a, w') => (Ok a, w')
           | (Raise _, w') => handler w'
           end.

Notation "x <- m ;; k" := (bind m (fun x => k))
  (at level 100, m at next level, right associativity).
Notation "m ;; k" := (bind m (fun _ => k))
  (at level 100, right associativity).

Definition get_self : M Player := fun w => (Ok (self w), w).

Definition put_self (p : Player) : M unit :=
  fun w => (Ok tt, {| self := p; mixer_calls := mixer_calls w |}).

Definition when (b : bool) (m : M unit) : M unit := if b then m else ret tt.

Definition mixer_call (ok : bool) (c : MixerCall) : M unit :=
  fun w => if ok
           then (Ok tt, {| self := self w; mixer_calls := mixer_calls w ++ [c] |})
           else (Raise MixerError, w).

(** The state after [__init__]: lines 18-19 and 27-30. *)
Definition init : World :=
  {| self := {| current_song := None; is_playing := false;
                volume := 0.5; last_play_time := 0 |};
     mixer_calls := [music_set_volume 0.5] |}.

Definition stop_song : M unit :=
  try_except
    (s <- get_self ;;
     when (is_playing s)
       (mixer_call true music_stop ;;
        put_self {| current_song := None; is_playing := false;
                    volume := volume s; last_play_time := last_play_time s |}))
    (ret tt).

Definition play_song (env : Env) (song_path : string) : M bool :=
  try_except
    (let current_time := time_time env in
     s <- get_self ;;
     if Qlt_bool (current_time - last_play_time s) min_play_interval then
       ret false
     else if bool_decide (current_song s = Some song_path) && is_playing s then
       ret true
     else if negb (path_exists env song_path) then
       ret false
     else if Z.eqb (path_getsize env song_path) 0 then
       ret false
     else
       when (is_playing s) stop_song ;;      (* then [time.sleep(0.1)] *)
       try_except
         (mixer_call (load_ok env song_path) (music_load song_path) ;;
          s <- get_self ;;
          mixer_call true (music_set_volume (volume s)) ;;
          mixer_call (play_ok env) music_play ;;
          s <- get_self ;;
          put_self {| current_song := Some song_path; is_playing := true;
                      volume := volume s; last_play_time := current_time |} ;;
          ret true)
         (ret false))
    (ret false).

(** Python's [min(a, b)] and [max(a, b)]: the first argument unless the
    second is strictly smaller (greater). *)
Definition py_min (a b : Q) : Q := if Qlt_bool b a then b else a.
Definition py_max (a b : Q) : Q := if Qlt_bool a b then b else a.

Definition set_volume (v : Q) : M bool :=
  try_except
    (s <- get_self ;;
     put_self {| current_song := current_song s; is_playing := is_playing s;
                 volume := py_max 0.0 (py_min 1.0 v);
                 last_play_time := last_play_time s |} ;;
     s <- get_self ;;
     mixer_call true (music_set_volume (volume s)) ;;
     ret true)
    (ret false).

Definition get_playback_status : M (bool * option string * Q) :=
  s <- get_self ;;
  ret (is_playing s, current_song s, volume s).

End MusicPlayer.

(** ** The application ([main.py]) *)

Module App.
Import EmotionDetector MusicPlayer.

(** The texts of the widgets, by what they say: the status label shows
    "Status: Initializing..." or "Status: Running"; the emotion label shows
    "Detected Emotion: " followed by the label, once one was detected; the
    valence/arousal label shows the two coordinates, once set; the song
    label shows "Currently Playing: None" or "Playing: Song " followed by
    the id of a song. *)
Inductive StatusLabel : Type := status_initializing | status_running.

Inductive SongLabel : Type :=
| currently_playing_none
| playing_song (id : Z).

(** The application: the music player (its table and its playback state),
    the labels, the flag of the capture loop and the capture device. *)
Record EmotionMusicPlayerApp : Type := {
  merged_df : DataFrame;
  music_player : World;
  status_label : StatusLabel;
  emotion_label : option string;
  va_label : option (Q * Q);
  song_label : SongLabel;
  is_running : bool;
  cap_opened : bool
}.

(** The application after [__init__], on the table that the player
    loaded. *)
Definition init_app (df : DataFrame) : EmotionMusicPlayerApp :=
  {| merged_df := df; music_player := init;
     status_label := status_initializing; emotion_label := None;
     va_label := None; song_label := currently_playing_none;
     is_running := true; cap_opened := true |}.

(** Python's truth value of the label returned by the detector: [None] and
    the empty string are false. *)
Definition truthy (emotion : option string) : bool :=
  match emotion with
  | Some EmptyString => false
  | Some _ => true
  | None => false
  end.

Section Capture.
Variable Frame : Type.
Variable detect_emotions : Frame -> result (list Face).

(** One turn of the loop of [update_frame].  [captured] is what
    [self.cap.read()] returned ([None] when [ret] is false); [env] is what
    the turn finds outside the program and [depth] the room that the
    interpreter leaves to the nested calls of [find_matching_song].  The
    display of the picture is left out. *)
Definition update_frame_turn (depth : nat) (env : Env) (captured : option Frame)
    (app : EmotionMusicPlayerApp) : EmotionMusicPlayerApp :=
  match captured with
  | None => app
  | Some frame =>
      let '(emotion, valence, arousal) :=
        detect_emotion Frame detect_emotions frame in
      if truthy emotion then
        let '(matching_song, df) :=
          find_matching_song depth (path_exists env) (merged_df app)
            valence arousal in
        let '(played, w) :=
          match matching_song with
          | Some row =>
              match play_song env (audio_path row) (music_player app) with
              | (Ok true, w) => (Some (song_id row), w)
              | (_, w) => (None, w)
              end
          | None => (None, music_player app)
          end in
        {| merged_df := df; music_player := w;
           status_label := status_running; emotion_label := emotion;
           va_label := Some (valence, arousal);
           song_label := match played with
                         | Some id => playing_song id
                         | None => song_label app
                         end;
           is_running := is_running app; cap_opened := cap_opened app |}
      else app
  end.

(** [stop_music], the command of the "Stop Music" button. *)
Definition stop_music (app : EmotionMusicPlayerApp) : EmotionMusicPlayerApp :=
  {| merged_df := merged_df app;
     music_player := snd (stop_song (music_player app));
     status_label := status_label app; emotion_label := emotion_label app;
     va_label := va_label app; song_label := currently_playing_none;
     is_running := is_running app; cap_opened := cap_opened app |}.

(** [cleanup], the command of the "Exit" button. *)
Definition cleanup (app : EmotionMusicPlayerApp) : EmotionMusicPlayerApp :=
  {| merged_df := merged_df app;
     music_player := snd (stop_song (music_player app));
     status_label := status_label app; emotion_label := emotion_label app;
     va_label := va_label app; song_label := song_label app;
     is_running := false; cap_opened := false |}.

(** What happens to the application: a turn of the capture loop, taken only
    while [is_running] is set, or one of the two buttons.

    In the program the loop runs in a thread of its own and the buttons are
    served by the main loop of the window, so that a button can be served
    while a turn of the loop is under way.  [handle] takes each event as a
    whole, one after the other: [run_app] describes the runs in which no
    button is served in the middle of a turn, and nothing is stated here
    about the others. *)
Inductive Event : Type :=
| ev_frame (depth : nat) (env : Env) (captured : option Frame)
| ev_stop_music
| ev_cleanup.

Definition handle (app : EmotionMusicPlayerApp) (e : Event)
  : EmotionMusicPlayerApp :=
  match e with
  | ev_frame depth env captured =>
      if is_running app then update_frame_turn depth env captured app else app
  | ev_stop_music => stop_music app
  | ev_cleanup => cleanup app
  end.

Definition run_app (events : list Event) (app : EmotionMusicPlayerApp)
  : EmotionMusicPlayerApp :=
  fold_left handle events app.
End Capture.

End App.

(** * Vocabulary of the statements *)

Import EmotionDetector MusicPlayer.

(** The keys of [emotion_map]. *)
Definition known_labels : list string :=
  ["happy"; "sad"; "angry"; "neutral"; "fear"; "surprise"; "disgust"]%string.

(** The invariant of the playback state. *)
Definition playback_inv (p : Player) : Prop :=
  current_song p <> None <-> is_playing p = true.

(** The world once the current track, if any, has been stopped. *)
Definition stopped (w : World) : World :=
  if is_playing (self w) then
    {| self := {| current_song := None; is_playing := false;
                  volume := volume (self w);
                  last_play_time := last_play_time (self w) |};
       mixer_calls := mixer_calls w ++ [music_stop] |}
  else w.

(** The world once [song_path] has been loaded and started at the time of
    [env]. *)
Definition started (env : Env) (song_path : string) (w : World) : World :=
  {| self := {| current_song := Some song_path; is_playing := true;
                volume := volume (self w);
                last_play_time := time_time env |};
     mixer_calls := mixer_calls (stopped w)
                    ++ [music_load song_path;
                        music_set_volume (volume (self w)); music_play] |}.

Definition too_soon (env : Env) (w : World) : Prop :=
  time_time env - last_play_time (self w) < min_play_interval.

Definition already_playing (song_path : string) (w : World) : Prop :=
  current_song (self w) = Some song_path /\ is_playing (self w) = true.

(** The seven ways through [play_song], in the order of the source. *)
Inductive play_outcome (env : Env) (song_path : string) (w : World)
  : result bool * World -> Prop :=
| play_too_soon :
    too_soon env w ->
    play_outcome env song_path w (Ok false, w)
| play_already :
    ~ too_soon env w -> already_playing song_path w ->
    play_outcome env song_path w (Ok true, w)
| play_not_found :
    ~ too_soon env w -> ~ already_playing song_path w ->
    path_exists env song_path = false ->
    play_outcome env song_path w (Ok false, w)
| play_empty_file :
    ~ too_soon env w -> ~ already_playing song_path w ->
    path_exists env song_path = true ->
    path_getsize env song_path = 0%Z ->
    play_outcome env song_path w (Ok false, w)
| play_load_failed :
    ~ too_soon env w -> ~ already_playing song_path w ->
    path_exists env song_path = true ->
    path_getsize env song_path <> 0%Z ->
    load_ok env song_path = false ->
    play_outcome env song_path w (Ok false, stopped w)
| play_start_failed :
    ~ too_soon env w -> ~ already_playing song_path w ->
    path_exists env song_path = true ->
    path_getsize env song_path <> 0%Z ->
    load_ok env song_path = true -> play_ok env = false ->
    play_outcome env song_path w
      (Ok false,
       {| self := self (stopped w);
          mixer_calls := mixer_calls (stopped w)
                         ++ [music_load song_path]
                         ++ [music_set_volume (volume (self w))] |})
| play_started :
    ~ too_soon env w -> ~ already_playing song_path w ->
    path_exists env song_path = true ->
    path_getsize env song_path <> 0%Z ->
    load_ok env song_path = true -> play_ok env = true ->
    play_outcome env song_path w (Ok true, started env song_path w).

(** The operations of the playback controller and their effect on the
    world. *)
Inductive Op : Type :=
| op_play_song (env : Env) (song_path : string)
| op_stop_song
| op_set_volume (v : Q).

Definition step (w : World) (o : Op) : World :=
  match o with
  | op_play_song env song_path => snd (play_song env song_path w)
  | op_stop_song => snd (stop_song w)
  | op_set_volume v => snd (set_volume v w)
  end.

Definition run (ops : list Op) (w : World) : World := fold_left step ops w.

(** A file system in which every file is present and not empty, at clock
    [t]; the mixer accepts a file when [loadable]. *)
Definition env_at (t : Q) (loadable : bool) : Env :=
  {| time_time := t; path_exists := fun _ => true;
     path_getsize := fun _ => 4096%Z;
     load_ok := fun _ => loadable; play_ok := true |}.

(** The Euclidean distance, as a real number, between the annotated point
    of a row and the query. *)
Definition euclidean_R (valence arousal : Q) (row : Song) : R :=
  sqrt ((Q2R (valence_average row) - Q2R valence) ^ 2
        + (Q2R (arousal_average row) - Q2R arousal) ^ 2)%R.

(** The square of that distance, a rational. *)
Definition sq_distance (valence arousal : Q) (row : Song) : Q :=
  radicand (euclidean valence arousal row).

(** The distance of a row to the query as the program computes it, in
    binary64. *)
Definition computed_distance (valence arousal : Q) (row : Song)
  : PrimFloat.float :=
  rounded (euclidean valence arousal row).

(** A row whose computed distance is a number, so that [idxmin] takes it
    into account. *)
Definition has_distance (valence arousal : Q) (row : Song) : Prop :=
  is_number (computed_distance valence arousal row) = true.

(** [x] is nearer the query than [y] by the computed distances. *)
Definition nearer (valence arousal : Q) (x y : Song) : Prop :=
  PrimFloat.ltb (computed_distance valence arousal x)
    (computed_distance valence arousal y) = true.

(** [x] is as near the query as [y], or nearer, by the computed
    distances. *)
Definition as_near (valence arousal : Q) (x y : Song) : Prop :=
  PrimFloat.leb (computed_distance valence arousal x)
    (computed_distance valence arousal y) = true.

(** A row whose audio file is there. *)
Definition playable (exists_ : string -> bool) (row : Song) : Prop :=
  exists_ (audio_path row) = true.

(** A row that a search can return: its audio file is there and its
    computed distance is a number. *)
Definition candidate (exists_ : string -> bool) (valence arousal : Q)
    (row : Song) : Prop :=
  playable exists_ row /\ has_distance valence arousal row.

(** The rows whose audio file is not there. *)
Definition missing (exists_ : string -> bool) (df : DataFrame) : list Song :=
  filter (fun row => exists_ (audio_path row) = false) df.

(** [first_min lt P l r]: [r] is the first of the rows of [l] satisfying
    [P] that is least for [lt] among those rows, that is, it is below every
    such row before it and no such row after it is below it (see
    [first_min_split]). *)
Inductive first_min (lt : Song -> Song -> Prop) (P : Song -> Prop)
  : list Song -> Song -> Prop :=
| first_min_here (r : Song) (l : list Song) :
    P r -> (forall x, x ∈ l -> P x -> ~ lt x r) ->
    first_min lt P (r :: l) r
| first_min_later (a r : Song) (l : list Song) :
    (P a -> lt r a) -> first_min lt P l r ->
    first_min lt P (a :: l) r.

(** The table of the example of the specification: song 1 at (0.8, 0.8)
    with its audio file, song 2 at (-0.8, -0.4) without. *)
Definition example_song_1 : Song :=
  {| name := 0; features := []; song_id := 1; audio_path := "1.mp3";
     valence_average := 0.8; arousal_average := 0.8; distance := None |}.

Definition example_song_2 : Song :=
  {| name := 1; features := []; song_id := 2; audio_path := "2.mp3";
     valence_average := -0.8; arousal_average := -0.4; distance := None |}.

Definition example_table : DataFrame := [example_song_1; example_song_2].

Definition example_exists (path : string) : bool := String.eqb path "1.mp3".

(** The rational that a finite binary64 number is. *)
Definition F2Q (x : PrimFloat.float) : option Q :=
  match FloatOps.Prim2SF x with
  | SpecFloat.S754_zero _ => Some 0
  | SpecFloat.S754_finite s m e =>
      let z := if s then Z.neg m else Z.pos m in
      Some (if (e <? 0)%Z then z # Z.to_pos (2 ^ (- e))
            else inject_Z (z * 2 ^ e))
  | _ => None
  end.

(** The binary64 numbers that Python reads from the literals 2.3, 2.9, 1.1
    and 0.8, as rationals. *)
Definition double_2_3 : Q := 5179139571476070 # 2251799813685248.
Definition double_2_9 : Q := 6530219459687219 # 2251799813685248.
Definition double_1_1 : Q := 4953959590107546 # 4503599627370496.
Definition double_0_8 : Q := 7205759403792794 # 9007199254740992.

(** Two songs with their audio files, at (2.3, 2.3) and at (2.9, 1.1), and
    a song without audio file at (0.8, 0.8). *)
Definition rounding_song_1 : Song :=
  {| name := 0; features := []; song_id := 11; audio_path := "1.mp3";
     valence_average := double_2_3; arousal_average := double_2_3;
     distance := None |}.

Definition rounding_song_2 : Song :=
  {| name := 1; features := []; song_id := 12; audio_path := "1.mp3";
     valence_average := double_2_9; arousal_average := double_1_1;
     distance := None |}.

Definition rounding_song_3 : Song :=
  {| name := 2; features := []; song_id := 13; audio_path := "3.mp3";
     valence_average := double_0_8; arousal_average := double_0_8;
     distance := None |}.

(** A table of [n] songs without audio file, all at (-0.8, -0.4), followed
    by song 1 of the example, which has one; [silent_table_from k n] is
    what is left of such a table once its first [k] songs are gone. *)
Definition silent_song (i : nat) : Song :=
  {| name := Z.of_nat (S i); features := []; song_id := Z.of_nat (S i) + 1;
     audio_path := "2.mp3"; valence_average := -0.8;
     arousal_average := -0.4; distance := None |}.

Definition silent_table_from (k n : nat) : DataFrame :=
  (silent_song <$> seq k n) ++ [example_song_1].

Definition silent_table (n : nat) : DataFrame := silent_table_from 0 n.

(** A small disk for the loader: songs 2 and 3 have feature files, and only
    song 3 is annotated. *)
Definition example_read_features (song : Z) : option (result (list (option Q))) :=
  if Z.eqb song 2 then Some (Ok [Some 1; None])
  else if Z.eqb song 3 then Some (Ok [None; Some 4])
  else None.

Definition example_audio_file (song : Z) : string :=
  if Z.eqb song 2 then "2.mp3" else "3.mp3".

Definition example_labels : list LabelRow :=
  [ {| l_song_id := 3; l_valence_average := 5.5; l_arousal_average := 3 |} ].

Definition example_loaded : DataFrame :=
  [ {| name := 0; features := [None; Some (4 / 1)]; song_id := 3;
       audio_path := "3.mp3"; valence_average := (5.5 + 0) / 1;
       arousal_average := (3 + 0) / 1; distance := None |} ].

(** What the calls it has received have made of the mixer: the file
    loaded, the file playing and the volume.  [load] replaces the loaded
    file and ends a playback in progress, [play] starts the loaded file,
    [stop] ends the playback, [set_volume] sets the volume. *)
Record Mixer : Type := {
  m_loaded : option string;
  m_playing : option string;
  m_volume : option Q
}.

Definition mixer_receive (m : Mixer) (c : MixerCall) : Mixer :=
  match c with
  | music_load path =>
      {| m_loaded := Some path; m_playing := None; m_volume := m_volume m |}
  | music_set_volume v =>
      {| m_loaded := m_loaded m; m_playing := m_playing m; m_volume := Some v |}
  | music_play =>
      {| m_loaded := m_loaded m; m_playing := m_loaded m; m_volume := m_volume m |}
  | music_stop =>
      {| m_loaded := m_loaded m; m_playing := None; m_volume := m_volume m |}
  end.

Definition mixer_of (calls : list MixerCall) : Mixer :=
  fold_left mixer_receive calls
    {| m_loaded := None; m_playing := None; m_volume := None |}.

(** The player's attributes agree with what the mixer was told. *)
Definition in_sync (w : World) : Prop :=
  m_playing (mixer_of (mixer_calls w)) = current_song (self w)
  /\ m_volume (mixer_of (mixer_calls w)) = Some (volume (self w))
  /\ 0 <= volume (self w) <= 1
  /\ playback_inv (self w).

(** A detector that sees one happy face in every picture. *)
Definition example_detector (frame : unit) : result (list Face) :=
  Ok [ {| emotions := [("happy"%string, 0.9); ("sad"%string, 0.1)] |} ].

(** * Properties *)

(** ** Arithmetic helpers *)

Lemma Qlt_bool_iff (x y : Q) : Qlt_bool x y = true <-> x < y.
Proof.
  unfold Qlt_bool. rewrite negb_true_iff. split.
  - intros H. apply Qnot_le_lt. intros Hle.
    apply Qle_bool_iff in Hle. congruence.
  - intros H. destruct (Qle_bool y x) eqn:E; [|reflexivity].
    apply Qle_bool_iff in E. exfalso. exact (Qlt_not_le _ _ H E).
Qed.

Lemma Qlt_bool_false_iff (x y : Q) : Qlt_bool x y = false <-> y <= x.
Proof.
  unfold Qlt_bool. rewrite negb_false_iff. apply Qle_bool_iff.
Qed.

(** ** The emotion classifier adapter *)

Lemma emotion_map_dom : dom emotion_map = list_to_set known_labels.
Proof.
  unfold emotion_map, known_labels. rewrite dom_list_to_map_L. reflexivity.
Qed.

Lemma emotion_map_unknown (label : string) :
  label ∉ known_labels -> emotion_map !! label = None.
Proof.
  intros H. apply not_elem_of_dom. rewrite emotion_map_dom.
  rewrite elem_of_list_to_set. exact H.
Qed.

(** The first maximum is an item of the sequence and no item scores more. *)
Lemma max_by_score_elem (items : list (string * Q)) (best : string * Q) :
  max_by_score best items ∈ best :: items.
Proof.
  revert best. induction items as [|x rest IH]; intros best; simpl.
  - apply list_elem_of_here.
  - destruct (Qlt_bool (snd best) (snd x)).
    + apply list_elem_of_further, IH.
    + specialize (IH best). apply elem_of_cons in IH as [->|IH].
      * apply list_elem_of_here.
      * do 2 apply list_elem_of_further. exact IH.
Qed.

Lemma max_by_score_ge_best (items : list (string * Q)) (best : string * Q) :
  snd best <= snd (max_by_score best items).
Proof.
  revert best. induction items as [|x rest IH]; intros best; simpl.
  - apply Qle_refl.
  - destruct (Qlt_bool (snd best) (snd x)) eqn:E.
    + apply Qlt_bool_iff in E. eapply Qle_trans; [apply Qlt_le_weak, E | apply IH].
    + apply IH.
Qed.

Lemma max_by_score_max (items : list (string * Q)) (best y : string * Q) :
  y ∈ best :: items -> snd y <= snd (max_by_score best items).
Proof.
  revert best. induction items as [|x rest IH]; intros best Hy; simpl.
  - apply list_elem_of_singleton in Hy as ->. apply Qle_refl.
  - apply elem_of_cons in Hy as [->|Hy].
    + apply (max_by_score_ge_best (x :: rest)).
    + destruct (Qlt_bool (snd best) (snd x)) eqn:E.
      * apply IH, Hy.
      * apply Qlt_bool_false_iff in E.
        apply elem_of_cons in Hy as [->|Hy].
        -- eapply Qle_trans; [exact E | apply max_by_score_ge_best].
        -- apply IH. apply list_elem_of_further, Hy.
Qed.

(** C8.  The adapter sends each of the seven labels of its table to the
    pair written there, the table has exactly these seven labels, and every
    other label, like the absent label, goes to (0, 0).  [detect_emotion]
    answers (none, 0, 0) when the detector raises, when the first face has
    no score to take a maximum of, and when there is no face; otherwise it
    answers the dominant label of the first face with that label's pair. *)
Theorem detect_emotion_table :
  (emotion_to_valence_arousal (Some "happy"%string) = (0.8, 0.8)
   /\ emotion_to_valence_arousal (Some "sad"%string) = (-0.8, -0.4)
   /\ emotion_to_valence_arousal (Some "angry"%string) = (-0.7, 0.8)
   /\ emotion_to_valence_arousal (Some "neutral"%string) = (0.0, 0.0)
   /\ emotion_to_valence_arousal (Some "fear"%string) = (-0.8, 0.5)
   /\ emotion_to_valence_arousal (Some "surprise"%string) = (0.4, 0.8)
   /\ emotion_to_valence_arousal (Some "disgust"%string) = (-0.8, 0.1))
  /\ (dom emotion_map = list_to_set known_labels /\ size emotion_map = 7%nat)
  /\ (forall label : string,
        label ∉ known_labels ->
        emotion_to_valence_arousal (Some label) = (0.0, 0.0))
  /\ emotion_to_valence_arousal None = (0.0, 0.0)
  /\ 0.0 == 0
  /\ (forall (Frame : Type) (detect_emotions : Frame -> result (list Face))
             (frame : Frame),
        match detect_emotions frame with
        | Raise _ => detect_emotion Frame detect_emotions frame = (None, 0, 0)
        | Ok [] => detect_emotion Frame detect_emotions frame = (None, 0, 0)
        | Ok (face :: _) =>
            match emotions face with
            | [] => detect_emotion Frame detect_emotions frame = (None, 0, 0)
            | x :: rest =>
                let dominant := max_by_score x rest in
                dominant ∈ emotions face
                /\ (forall y, y ∈ emotions face -> snd y <= snd dominant)
                /\ detect_emotion Frame detect_emotions frame
                   = (Some (fst dominant),
                      fst (emotion_to_valence_arousal (Some (fst dominant))),
                      snd (emotion_to_valence_arousal (Some (fst dominant))))
            end
        end).
Proof.
  split; [repeat split; vm_compute; reflexivity|].
  split; [split; [apply emotion_map_dom | vm_compute; reflexivity]|].
  split.
  { intros label H. unfold emotion_to_valence_arousal.
    rewrite (emotion_map_unknown label H). reflexivity. }
  split; [reflexivity|]. split; [reflexivity|].
  intros Frame detect frame.
  unfold detect_emotion, detect_emotion_body.
  destruct (detect frame) as [[|face faces]|e]; try reflexivity.
  destruct (emotions face) as [|x rest] eqn:E; unfold max_item;
    cbv beta iota zeta; [reflexivity|].
  split; [apply max_by_score_elem|].
  split; [intros y Hy; apply max_by_score_max, Hy|].
  destruct (emotion_to_valence_arousal (Some (fst (max_by_score x rest))));
    reflexivity.
Qed.

Lemma detect_emotion_table_witness :
  ("bored"%string ∉ known_labels)
  /\ emotion_to_valence_arousal (Some "bored"%string) = (0.0, 0.0).
Proof.
  assert (H : "bored"%string ∉ known_labels).
  { unfold known_labels. intros H. repeat (apply elem_of_cons in H as [H|H]; [discriminate H|]).
    inversion H. }
  split; [exact H|].
  exact (proj1 (proj2 (proj2 detect_emotion_table)) "bored"%string H).
Defined.

(** ** The playback controller *)

Ltac unfold_player :=
  unfold play_song, stop_song, set_volume, try_except, bind, when,
    get_self, put_self, mixer_call, ret.

Lemma stop_song_stopped (w : World) : stop_song w = (Ok tt, stopped w).
Proof.
  unfold_player. unfold stopped. destruct w as [[cs ip vol lpt] calls]; simpl.
  destruct ip; reflexivity.
Qed.

Lemma too_soon_dec (env : Env) (w : World) :
  Qlt_bool (time_time env - last_play_time (self w)) min_play_interval = true
  <-> too_soon env w.
Proof. apply Qlt_bool_iff. Qed.

(** Every call of [play_song] goes one of the seven ways. *)
Lemma play_song_outcome (env : Env) (song_path : string) (w : World) :
  play_outcome env song_path w (play_song env song_path w).
Proof.
  unfold play_song, try_except at 1, bind at 1, get_self.
  destruct (Qlt_bool (time_time env - last_play_time (self w)) min_play_interval)
    eqn:Egate.
  { apply play_too_soon, too_soon_dec, Egate. }
  assert (Hgate : ~ too_soon env w).
  { intros H. apply too_soon_dec in H. congruence. }
  destruct (bool_decide (current_song (self w) = Some song_path)
            && is_playing (self w)) eqn:Esame.
  { apply andb_true_iff in Esame as [Hc Hp]. apply bool_decide_eq_true in Hc.
    apply play_already; [exact Hgate | split; assumption]. }
  assert (Hsame : ~ already_playing song_path w).
  { intros [Hc Hp]. rewrite Hp, (bool_decide_eq_true_2 _ Hc) in Esame.
    discriminate. }
  destruct (path_exists env song_path) eqn:Eex; simpl.
  2: { apply play_not_found; assumption. }
  destruct (Z.eqb_spec (path_getsize env song_path) 0) as [Esz|Esz].
  { apply play_empty_file; assumption. }
  unfold bind at 1.
  assert (Hstop : when (is_playing (self w)) stop_song w = (Ok tt, stopped w)).
  { unfold when. destruct (is_playing (self w)) eqn:Ep.
    - apply stop_song_stopped.
    - unfold stopped. rewrite Ep. reflexivity. }
  rewrite Hstop.
  assert (Hvol : volume (self (stopped w)) = volume (self w)).
  { unfold stopped. destruct (is_playing (self w)); reflexivity. }
  unfold try_except, bind, mixer_call, get_self, put_self, ret. simpl.
  destruct (load_ok env song_path) eqn:Eload; simpl.
  2: { apply play_load_failed; assumption. }
  destruct (play_ok env) eqn:Eplay; simpl.
  - rewrite Hvol, <- !app_assoc. simpl.
    apply (play_started env song_path w); assumption.
  - rewrite Hvol, <- !app_assoc.
    apply (play_start_failed env song_path w); assumption.
Qed.

Ltac play_cases env song_path w :=
  let Hout := fresh "Hout" in
  let out := fresh "out" in
  pose proof (play_song_outcome env song_path w) as Hout;
  remember (play_song env song_path w) as out;
  destruct Hout; simpl in *.

Lemma stopped_volume (w : World) : volume (self (stopped w)) = volume (self w).
Proof. unfold stopped. destruct (is_playing (self w)); reflexivity. Qed.

Lemma stopped_last_play_time (w : World) :
  last_play_time (self (stopped w)) = last_play_time (self w).
Proof. unfold stopped. destruct (is_playing (self w)); reflexivity. Qed.

Lemma stopped_inv (w : World) : playback_inv (self (stopped w)) <->
  (is_playing (self w) = false -> playback_inv (self w)).
Proof.
  unfold stopped, playback_inv. destruct (is_playing (self w)) eqn:E; simpl.
  - split; [discriminate|]. intros _. split; [congruence | discriminate].
  - rewrite E. tauto.
Qed.

(** C4.  The minimum interval is 1.  A call of [play_song] made when less
    than the minimum interval has passed since [last_play_time] returns
    false and changes nothing, for any path; in particular so does a call
    made less than the interval after a call that started a track. *)
Theorem play_song_min_interval :
  min_play_interval == 1
  /\ (forall (env : Env) (song_path : string) (w : World),
        time_time env - last_play_time (self w) < min_play_interval ->
        play_song env song_path w = (Ok false, w))
  /\ (forall (env1 env2 : Env) (path1 path2 : string) (w : World),
        fst (play_song env1 path1 w) = Ok true ->
        ~ already_playing path1 w ->
        time_time env2 - time_time env1 < min_play_interval ->
        let w1 := snd (play_song env1 path1 w) in
        play_song env2 path2 w1 = (Ok false, w1)
        /\ current_song (self w1) = Some path1).
Proof.
  assert (Hsoon : forall env song_path w,
             time_time env - last_play_time (self w) < min_play_interval ->
             play_song env song_path w = (Ok false, w)).
  { intros env song_path w H.
    play_cases env song_path w; try reflexivity; contradiction. }
  split; [reflexivity|]. split; [exact Hsoon|].
  intros env1 env2 path1 path2 w Htrue Hnot Hlt w1. subst w1.
  play_cases env1 path1 w; try discriminate; try contradiction.
  split; [|reflexivity]. apply Hsoon. exact Hlt.
Qed.

Lemma play_song_min_interval_witness :
  (time_time (env_at 100.5 true)
   - last_play_time (self (started (env_at 100 true) "a.mp3" init))
   < min_play_interval
   /\ play_song (env_at 100.5 true) "b.mp3"
        (started (env_at 100 true) "a.mp3" init)
      = (Ok false, started (env_at 100 true) "a.mp3" init))
  /\ (fst (play_song (env_at 100 true) "a.mp3" init) = Ok true
      /\ ~ already_playing "a.mp3" init
      /\ time_time (env_at 100.5 true) - time_time (env_at 100 true)
         < min_play_interval
      /\ play_song (env_at 100.5 true) "a.mp3"
           (snd (play_song (env_at 100 true) "a.mp3" init))
         = (Ok false, snd (play_song (env_at 100 true) "a.mp3" init))).
Proof.
  assert (H : time_time (env_at 100.5 true)
              - last_play_time (self (started (env_at 100 true) "a.mp3" init))
              < min_play_interval) by reflexivity.
  assert (H1 : fst (play_song (env_at 100 true) "a.mp3" init) = Ok true)
    by reflexivity.
  assert (H2 : ~ already_playing "a.mp3" init).
  { intros [Hc _]. discriminate Hc. }
  assert (H3 : time_time (env_at 100.5 true) - time_time (env_at 100 true)
               < min_play_interval) by reflexivity.
  split.
  - split; [exact H|].
    exact (proj1 (proj2 play_song_min_interval) (env_at 100.5 true)
             "b.mp3"%string _ H).
  - split; [exact H1|]. split; [exact H2|]. split; [exact H3|].
    exact (proj1 (proj2 (proj2 play_song_min_interval) (env_at 100 true)
                    (env_at 100.5 true) "a.mp3"%string "a.mp3"%string init
                    H1 H2 H3)).
Defined.

(** C10.  [play_song] writes [last_play_time] only where it loads and starts
    a track: a call that returns false leaves it as it was, a call for the
    track that is already playing leaves the whole world as it was, and
    whenever the field differs after the call, the call returned true with
    the world of a started track (loaded, volume set, played, clock
    recorded). *)
Theorem last_play_time_frame :
  forall (env : Env) (song_path : string) (w : World),
    let out := play_song env song_path w in
    (fst out = Ok false \/ fst out = Ok true)
    /\ (fst out = Ok false ->
        last_play_time (self (snd out)) = last_play_time (self w))
    /\ (already_playing song_path w -> snd out = w)
    /\ (last_play_time (self (snd out)) <> last_play_time (self w) ->
        out = (Ok true, started env song_path w)
        /\ last_play_time (self (snd out)) = time_time env
        /\ exists calls,
             mixer_calls (snd out)
             = calls ++ [music_load song_path;
                         music_set_volume (volume (self w)); music_play]).
Proof.
  intros env song_path w out. subst out.
  play_cases env song_path w.
  all: split; [auto|].
  all: split; [try discriminate; intros _;
               rewrite ?stopped_last_play_time; reflexivity|].
  all: split; [try reflexivity; intros; contradiction|].
  all: rewrite ?stopped_last_play_time; try (intros Hne; contradiction Hne; reflexivity).
  intros _. split; [reflexivity|]. split; [reflexivity|].
  eexists. reflexivity.
Qed.

Lemma last_play_time_frame_witness :
  (already_playing "a.mp3" (started (env_at 100 true) "a.mp3" init)
   /\ snd (play_song (env_at 200 true) "a.mp3"
             (started (env_at 100 true) "a.mp3" init))
      = started (env_at 100 true) "a.mp3" init)
  /\ (fst (play_song (env_at 200 false) "b.mp3" init) = Ok false
      /\ last_play_time (self (snd (play_song (env_at 200 false) "b.mp3" init)))
         = last_play_time (self init))
  /\ (last_play_time (self (snd (play_song (env_at 200 true) "b.mp3" init)))
      <> last_play_time (self init)
      /\ play_song (env_at 200 true) "b.mp3" init
         = (Ok true, started (env_at 200 true) "b.mp3" init)).
Proof.
  assert (H : already_playing "a.mp3" (started (env_at 100 true) "a.mp3" init))
    by (split; reflexivity).
  assert (H1 : fst (play_song (env_at 200 false) "b.mp3" init) = Ok false)
    by reflexivity.
  assert (H2 : last_play_time (self (snd (play_song (env_at 200 true) "b.mp3" init)))
               <> last_play_time (self init)) by discriminate.
  split; [|split].
  - split; [exact H|].
    exact (proj1 (proj2 (proj2
             (last_play_time_frame (env_at 200 true) "a.mp3"%string _))) H).
  - split; [exact H1|].
    exact (proj1 (proj2
             (last_play_time_frame (env_at 200 false) "b.mp3"%string init)) H1).
  - split; [exact H2|].
    exact (proj1 (proj2 (proj2 (proj2
             (last_play_time_frame (env_at 200 true) "b.mp3"%string init))) H2)).
Defined.

Lemma play_song_inv (env : Env) (song_path : string) (w : World) :
  playback_inv (self w) -> playback_inv (self (snd (play_song env song_path w))).
Proof.
  intros Hinv. play_cases env song_path w; try exact Hinv.
  - apply stopped_inv. intros _. exact Hinv.
  - apply stopped_inv. intros _. exact Hinv.
  - split; [reflexivity | discriminate].
Qed.

Lemma stop_song_inv (w : World) :
  playback_inv (self w) -> playback_inv (self (snd (stop_song w))).
Proof.
  intros Hinv. rewrite stop_song_stopped. apply stopped_inv. intros _. exact Hinv.
Qed.

Lemma set_volume_world (v : Q) (w : World) :
  set_volume v w
  = (Ok true,
     {| self := {| current_song := current_song (self w);
                   is_playing := is_playing (self w);
                   volume := py_max 0.0 (py_min 1.0 v);
                   last_play_time := last_play_time (self w) |};
        mixer_calls := mixer_calls w
                       ++ [music_set_volume (py_max 0.0 (py_min 1.0 v))] |}).
Proof. reflexivity. Qed.

Lemma set_volume_inv (v : Q) (w : World) :
  playback_inv (self w) -> playback_inv (self (snd (set_volume v w))).
Proof. intros Hinv. rewrite set_volume_world. exact Hinv. Qed.

Lemma step_inv (w : World) (o : Op) :
  playback_inv (self w) -> playback_inv (self (step w o)).
Proof.
  destruct o; simpl.
  - apply play_song_inv.
  - apply stop_song_inv.
  - apply set_volume_inv.
Qed.

(** C5.  [current_song] is set exactly when [is_playing] is true: this holds
    after [__init__], every operation ([play_song] whichever way it goes,
    [stop_song], [set_volume]) keeps it, and so it holds after any sequence
    of operations. *)
Theorem playback_invariant :
  playback_inv (self init)
  /\ (forall w : World,
        playback_inv (self w) ->
        (forall env song_path,
            playback_inv (self (snd (play_song env song_path w))))
        /\ playback_inv (self (snd (stop_song w)))
        /\ (forall v, playback_inv (self (snd (set_volume v w)))))
  /\ (forall ops : list Op, playback_inv (self (run ops init))).
Proof.
  assert (H0 : playback_inv (self init)).
  { split; [intros H; contradiction H; reflexivity | discriminate]. }
  split; [exact H0|]. split.
  - intros w Hinv. split; [|split].
    + intros env song_path. apply play_song_inv, Hinv.
    + apply stop_song_inv, Hinv.
    + intros v. apply set_volume_inv, Hinv.
  - intros ops. unfold run. generalize init H0.
    induction ops as [|o ops IH]; intros w Hw; simpl; [exact Hw|].
    apply IH, step_inv, Hw.
Qed.

Lemma playback_invariant_witness :
  playback_inv (self init)
  /\ playback_inv (self (snd (play_song (env_at 100 true) "a.mp3" init))).
Proof.
  split; [exact (proj1 playback_invariant)|].
  exact (proj1 (proj1 (proj2 playback_invariant) init (proj1 playback_invariant))
           (env_at 100 true) "a.mp3"%string).
Defined.

Lemma py_min_Qmin (a b : Q) : py_min a b == Qmin a b.
Proof.
  unfold py_min. destruct (Qlt_bool b a) eqn:E.
  - apply Qlt_bool_iff in E. symmetry. apply Q.min_r. apply Qlt_le_weak, E.
  - apply Qlt_bool_false_iff in E. symmetry. apply Q.min_l, E.
Qed.

Lemma py_max_Qmax (a b : Q) : py_max a b == Qmax a b.
Proof.
  unfold py_max. destruct (Qlt_bool a b) eqn:E.
  - apply Qlt_bool_iff in E. symmetry. apply Q.max_r. apply Qlt_le_weak, E.
  - apply Qlt_bool_false_iff in E. symmetry. apply Q.max_l, E.
Qed.

(** C6.  [set_volume v] returns true for every [v]; the volume it stores,
    and passes to the mixer at once, is [v] clamped to the interval from 0
    to 1: 0.0 below 0, 1.0 above 1, [v] in between.  The other fields of
    the player are not touched.  [set_volume(-1)] gives 0.0 and
    [set_volume(2)] gives 1.0. *)
Theorem set_volume_clamps :
  (forall (v : Q) (w : World),
      let out := set_volume v w in
      let v' := volume (self (snd out)) in
      fst out = Ok true
      /\ v' == Qmax 0 (Qmin 1 v)
      /\ 0 <= v' <= 1
      /\ (v < 0 -> v' = 0.0)
      /\ (1 < v -> v' = 1.0)
      /\ (0 <= v <= 1 -> v' == v)
      /\ mixer_calls (snd out) = mixer_calls w ++ [music_set_volume v']
      /\ current_song (self (snd out)) = current_song (self w)
      /\ is_playing (self (snd out)) = is_playing (self w)
      /\ last_play_time (self (snd out)) = last_play_time (self w))
  /\ (forall w : World, volume (self (snd (set_volume (-1) w))) = 0.0)
  /\ (forall w : World, volume (self (snd (set_volume 2 w))) = 1.0).
Proof.
  split; [|split; intros w; reflexivity].
  intros v w out v'. subst out v'. rewrite set_volume_world. simpl.
  assert (Hclamp : py_max 0.0 (py_min 1.0 v) == Qmax 0 (Qmin 1 v)).
  { rewrite py_max_Qmax, py_min_Qmin.
    assert (H1 : 1.0 == 1) by reflexivity.
    assert (H0 : 0.0 == 0) by reflexivity.
    rewrite H1, H0. reflexivity. }
  split; [reflexivity|]. split; [exact Hclamp|].
  split.
  { rewrite Hclamp. split.
    - apply Q.le_max_l.
    - apply Q.max_lub; [discriminate | apply Q.le_min_l]. }
  split.
  { intros Hv. unfold py_min, py_max.
    assert (E1 : Qlt_bool v 1.0 = true).
    { apply Qlt_bool_iff. unfold Qlt in *. simpl in *. lia. }
    rewrite E1.
    assert (E2 : Qlt_bool 0.0 v = false).
    { apply Qlt_bool_false_iff. unfold Qlt, Qle in *. simpl in *. lia. }
    rewrite E2. reflexivity. }
  split.
  { intros Hv. unfold py_min, py_max.
    assert (E1 : Qlt_bool v 1.0 = false).
    { apply Qlt_bool_false_iff. unfold Qlt, Qle in *. simpl in *. lia. }
    rewrite E1. reflexivity. }
  split.
  { intros [H0 H1]. rewrite Hclamp.
    rewrite (Q.min_r 1 v H1). apply Q.max_r, H0. }
  repeat split; reflexivity.
Qed.

Lemma set_volume_clamps_witness :
  (-1 < 0 /\ volume (self (snd (set_volume (-1) init))) = 0.0)
  /\ (1 < 2 /\ volume (self (snd (set_volume 2 init))) = 1.0)
  /\ (0 <= 0.3 <= 1 /\ volume (self (snd (set_volume 0.3 init))) == 0.3).
Proof.
  assert (H : -1 < 0) by reflexivity.
  assert (H1 : 1 < 2) by reflexivity.
  assert (H2 : 0 <= 0.3 <= 1) by (split; discriminate).
  split; [|split].
  - split; [exact H|].
    exact (proj1 (proj2 (proj2 (proj2 (proj1 set_volume_clamps (-1) init)))) H).
  - split; [exact H1|].
    exact (proj1 (proj2 (proj2 (proj2 (proj2
             (proj1 set_volume_clamps 2 init))))) H1).
  - split; [exact H2|].
    exact (proj1 (proj2 (proj2 (proj2 (proj2 (proj2
             (proj1 set_volume_clamps 0.3 init)))))) H2).
Defined.

(** The second of two immediate calls with one path is refused: the first
    call starts the track at clock 100, the second, at clock 100.01, returns
    false. *)
Lemma play_twice_immediately_refused :
  let env1 := env_at 100 true in
  let env2 := env_at 100.01 true in
  fst (play_song env1 "a.mp3" init) = Ok true
  /\ time_time env2 - time_time env1 < min_play_interval
  /\ fst (play_song env2 "a.mp3" (snd (play_song env1 "a.mp3" init))) = Ok false.
Proof. vm_compute. repeat split. Qed.

(** C2, as amended.  After a call of [play_song] that returned true, a
    second call with the same path never reloads or restarts the track: it
    leaves the player and the mixer as they are.  It returns true when at
    least the minimum interval has passed since [last_play_time] and false
    when less has; [last_play_time] is the clock of the first call when
    that call started the track. *)
Theorem play_song_same_path_again :
  forall (env1 env2 : Env) (song_path : string) (w : World),
    fst (play_song env1 song_path w) = Ok true ->
    let w1 := snd (play_song env1 song_path w) in
    snd (play_song env2 song_path w1) = w1
    /\ (min_play_interval <= time_time env2 - last_play_time (self w1) ->
        fst (play_song env2 song_path w1) = Ok true)
    /\ (time_time env2 - last_play_time (self w1) < min_play_interval ->
        fst (play_song env2 song_path w1) = Ok false)
    /\ (~ already_playing song_path w ->
        last_play_time (self w1) = time_time env1).
Proof.
  intros env1 env2 song_path w Htrue w1.
  assert (Hplaying : already_playing song_path w1).
  { subst w1. play_cases env1 song_path w; try discriminate.
    - assumption.
    - split; reflexivity. }
  assert (Hstart : ~ already_playing song_path w ->
                   last_play_time (self w1) = time_time env1).
  { subst w1. intros Hnot.
    play_cases env1 song_path w; try discriminate; try contradiction.
    reflexivity. }
  clearbody w1. clear Htrue.
  play_cases env2 song_path w1; try contradiction.
  - repeat split; auto. intros Hge. exfalso.
    apply (Qlt_not_le _ _ H Hge).
  - repeat split; auto. intros Hlt. contradiction.
Qed.

Lemma play_song_same_path_again_witness :
  let w1 := snd (play_song (env_at 100 true) "a.mp3" init) in
  fst (play_song (env_at 100 true) "a.mp3" init) = Ok true
  /\ snd (play_song (env_at 101 true) "a.mp3" w1) = w1
  /\ (min_play_interval <= time_time (env_at 101 true) - last_play_time (self w1)
      /\ fst (play_song (env_at 101 true) "a.mp3" w1) = Ok true)
  /\ (time_time (env_at 100.01 true) - last_play_time (self w1) < min_play_interval
      /\ fst (play_song (env_at 100.01 true) "a.mp3" w1) = Ok false)
  /\ (~ already_playing "a.mp3" init
      /\ last_play_time (self w1) = time_time (env_at 100 true)).
Proof.
  intros w1.
  assert (H : fst (play_song (env_at 100 true) "a.mp3" init) = Ok true)
    by reflexivity.
  assert (H1 : min_play_interval
               <= time_time (env_at 101 true) - last_play_time (self w1))
    by discriminate.
  assert (H2 : time_time (env_at 100.01 true) - last_play_time (self w1)
               < min_play_interval) by reflexivity.
  assert (H3 : ~ already_playing "a.mp3" init).
  { intros [Hc _]. discriminate Hc. }
  split; [exact H|]. split; [|split; [|split]].
  - exact (proj1 (play_song_same_path_again (env_at 100 true) (env_at 101 true)
                    "a.mp3"%string init H)).
  - split; [exact H1|].
    exact (proj1 (proj2 (play_song_same_path_again (env_at 100 true)
                           (env_at 101 true) "a.mp3"%string init H)) H1).
  - split; [exact H2|].
    exact (proj1 (proj2 (proj2 (play_song_same_path_again (env_at 100 true)
                                  (env_at 100.01 true) "a.mp3"%string init H)))
             H2).
  - split; [exact H3|].
    exact (proj2 (proj2 (proj2 (play_song_same_path_again (env_at 100 true)
                                  (env_at 101 true) "a.mp3"%string init H)))
             H3).
Defined.

(** A failed load changes the playback state: with "a.mp3" playing, a call
    for "b.mp3", which exists but which the mixer cannot load, returns false
    and leaves the player stopped, with no current song. *)
Lemma play_song_failure_stops_current :
  let w := started (env_at 100 true) "a.mp3" init in
  let out := play_song (env_at 200 false) "b.mp3" w in
  current_song (self w) = Some "a.mp3"%string
  /\ is_playing (self w) = true
  /\ fst out = Ok false
  /\ current_song (self (snd out)) = None
  /\ is_playing (self (snd out)) = false
  /\ self (snd out) <> self w.
Proof. vm_compute. repeat split. discriminate. Qed.

(** C3, as amended.  When [play_song] returns false, [volume] and
    [last_play_time] are as before the call.  When the call was refused by
    one of its checks (too soon, file missing, file empty) nothing at all
    has changed, and when nothing was playing the playback state has not
    changed.  Otherwise the mixer could not load or start the file, and the
    call has first stopped what was playing: the state is the state before
    the call with the track stopped, so that, when a track was playing,
    [current_song] is none, [is_playing] is false, the state differs from
    the one before the call and the mixer has been told to stop. *)
Theorem play_song_false_state :
  forall (env : Env) (song_path : string) (w : World),
    fst (play_song env song_path w) = Ok false ->
    let w' := snd (play_song env song_path w) in
    volume (self w') = volume (self w)
    /\ last_play_time (self w') = last_play_time (self w)
    /\ (w' = w
        \/ (self w' = self (stopped w)
            /\ ~ too_soon env w
            /\ path_exists env song_path = true
            /\ path_getsize env song_path <> 0%Z
            /\ (load_ok env song_path = false \/ play_ok env = false)))
    /\ (is_playing (self w) = false -> self w' = self w)
    /\ (is_playing (self w) = true -> w' <> w ->
        current_song (self w') = None /\ is_playing (self w') = false)
    /\ (too_soon env w \/ path_exists env song_path = false
        \/ path_getsize env song_path = 0%Z ->
        w' = w)
    /\ (~ too_soon env w -> path_exists env song_path = true ->
        path_getsize env song_path <> 0%Z ->
        (load_ok env song_path = false \/ play_ok env = false)
        /\ self w' = self (stopped w)
        /\ (exists more, mixer_calls w' = mixer_calls (stopped w) ++ more)
        /\ (is_playing (self w) = true ->
            current_song (self w') = None
            /\ is_playing (self w') = false
            /\ self w' <> self w
            /\ exists more, mixer_calls w' = mixer_calls w ++ music_stop :: more)).
Proof.
  intros env song_path w Hfalse w'. subst w'.
  assert (Hidle : is_playing (self w) = false -> self (stopped w) = self w).
  { intros E. unfold stopped. rewrite E. reflexivity. }
  assert (Hbusy : is_playing (self w) = true ->
                  current_song (self (stopped w)) = None
                  /\ is_playing (self (stopped w)) = false).
  { intros E. unfold stopped. rewrite E. split; reflexivity. }
  assert (Hdiff : is_playing (self w) = true -> self (stopped w) <> self w).
  { intros E Heq. destruct (Hbusy E) as [_ Hp]. rewrite Heq in Hp. congruence. }
  assert (Hstop : is_playing (self w) = true ->
                  mixer_calls (stopped w) = mixer_calls w ++ [music_stop]).
  { intros E. unfold stopped. rewrite E. reflexivity. }
  play_cases env song_path w; try discriminate.
  1-3: split; [reflexivity|]; split; [reflexivity|];
    split; [left; reflexivity|]; split; [reflexivity|];
    split; [intros _ Hne; contradiction Hne; reflexivity|];
    split; [intros _; reflexivity|];
    intros Hts Hex Hsz; exfalso; solve [auto | congruence].
  all: rewrite ?stopped_volume, ?stopped_last_play_time.
  all: split; [reflexivity|]; split; [reflexivity|].
  all: split; [right; repeat split; auto|].
  all: split; [exact Hidle|].
  all: split; [intros E _; apply Hbusy, E|].
  all: split; [intros [Hts|[Hex|Hsz]]; exfalso; solve [auto | congruence]|].
  all: intros _ _ _; split; [auto|]; split; [reflexivity|].
  all: split; [eexists; first [symmetry; apply app_nil_r | reflexivity]|].
  all: intros E; destruct (Hbusy E) as [Hc Hp].
  all: split; [exact Hc|]; split; [exact Hp|]; split; [exact (Hdiff E)|].
  all: rewrite (Hstop E), <- ?app_assoc; eexists; reflexivity.
Qed.

Lemma play_song_false_state_witness :
  let w := started (env_at 100 true) "a.mp3" init in
  let w' := snd (play_song (env_at 200 false) "b.mp3" w) in
  (fst (play_song (env_at 200 false) "b.mp3" w) = Ok false
   /\ volume (self w') = volume (self w)
   /\ is_playing (self w) = true
   /\ current_song (self w) = Some "a.mp3"%string
   /\ current_song (self w') = None /\ is_playing (self w') = false
   /\ self w' <> self w
   /\ exists more, mixer_calls w' = mixer_calls w ++ music_stop :: more)
  /\ (fst (play_song (env_at 200 false) "b.mp3" init) = Ok false
      /\ is_playing (self init) = false
      /\ self (snd (play_song (env_at 200 false) "b.mp3" init)) = self init)
  /\ (fst (play_song (env_at 100.5 true) "b.mp3" w) = Ok false
      /\ too_soon (env_at 100.5 true) w
      /\ snd (play_song (env_at 100.5 true) "b.mp3" w) = w).
Proof.
  intros w w'.
  assert (H : fst (play_song (env_at 200 false) "b.mp3" w) = Ok false)
    by reflexivity.
  assert (H1 : is_playing (self w) = true) by reflexivity.
  assert (Hts : ~ too_soon (env_at 200 false) w).
  { unfold too_soon, Qlt; simpl. lia. }
  assert (H3 : fst (play_song (env_at 200 false) "b.mp3" init) = Ok false)
    by reflexivity.
  assert (H4 : is_playing (self init) = false) by reflexivity.
  assert (H5 : fst (play_song (env_at 100.5 true) "b.mp3" w) = Ok false)
    by reflexivity.
  assert (H6 : too_soon (env_at 100.5 true) w).
  { unfold too_soon, Qlt; simpl. lia. }
  pose proof (play_song_false_state (env_at 200 false) "b.mp3"%string w H)
    as (Hvol & _ & _ & _ & _ & _ & Hfail).
  destruct (Hfail Hts eq_refl ltac:(discriminate)) as (_ & _ & _ & Hbusy).
  destruct (Hbusy H1) as (Hc & Hp & Hne & Hmix).
  split; [|split].
  - split; [exact H|]. split; [exact Hvol|]. split; [exact H1|].
    split; [reflexivity|]. split; [exact Hc|]. split; [exact Hp|].
    split; [exact Hne | exact Hmix].
  - split; [exact H3|]. split; [exact H4|].
    exact (proj1 (proj2 (proj2 (proj2
             (play_song_false_state (env_at 200 false) "b.mp3"%string init H3))))
             H4).
  - split; [exact H5|]. split; [exact H6|].
    exact (proj1 (proj2 (proj2 (proj2 (proj2 (proj2
             (play_song_false_state (env_at 100.5 true) "b.mp3"%string w H5))))))
             (or_introl H6)).
Defined.

(** ** The song matcher *)

(** *** The order of binary64 numbers *)

Section Binary64.
Import SpecFloat.

Ltac SF_cases :=
  repeat match goal with
    | H : context [Z.compare ?a ?b] |- _ =>
        destruct (Z.compare_spec a b); simpl in H; try discriminate H
    | H : context [Pos.compare_cont Eq ?a ?b] |- _ =>
        change (Pos.compare_cont Eq a b) with (Pos.compare a b) in H;
        destruct (Pos.compare_spec a b); simpl in H; try discriminate H
    | |- context [Z.compare ?a ?b] =>
        destruct (Z.compare_spec a b); simpl
    | |- context [Pos.compare_cont Eq ?a ?b] =>
        change (Pos.compare_cont Eq a b) with (Pos.compare a b);
        destruct (Pos.compare_spec a b); simpl
    end; try congruence; try lia.

Ltac SF_three a b c :=
  destruct a as [[]|[]| |[] ? ?], b as [[]|[]| |[] ? ?], c as [[]|[]| |[] ? ?];
  simpl; try discriminate; try reflexivity;
  let H1 := fresh in let H2 := fresh in intros H1 H2; SF_cases.

Lemma SFcompare_refl (a : spec_float) :
  a <> S754_nan -> SFcompare a a = Some Eq.
Proof.
  destruct a as [s|s| |s m e]; simpl; try congruence; try (destruct s; reflexivity).
  intros _. rewrite Z.compare_refl.
  change (Pos.compare_cont Eq m m) with (Pos.compare m m).
  rewrite Pos.compare_refl. destruct s; reflexivity.
Qed.

Lemma SFcompare_Lt_trans (a b c : spec_float) :
  SFcompare a b = Some Lt -> SFcompare b c = Some Lt -> SFcompare a c = Some Lt.
Proof. SF_three a b c. Qed.

Lemma SFcompare_Lt_Eq (a b c : spec_float) :
  SFcompare a b = Some Lt -> SFcompare c b = Some Eq -> SFcompare a c = Some Lt.
Proof. SF_three a b c. Qed.

Lemma SFcompare_Lt_Gt (a b c : spec_float) :
  SFcompare a b = Some Lt -> SFcompare c b = Some Gt -> SFcompare a c = Some Lt.
Proof. SF_three a b c. Qed.

Lemma SFcompare_Some (a b : spec_float) :
  a <> S754_nan -> b <> S754_nan -> exists c, SFcompare a b = Some c.
Proof.
  destruct a as [sa|sa| |sa ma ea], b as [sb|sb| |sb mb eb]; simpl;
    try congruence; intros _ _; eauto;
    try (destruct sa); try (destruct sb); eauto.
Qed.

Lemma SFcompare_antisym (a b : spec_float) (c : comparison) :
  SFcompare a b = Some c -> SFcompare b a = Some (CompOpp c).
Proof.
  destruct a as [sa|sa| |sa ma ea], b as [sb|sb| |sb mb eb]; simpl;
    try discriminate;
    try (destruct sa); try (destruct sb); simpl; try discriminate;
    try (intros [= <-]; reflexivity);
    intros H; SF_cases; injection H as <-; reflexivity.
Qed.

(** A binary64 value is a number when it is not NaN. *)
Lemma is_number_spec (x : PrimFloat.float) :
  is_number x = true <-> FloatOps.Prim2SF x <> S754_nan.
Proof.
  unfold is_number. rewrite FloatAxioms.eqb_spec. unfold SFeqb. split.
  - intros H E. rewrite E in H. discriminate.
  - intros H. rewrite SFcompare_refl by exact H. reflexivity.
Qed.

(** Only numbers are compared as smaller or greater. *)
Lemma ltb_number (x y : PrimFloat.float) :
  PrimFloat.ltb x y = true -> is_number x = true /\ is_number y = true.
Proof.
  rewrite FloatAxioms.ltb_spec, !is_number_spec. unfold SFltb.
  destruct (FloatOps.Prim2SF x), (FloatOps.Prim2SF y); simpl;
    try discriminate; split; congruence.
Qed.

Lemma ltb_trans (x y z : PrimFloat.float) :
  PrimFloat.ltb x y = true -> PrimFloat.ltb y z = true ->
  PrimFloat.ltb x z = true.
Proof.
  rewrite !FloatAxioms.ltb_spec. unfold SFltb. intros H1 H2.
  destruct (SFcompare (FloatOps.Prim2SF x) (FloatOps.Prim2SF y)) as [[]|] eqn:E1;
    try discriminate.
  destruct (SFcompare (FloatOps.Prim2SF y) (FloatOps.Prim2SF z)) as [[]|] eqn:E2;
    try discriminate.
  rewrite (SFcompare_Lt_trans _ _ _ E1 E2). reflexivity.
Qed.

(** What is below a number is below every number that is not below that
    one. *)
Lemma ltb_not_ltb (x y z : PrimFloat.float) :
  is_number z = true ->
  PrimFloat.ltb x y = true -> PrimFloat.ltb z y = false ->
  PrimFloat.ltb x z = true.
Proof.
  intros Hz Hxy Hzy.
  pose proof (ltb_number _ _ Hxy) as [Hx Hy].
  apply is_number_spec in Hy, Hz.
  rewrite FloatAxioms.ltb_spec in *. unfold SFltb in *.
  destruct (SFcompare (FloatOps.Prim2SF x) (FloatOps.Prim2SF y)) as [[]|] eqn:E1;
    try discriminate.
  destruct (SFcompare_Some _ _ Hz Hy) as (c & E2). rewrite E2 in Hzy.
  destruct c; try discriminate.
  - rewrite (SFcompare_Lt_Eq _ _ _ E1 E2). reflexivity.
  - rewrite (SFcompare_Lt_Gt _ _ _ E1 E2). reflexivity.
Qed.

(** The order of the numbers is total. *)
Lemma not_ltb_leb (x y : PrimFloat.float) :
  is_number x = true -> is_number y = true ->
  (PrimFloat.ltb x y = false <-> PrimFloat.leb y x = true).
Proof.
  intros Hx Hy. apply is_number_spec in Hx, Hy.
  rewrite FloatAxioms.ltb_spec, FloatAxioms.leb_spec. unfold SFltb, SFleb.
  destruct (SFcompare_Some _ _ Hx Hy) as (c & E). rewrite E.
  rewrite (SFcompare_antisym _ _ _ E).
  destruct c; simpl; split; intros H; try discriminate; reflexivity.
Qed.

Lemma ltb_leb (x y : PrimFloat.float) :
  PrimFloat.ltb x y = true -> PrimFloat.leb x y = true.
Proof.
  rewrite FloatAxioms.ltb_spec, FloatAxioms.leb_spec. unfold SFltb, SFleb.
  destruct (SFcompare (FloatOps.Prim2SF x) (FloatOps.Prim2SF y)) as [[]|];
    try discriminate; reflexivity.
Qed.

Lemma leb_refl (x : PrimFloat.float) :
  is_number x = true -> PrimFloat.leb x x = true.
Proof.
  intros Hx. apply is_number_spec in Hx.
  rewrite FloatAxioms.leb_spec. unfold SFleb.
  rewrite SFcompare_refl by exact Hx. reflexivity.
Qed.

End Binary64.

(** *** Distances *)

Lemma sq_distance_nonneg (valence arousal : Q) (row : Song) :
  0 <= sq_distance valence arousal row.
Proof.
  unfold sq_distance, euclidean; simpl.
  assert (Hsq : forall x : Q, 0 <= x ^ 2).
  { intros x. change (x ^ 2) with (x * x).
    unfold Qle, Qmult; simpl. nia. }
  exact (Qplus_le_compat 0 _ 0 _ (Hsq (valence_average row - valence))
           (Hsq (arousal_average row - arousal))).
Qed.

(** The exact value kept in the column is the Euclidean distance. *)
Lemma Dist_to_R_euclidean (valence arousal : Q) (row : Song) :
  Dist_to_R (euclidean valence arousal row) = euclidean_R valence arousal row.
Proof.
  unfold Dist_to_R, euclidean_R, euclidean; simpl. f_equal.
  change ((valence_average row - valence) ^ 2)
    with ((valence_average row - valence) * (valence_average row - valence)).
  change ((arousal_average row - arousal) ^ 2)
    with ((arousal_average row - arousal) * (arousal_average row - arousal)).
  rewrite Q2R_plus, !Q2R_mult, !Q2R_minus. ring.
Qed.

(** Comparing the squares is comparing the distances. *)
Lemma sq_distance_lt_real (valence arousal : Q) (r x : Song) :
  sq_distance valence arousal r < sq_distance valence arousal x ->
  (euclidean_R valence arousal r < euclidean_R valence arousal x)%R.
Proof.
  intros H. rewrite <- !Dist_to_R_euclidean. unfold Dist_to_R.
  apply sqrt_lt_1_alt. split.
  - replace 0%R with (Q2R 0) by (unfold Q2R; simpl; field).
    apply Qle_Rle, sq_distance_nonneg.
  - apply Qlt_Rlt, H.
Qed.

(** The computed distances order the rows that have one. *)
Lemma nearer_has_distance (valence arousal : Q) (x y : Song) :
  nearer valence arousal x y ->
  has_distance valence arousal x /\ has_distance valence arousal y.
Proof. apply ltb_number. Qed.

Lemma nearer_trans (valence arousal : Q) (x y z : Song) :
  nearer valence arousal x y -> nearer valence arousal y z ->
  nearer valence arousal x z.
Proof. apply ltb_trans. Qed.

Lemma nearer_not_nearer (valence arousal : Q) (x y z : Song) :
  has_distance valence arousal z ->
  nearer valence arousal x y -> ~ nearer valence arousal z y ->
  nearer valence arousal x z.
Proof.
  unfold nearer. intros Hz Hxy Hzy. apply not_true_is_false in Hzy.
  exact (ltb_not_ltb _ _ _ Hz Hxy Hzy).
Qed.

Lemma not_nearer_as_near (valence arousal : Q) (x y : Song) :
  has_distance valence arousal x -> has_distance valence arousal y ->
  (~ nearer valence arousal x y <-> as_near valence arousal y x).
Proof.
  unfold nearer, as_near. intros Hx Hy.
  rewrite <- (not_ltb_leb _ _ Hx Hy).
  split; [apply not_true_is_false | intros H; rewrite H; discriminate].
Qed.

Lemma nearer_as_near (valence arousal : Q) (x y : Song) :
  nearer valence arousal x y -> as_near valence arousal x y.
Proof. apply ltb_leb. Qed.

Lemma as_near_refl (valence arousal : Q) (x : Song) :
  has_distance valence arousal x -> as_near valence arousal x x.
Proof. apply leb_refl. Qed.

(** *** Rows and their distance column *)

Lemma set_distance_idem (d d' : option Dist) (row : Song) :
  set_distance d (set_distance d' row) = set_distance d row.
Proof. reflexivity. Qed.

Lemma euclidean_set_distance (valence arousal : Q) (d : option Dist) (row : Song) :
  euclidean valence arousal (set_distance d row) = euclidean valence arousal row.
Proof. reflexivity. Qed.

Lemma index_assign_distance (valence arousal : Q) (df : DataFrame) :
  index (assign_distance valence arousal df) = index df.
Proof.
  unfold index, assign_distance. rewrite <- list_fmap_compose.
  apply list_fmap_ext. intros _ row _. reflexivity.
Qed.

Lemma length_assign_distance (valence arousal : Q) (df : DataFrame) :
  length (assign_distance valence arousal df) = length df.
Proof. unfold assign_distance. apply length_fmap. Qed.

Lemma elem_of_assign_distance (valence arousal : Q) (df : DataFrame) (x : Song) :
  x ∈ assign_distance valence arousal df ->
  distance x = Some (euclidean valence arousal x)
  /\ exists row, row ∈ df
                 /\ x = set_distance (Some (euclidean valence arousal row)) row.
Proof.
  unfold assign_distance. intros H.
  apply list_elem_of_fmap in H as (row & -> & Hrow).
  split; [reflexivity|]. exists row. split; [exact Hrow | reflexivity].
Qed.

Lemma assign_distance_elem (valence arousal : Q) (df : DataFrame) (row : Song) :
  row ∈ df ->
  set_distance (Some (euclidean valence arousal row)) row
  ∈ assign_distance valence arousal df.
Proof.
  intros H. unfold assign_distance.
  apply (list_elem_of_fmap_2
           (fun row => set_distance (Some (euclidean valence arousal row)) row)).
  exact H.
Qed.

(** The column that [idxmin] reads after the assignment: the rows whose
    computed distance is a number. *)
Lemma distance_column_assign (valence arousal : Q) (df : DataFrame) :
  distance_column (assign_distance valence arousal df)
  = omap (fun row =>
            if is_number (computed_distance valence arousal row)
            then Some (name row, euclidean valence arousal row) else None) df.
Proof.
  unfold distance_column, assign_distance.
  induction df as [|row df IH]; [reflexivity|].
  rewrite fmap_cons. cbn [omap list_omap]. rewrite IH.
  cbn [distance set_distance name]. reflexivity.
Qed.

(** Writing the column again changes nothing of what an earlier query
    wrote, and writing it again for the same query changes nothing, also
    after rows have been dropped. *)
Lemma assign_distance_again (valence arousal valence' arousal' : Q)
    (df : DataFrame) :
  assign_distance valence arousal (assign_distance valence' arousal' df)
  = assign_distance valence arousal df.
Proof.
  unfold assign_distance. rewrite <- list_fmap_compose.
  apply list_fmap_ext. intros _ row _. reflexivity.
Qed.

Lemma assign_distance_drop (valence arousal : Q) (label : Z) (df : DataFrame) :
  assign_distance valence arousal
    (drop_label label (assign_distance valence arousal df))
  = drop_label label (assign_distance valence arousal df).
Proof.
  unfold drop_label, assign_distance.
  induction df as [|row df IH]; [reflexivity|].
  rewrite fmap_cons, filter_cons. simpl name.
  destruct (decide (name row <> label)) as [Hne|Heq].
  - rewrite fmap_cons. f_equal. exact IH.
  - exact IH.
Qed.

Lemma loc_unique (df : DataFrame) (m : Song) :
  NoDup (index df) -> m ∈ df -> loc df (name m) = Ok m.
Proof.
  intros Hnd Hin. unfold loc.
  assert (Hf : filter (fun row => name row = name m) df = [m]).
  { induction df as [|row df IH]; [inversion Hin|].
    unfold index in Hnd. rewrite fmap_cons in Hnd.
    apply NoDup_cons in Hnd as [Hnotin Hnd].
    rewrite filter_cons.
    apply elem_of_cons in Hin as [->|Hin].
    - rewrite decide_True by reflexivity. f_equal.
      apply elem_of_nil_inv. intros x Hx.
      apply list_elem_of_filter in Hx as [Hname Hx].
      apply Hnotin. rewrite <- Hname. apply list_elem_of_fmap_2, Hx.
    - rewrite decide_False.
      + apply IH; assumption.
      + intros Hname. apply Hnotin. rewrite Hname.
        apply list_elem_of_fmap_2, Hin. }
  rewrite Hf. reflexivity.
Qed.

Lemma loc_elem (df : DataFrame) (label : Z) (m : Song) :
  loc df label = Ok m -> m ∈ df /\ name m = label.
Proof.
  unfold loc. intros H.
  destruct (filter (fun row => name row = label) df) as [|x [|y l]] eqn:E;
    try discriminate.
  injection H as ->.
  assert (Hm : m ∈ filter (fun row => name row = label) df).
  { rewrite E. apply list_elem_of_here. }
  apply list_elem_of_filter in Hm as [Hname Hm]. split; assumption.
Qed.

Lemma drop_label_absent (label : Z) (df : DataFrame) :
  label ∉ index df -> drop_label label df = df.
Proof.
  unfold drop_label, index. induction df as [|a df IH]; intros H; [reflexivity|].
  rewrite fmap_cons in H. apply not_elem_of_cons in H as [Ha H].
  rewrite filter_cons, decide_True by congruence.
  f_equal. apply IH, H.
Qed.

(** The row that [loc] finds is the only row with its label: dropping the
    label takes that row out of the table and leaves the others in
    place. *)
Lemma loc_split (df : DataFrame) (label : Z) (m : Song) :
  loc df label = Ok m ->
  exists pre post,
    df = pre ++ m :: post
    /\ drop_label label df = pre ++ post
    /\ (label ∉ index pre) /\ (label ∉ index post).
Proof.
  unfold loc. intros H.
  assert (Hf : filter (fun row => name row = label) df = [m]).
  { destruct (filter (fun row => name row = label) df) as [|x [|y l]];
      try discriminate. injection H as ->. reflexivity. }
  clear H. induction df as [|a df IH]; [discriminate|].
  rewrite filter_cons in Hf. unfold drop_label. rewrite filter_cons.
  destruct (decide (name a = label)) as [Ha|Ha].
  - injection Hf as -> Hnil.
    assert (Hall : label ∉ index df).
    { unfold index. intros Hin.
      apply list_elem_of_fmap in Hin as (x & Hname & Hx).
      assert (Hin : x ∈ filter (fun row => name row = label) df)
        by (apply list_elem_of_filter; split; [symmetry|]; assumption).
      rewrite Hnil in Hin. inversion Hin. }
    exists [], df. split; [reflexivity|].
    rewrite decide_False by (intros Hne; contradiction).
    split; [exact (drop_label_absent label df Hall)|].
    split; [|exact Hall].
    intros Hin. inversion Hin.
  - destruct (IH Hf) as (pre & post & -> & Hdrop & Hpre & Hpost).
    exists (a :: pre), post. rewrite decide_True by exact Ha.
    split; [reflexivity|]. split; [simpl; f_equal; exact Hdrop|].
    split; [|exact Hpost].
    unfold index. rewrite fmap_cons. intros Hin.
    apply elem_of_cons in Hin as [Hin|Hin]; [congruence | contradiction].
Qed.

Lemma drop_label_length (df : DataFrame) (m : Song) :
  m ∈ df -> (length (drop_label (name m) df) < length df)%nat.
Proof.
  intros Hin. unfold drop_label. apply (length_filter_lt _ _ m Hin).
  intros H. apply H. reflexivity.
Qed.

Lemma drop_label_sublist (label : Z) (df : DataFrame) :
  sublist (drop_label label df) df.
Proof. unfold drop_label. apply sublist_filter. Qed.

Lemma index_sublist (df' df : DataFrame) :
  sublist df' df -> sublist (index df') (index df).
Proof. intros H. unfold index. apply fmap_sublist, H. Qed.

Lemma drop_label_not_in (label : Z) (df : DataFrame) :
  label ∉ index (drop_label label df).
Proof.
  unfold index, drop_label. intros H.
  apply list_elem_of_fmap in H as (row & Hname & Hrow).
  apply list_elem_of_filter in Hrow as [Hne _]. congruence.
Qed.

Lemma name_unique (df : DataFrame) (x y : Song) :
  NoDup (index df) -> x ∈ df -> y ∈ df -> name x = name y -> x = y.
Proof.
  intros Hnd Hx Hy Hname.
  pose proof (loc_unique df x Hnd Hx) as Lx.
  pose proof (loc_unique df y Hnd Hy) as Ly.
  rewrite Hname in Lx. congruence.
Qed.

(** The rows without audio file: the assignment keeps them, a drop of one
    of them leaves fewer. *)
Lemma missing_assign_distance (exists_ : string -> bool) (valence arousal : Q)
    (df : DataFrame) :
  length (missing exists_ (assign_distance valence arousal df))
  = length (missing exists_ df).
Proof.
  unfold missing, assign_distance.
  induction df as [|row df IH]; [reflexivity|].
  rewrite fmap_cons, !filter_cons. simpl audio_path.
  destruct (decide (exists_ (audio_path row) = false)); simpl; lia.
Qed.

Lemma missing_drop_label (exists_ : string -> bool) (df : DataFrame) (m : Song) :
  m ∈ df -> exists_ (audio_path m) = false ->
  (length (missing exists_ (drop_label (name m) df))
   < length (missing exists_ df))%nat.
Proof.
  intros Hin Hex.
  assert (Hcomm : missing exists_ (drop_label (name m) df)
                  = drop_label (name m) (missing exists_ df)).
  { unfold missing, drop_label. clear Hin.
    induction df as [|row df IH]; [reflexivity|].
    rewrite !filter_cons.
    destruct (decide (name row <> name m)), (decide (exists_ (audio_path row) = false));
      rewrite ?filter_cons, ?decide_True, ?decide_False by assumption;
      rewrite IH; reflexivity. }
  rewrite Hcomm. apply drop_label_length.
  unfold missing. apply list_elem_of_filter. split; assumption.
Qed.

(** *** The first minimum *)

Section FirstMin.
Variable lt : Song -> Song -> Prop.

Lemma first_min_elem (P : Song -> Prop) (l : list Song) (r : Song) :
  first_min lt P l r -> r ∈ l /\ P r.
Proof.
  induction 1 as [r l HP _|a r l _ _ [IHin IHP]].
  - split; [apply list_elem_of_here | exact HP].
  - split; [apply list_elem_of_further, IHin | exact IHP].
Qed.

(** The reading of [first_min] on the positions of the table. *)
Lemma first_min_split (P : Song -> Prop) (l : list Song) (r : Song) :
  first_min lt P l r <->
  exists pre post,
    l = pre ++ r :: post /\ P r
    /\ (forall x, x ∈ pre -> P x -> lt r x)
    /\ (forall x, x ∈ post -> P x -> ~ lt x r).
Proof.
  split.
  - induction 1 as [r l HP Hle|a r l Ha _ (pre & post & -> & HP & Hpre & Hpost)].
    + exists [], l. repeat split; auto. intros x Hx. inversion Hx.
    + exists (a :: pre), post. repeat split; auto.
      intros x Hx HPx. apply elem_of_cons in Hx as [->|Hx]; auto.
  - intros (pre & post & -> & HP & Hpre & Hpost).
    induction pre as [|a pre IH]; simpl.
    + apply first_min_here; assumption.
    + apply first_min_later.
      * intros Ha. apply Hpre; [apply list_elem_of_here | exact Ha].
      * apply IH. intros x Hx. apply Hpre. apply list_elem_of_further, Hx.
Qed.

Lemma first_min_restrict (P P' : Song -> Prop) (l : list Song) (r : Song) :
  (forall x, P' x -> P x) -> P' r ->
  first_min lt P l r -> first_min lt P' l r.
Proof.
  intros Hsub Hr. induction 1 as [r l _ Hle|a r l Ha _ IH].
  - apply first_min_here; auto.
  - apply first_min_later; auto.
Qed.

(** Rows that do not satisfy [P] can be put back. *)
Lemma first_min_drop_label (P : Song -> Prop)
    (label : Z) (l : list Song) (r : Song) :
  (forall x, x ∈ l -> name x = label -> ~ P x) ->
  first_min lt P (drop_label label l) r -> first_min lt P l r.
Proof.
  unfold drop_label. induction l as [|a l IH]; intros Hlabel Hfm.
  - exact Hfm.
  - rewrite filter_cons in Hfm.
    assert (Hl : forall x, x ∈ l -> name x = label -> ~ P x).
    { intros x Hx. apply Hlabel. apply list_elem_of_further, Hx. }
    destruct (decide (name a <> label)) as [Hne|Heq].
    + inversion Hfm as [r' l' HP Hle|a' r' l' Ha Hrest]; subst.
      * apply first_min_here; [exact HP|].
        intros x Hx HPx. apply Hle; [|exact HPx].
        apply list_elem_of_filter. split; [|exact Hx].
        intros Hname. exact (Hl x Hx Hname HPx).
      * apply first_min_later; [exact Ha | apply IH; assumption].
    + apply first_min_later; [|apply IH; assumption].
      intros Ha. exfalso. apply (Hlabel a); [apply list_elem_of_here | | exact Ha].
      destruct (decide (name a = label)); [assumption | contradiction].
Qed.

(** A first minimum that does not look at the distance column is the same
    before and after the assignment. *)
Lemma first_min_assign (valence arousal : Q) (P : Song -> Prop)
    (df : DataFrame) (r : Song) :
  (forall c c' x y, lt (set_distance c x) (set_distance c' y) <-> lt x y) ->
  (forall c row, P (set_distance c row) <-> P row) ->
  first_min lt P (assign_distance valence arousal df) r ->
  exists r0,
    r = set_distance (Some (euclidean valence arousal r0)) r0
    /\ first_min lt P df r0.
Proof.
  intros Hlt HP. unfold assign_distance.
  revert r. induction df as [|a df IH]; intros r Hfm; [inversion Hfm|].
  rewrite fmap_cons in Hfm.
  inversion Hfm as [r' l' HPr Hle|a' r' l' Ha Hrest]; subst.
  - exists a. split; [reflexivity|]. apply first_min_here.
    + apply HP in HPr. exact HPr.
    + intros x Hx HPx Hxa.
      apply (Hle (set_distance (Some (euclidean valence arousal x)) x)).
      * apply (list_elem_of_fmap_2
                 (fun row => set_distance (Some (euclidean valence arousal row)) row)).
        exact Hx.
      * apply HP. exact HPx.
      * apply Hlt. exact Hxa.
  - destruct (IH r Hrest) as (r0 & -> & Hfm0).
    exists r0. split; [reflexivity|]. apply first_min_later; [|exact Hfm0].
    intros HPa.
    apply (Hlt (Some (euclidean valence arousal r0))
             (Some (euclidean valence arousal a))).
    apply Ha. apply HP. exact HPa.
Qed.

Lemma first_min_assign_fwd (valence arousal : Q) (P : Song -> Prop)
    (df : DataFrame) (r0 : Song) :
  (forall c c' x y, lt (set_distance c x) (set_distance c' y) <-> lt x y) ->
  (forall c row, P (set_distance c row) <-> P row) ->
  first_min lt P df r0 ->
  first_min lt P (assign_distance valence arousal df)
    (set_distance (Some (euclidean valence arousal r0)) r0).
Proof.
  intros Hlt HP. unfold assign_distance.
  induction 1 as [r l HPr Hle|a r l Ha _ IH]; rewrite fmap_cons.
  - apply first_min_here; [apply HP, HPr|].
    intros x Hx HPx Hxr. apply list_elem_of_fmap in Hx as (x0 & -> & Hx0).
    apply (Hle x0 Hx0); [apply HP in HPx; exact HPx | apply Hlt in Hxr; exact Hxr].
  - apply first_min_later; [|exact IH].
    intros HPa. apply Hlt. apply Ha. apply HP in HPa. exact HPa.
Qed.

End FirstMin.

(** [idxmin] on the distance column finds the first of the rows that are
    nearest by their computed distance. *)
Lemma idxmin_from_first_min (valence arousal : Q) (rest : list Song) (best : Song) :
  let key := fun row =>
    if is_number (computed_distance valence arousal row)
    then Some (name row, euclidean valence arousal row) else None in
  let lt := nearer valence arousal in
  let P := has_distance valence arousal in
  exists m,
    idxmin_from (name best, euclidean valence arousal best) (omap key rest)
    = name m
    /\ ((m = best /\ forall x, x ∈ rest -> P x -> ~ lt x best)
        \/ (lt m best /\ first_min lt P rest m)).
Proof.
  intros key lt P. revert best.
  induction rest as [|x rest IH]; intros best.
  - exists best. split; [reflexivity|]. left. split; [reflexivity|].
    intros x Hx. inversion Hx.
  - cbn [omap list_omap]. unfold key at 1.
    destruct (is_number (computed_distance valence arousal x)) eqn:Ex.
    + cbn [idxmin_from fst snd].
      change (Dist_ltb (euclidean valence arousal x)
                (euclidean valence arousal best))
        with (PrimFloat.ltb (computed_distance valence arousal x)
                (computed_distance valence arousal best)).
      destruct (PrimFloat.ltb (computed_distance valence arousal x)
                  (computed_distance valence arousal best)) eqn:E.
      * destruct (IH x) as (m & Hm & [[-> Hall]|[Hlt Hfm]]).
        -- exists x. split; [exact Hm|]. right. split; [exact E|].
           apply first_min_here; [exact Ex | exact Hall].
        -- exists m. split; [exact Hm|]. right. split.
           ++ exact (nearer_trans _ _ _ _ _ Hlt E).
           ++ apply first_min_later; [intros _; exact Hlt | exact Hfm].
      * destruct (IH best) as (m & Hm & [[-> Hall]|[Hlt Hfm]]).
        -- exists best. split; [exact Hm|]. left. split; [reflexivity|].
           intros y Hy HPy. apply elem_of_cons in Hy as [->|Hy].
           ++ unfold lt, nearer. rewrite E. discriminate.
           ++ apply Hall; assumption.
        -- exists m. split; [exact Hm|]. right. split; [exact Hlt|].
           apply first_min_later; [|exact Hfm].
           intros HPx. apply (nearer_not_nearer _ _ _ best x HPx Hlt).
           unfold nearer. rewrite E. discriminate.
    + destruct (IH best) as (m & Hm & [[-> Hall]|[Hlt Hfm]]).
      * exists best. split; [exact Hm|]. left. split; [reflexivity|].
        intros y Hy HPy. apply elem_of_cons in Hy as [->|Hy].
        -- unfold P, has_distance in HPy. congruence.
        -- apply Hall; assumption.
      * exists m. split; [exact Hm|]. right. split; [exact Hlt|].
        apply first_min_later; [|exact Hfm].
        intros HPx. unfold P, has_distance in HPx. congruence.
Qed.

Lemma idxmin_first_min (valence arousal : Q) (df : DataFrame) :
  match idxmin (distance_column (assign_distance valence arousal df)) with
  | Ok label =>
      exists m, label = name m
                /\ first_min (nearer valence arousal)
                     (has_distance valence arousal) df m
  | Raise _ => forall x, x ∈ df -> ~ has_distance valence arousal x
  end.
Proof.
  rewrite distance_column_assign.
  induction df as [|a df IH].
  - simpl. intros x Hx. inversion Hx.
  - cbn [omap list_omap].
    destruct (is_number (computed_distance valence arousal a)) eqn:Ea.
    + cbn [idxmin].
      destruct (idxmin_from_first_min valence arousal df a)
        as (m & Hm & [[-> Hall]|[Hlt Hfm]]).
      * exists a. split; [exact Hm|].
        apply first_min_here; [exact Ea | exact Hall].
      * exists m. split; [exact Hm|].
        apply first_min_later; [intros _; exact Hlt | exact Hfm].
    + destruct (idxmin (omap _ df)) as [label|e].
      * destruct IH as (m & Hm & Hfm). exists m. split; [exact Hm|].
        apply first_min_later; [|exact Hfm].
        intros Ha. unfold has_distance in Ha. congruence.
      * intros x Hx Hd. apply elem_of_cons in Hx as [->|Hx].
        -- unfold has_distance in Hd. congruence.
        -- exact (IH x Hx Hd).
Qed.

(** *** The search *)

Section Search.
Variable exists_ : string -> bool.
Variables valence arousal : Q.

Let lt := nearer valence arousal.
Let P := candidate exists_ valence arousal.
Let assign := assign_distance valence arousal.
Let find := fun depth df => find_matching_song depth exists_ df valence arousal.

(** One call of [find_matching_song]. *)
Lemma find_matching_song_eq (depth : nat) (df : DataFrame) :
  find depth df
  = match idxmin (distance_column (assign df)) with
    | Raise _ => (None, assign df)
    | Ok label =>
        match loc (assign df) label with
        | Raise _ => (None, assign df)
        | Ok closest_song =>
            if exists_ (audio_path closest_song) then
              (Some closest_song, assign df)
            else
              match depth with
              | O => (None, drop_label (name closest_song) (assign df))
              | S depth =>
                  find depth (drop_label (name closest_song) (assign df))
              end
        end
    end.
Proof. destruct depth; reflexivity. Qed.

(** The table that a call leaves is a part of the table it was given, and
    what it returns is a row of the table it leaves, with its audio file
    there. *)
Lemma find_matching_song_part (depth : nat) (df : DataFrame) :
  sublist (snd (find depth df)) (assign df)
  /\ (forall r, fst (find depth df) = Some r ->
                r ∈ snd (find depth df) /\ playable exists_ r).
Proof.
  revert df. induction depth as [|depth IH]; intros df;
    rewrite find_matching_song_eq;
    destruct (idxmin (distance_column (assign df))) as [label|e];
    try (split; [reflexivity | discriminate]);
    destruct (loc (assign df) label) as [m|e] eqn:Eloc;
    try (split; [reflexivity | discriminate]);
    apply loc_elem in Eloc as [Hm Hname];
    (destruct (exists_ (audio_path m)) eqn:Eex;
     [split; [reflexivity | intros r [= <-]; split; assumption]|]).
  - split; [apply drop_label_sublist | discriminate].
  - destruct (IH (drop_label (name m) (assign df))) as [Hsub Hans].
    split; [|exact Hans].
    unfold assign in Hsub. rewrite assign_distance_drop in Hsub.
    etransitivity; [exact Hsub | apply drop_label_sublist].
Qed.

(** A call removes no row whose audio file is there. *)
Lemma find_matching_song_keeps (depth : nat) (df : DataFrame) (x : Song) :
  x ∈ assign df -> playable exists_ x -> x ∈ snd (find depth df).
Proof.
  revert df. induction depth as [|depth IH]; intros df Hx HP;
    rewrite find_matching_song_eq;
    destruct (idxmin (distance_column (assign df))) as [label|e];
    try exact Hx;
    destruct (loc (assign df) label) as [m|e] eqn:Eloc;
    try exact Hx;
    (destruct (exists_ (audio_path m)) eqn:Eex; [exact Hx|]);
    pose proof (loc_elem _ _ _ Eloc) as [_ Hname];
    destruct (loc_split _ _ _ Eloc) as (pre & post & Hsplit & Hdrop & _ & _);
    (assert (Hkept : x ∈ drop_label (name m) (assign df));
     [ rewrite Hname, Hdrop; rewrite Hsplit in Hx;
       apply elem_of_app in Hx as [Hx|Hx];
       [ apply elem_of_app; left; exact Hx |];
       apply elem_of_cons in Hx as [->|Hx];
       [ unfold playable in HP; congruence
       | apply elem_of_app; right; exact Hx ] |]).
  - exact Hkept.
  - apply IH; [|exact HP]. unfold assign. rewrite assign_distance_drop.
    exact Hkept.
Qed.

(** With labels that identify the rows, the search returns the first of the
    nearest rows among those that it can return; and, with enough room for
    the nested calls, it returns nothing only if there is none. *)
Lemma find_matching_song_first_min (depth : nat) (df : DataFrame) :
  NoDup (index df) ->
  match fst (find depth df) with
  | Some r => first_min lt P (assign df) r
  | None =>
      (length (missing exists_ df) <= depth)%nat ->
      forall x, x ∈ assign df -> ~ P x
  end.
Proof.
  revert df. induction depth as [depth IH] using lt_wf_ind.
  intros df Hnd. rewrite find_matching_song_eq.
  pose proof (idxmin_first_min valence arousal df) as Hidx.
  fold (assign df) in Hidx.
  destruct (idxmin (distance_column (assign df))) as [label|e].
  2: { simpl. intros _ x Hx [_ HPx].
       apply elem_of_assign_distance in Hx as [_ (x0 & Hx0 & ->)].
       exact (Hidx x0 Hx0 HPx). }
  destruct Hidx as (m & -> & Hfm).
  set (df1 := assign df) in *.
  set (m1 := set_distance (Some (euclidean valence arousal m)) m).
  assert (Hnd1 : NoDup (index df1)).
  { unfold df1, assign. rewrite index_assign_distance. exact Hnd. }
  assert (Hfm1 : first_min lt (has_distance valence arousal) df1 m1).
  { apply first_min_assign_fwd; [reflexivity | reflexivity | exact Hfm]. }
  pose proof (first_min_elem _ _ _ _ Hfm1) as [Hm1 Hd1].
  change (name m) with (name m1). rewrite (loc_unique df1 m1 Hnd1 Hm1).
  destruct (exists_ (audio_path m1)) eqn:Eex.
  - simpl. apply (first_min_restrict lt (has_distance valence arousal)).
    + intros x [_ Hx]. exact Hx.
    + split; assumption.
    + exact Hfm1.
  - assert (Hmiss : forall x, x ∈ df1 -> name x = name m1 -> ~ P x).
    { intros x Hx Hname [HP _].
      rewrite (name_unique df1 x m1 Hnd1 Hx Hm1 Hname) in HP.
      unfold playable in HP. congruence. }
    pose proof (missing_drop_label exists_ df1 m1 Hm1 Eex) as Hless.
    unfold df1 at 2, assign in Hless.
    rewrite missing_assign_distance in Hless.
    destruct depth as [|depth]; [simpl; intros Hlen; lia|].
    specialize (IH depth ltac:(lia) (drop_label (name m1) df1)).
    assert (Hred : assign (drop_label (name m1) df1) = drop_label (name m1) df1)
      by apply assign_distance_drop.
    rewrite Hred in IH.
    assert (Hnd2 : NoDup (index (drop_label (name m1) df1))).
    { apply (sublist_NoDup _ (index df1));
        [exact Hnd1 | apply index_sublist, drop_label_sublist]. }
    specialize (IH Hnd2).
    destruct (fst (find depth (drop_label (name m1) df1))) as [r|].
    + apply (first_min_drop_label lt P (name m1)); assumption.
    + intros Hlen x Hx HP.
      destruct (decide (name x = name m1)) as [Hname|Hname].
      * exact (Hmiss x Hx Hname HP).
      * apply (IH ltac:(lia) x); [|exact HP].
        unfold drop_label. apply list_elem_of_filter. split; assumption.
Qed.

(** A search that returned a row, or that had enough room for its nested
    calls, has left a table on which a new search ends at once, with the
    same result. *)
Lemma find_matching_song_stable (depth depth' : nat) (df : DataFrame) :
  fst (find depth df) <> None \/ (length (missing exists_ df) <= depth)%nat ->
  find depth' (snd (find depth df)) = find depth df.
Proof.
  revert df. induction depth as [depth IH] using lt_wf_ind.
  intros df Hroom. rewrite (find_matching_song_eq depth df) in *.
  assert (Hsame : assign (assign df) = assign df)
    by apply assign_distance_again.
  destruct (idxmin (distance_column (assign df))) as [label|e] eqn:Eidx.
  2: { simpl. rewrite find_matching_song_eq, Hsame, Eidx. reflexivity. }
  destruct (loc (assign df) label) as [m|e] eqn:Eloc.
  2: { simpl. rewrite find_matching_song_eq, Hsame, Eidx, Eloc. reflexivity. }
  destruct (exists_ (audio_path m)) eqn:Eex.
  { simpl. rewrite find_matching_song_eq, Hsame, Eidx, Eloc, Eex. reflexivity. }
  apply loc_elem in Eloc as [Hm _].
  pose proof (missing_drop_label exists_ (assign df) m Hm Eex) as Hless.
  unfold assign in Hless at 2. rewrite missing_assign_distance in Hless.
  destruct depth as [|depth].
  - destruct Hroom as [Hsome|Hlen]; [contradiction Hsome; reflexivity | lia].
  - apply (IH depth ltac:(lia)).
    destruct Hroom as [Hsome|Hlen]; [left; exact Hsome | right; lia].
Qed.

(** A search that returns nothing has found no row with a distance in the
    table that it leaves, or has used up its room for nested calls: it has
    then removed one row more than it could make nested calls. *)
Lemma find_matching_song_none (depth : nat) (df : DataFrame) :
  NoDup (index df) -> fst (find depth df) = None ->
  (forall x, x ∈ snd (find depth df) -> ~ has_distance valence arousal x)
  \/ (length (snd (find depth df)) + S depth = length df)%nat.
Proof.
  revert df. induction depth as [|depth IH]; intros df Hnd;
    rewrite find_matching_song_eq;
    pose proof (idxmin_first_min valence arousal df) as Hidx;
    fold (assign df) in Hidx;
    (destruct (idxmin (distance_column (assign df))) as [label|e];
     [| intros _; left; simpl; intros x Hx Hd;
        apply elem_of_assign_distance in Hx as [_ (x0 & Hx0 & ->)];
        exact (Hidx x0 Hx0 Hd) ]);
    destruct Hidx as (m & -> & Hfm);
    (assert (Hnd1 : NoDup (index (assign df)));
     [unfold assign; rewrite index_assign_distance; exact Hnd|]);
    (assert (Hm1 : set_distance (Some (euclidean valence arousal m)) m
                   ∈ assign df);
     [apply assign_distance_elem, (first_min_elem _ _ _ _ Hfm)|]);
    change (name m)
      with (name (set_distance (Some (euclidean valence arousal m)) m));
    pose proof (loc_unique _ _ Hnd1 Hm1) as Eloc; rewrite Eloc;
    (destruct (exists_ (audio_path _)); [discriminate|]);
    destruct (loc_split _ _ _ Eloc) as (pre & post & Hsplit & Hdrop & _ & _);
    (assert (Hone : (length (drop_label (name m) (assign df)) + 1
                     = length df)%nat);
     [ change (name m)
         with (name (set_distance (Some (euclidean valence arousal m)) m));
       rewrite Hdrop, <- (length_assign_distance valence arousal df);
       fold (assign df); rewrite Hsplit, !length_app; simpl; lia |]).
  - intros _. right. simpl. cbn [name set_distance]. lia.
  - intros Hnone. cbn [name set_distance] in *.
    assert (Hnd2 : NoDup (index (drop_label (name m) (assign df)))).
    { apply (sublist_NoDup _ (index (assign df)));
        [exact Hnd1 | apply index_sublist, drop_label_sublist]. }
    destruct (IH _ Hnd2 Hnone) as [Hno|Hlen]; [left; exact Hno | right; lia].
Qed.

(** With room for its nested calls, a search that returns nothing leaves no
    row with a distance. *)
Lemma find_matching_song_none_room (depth : nat) (df : DataFrame) :
  NoDup (index df) -> (length (missing exists_ df) <= depth)%nat ->
  fst (find depth df) = None ->
  forall x, x ∈ snd (find depth df) -> ~ has_distance valence arousal x.
Proof.
  revert df. induction depth as [depth IH] using lt_wf_ind.
  intros df Hnd Hlen. rewrite find_matching_song_eq.
  pose proof (idxmin_first_min valence arousal df) as Hidx.
  fold (assign df) in Hidx.
  destruct (idxmin (distance_column (assign df))) as [label|e].
  2: { simpl. intros _ x Hx Hd.
       apply elem_of_assign_distance in Hx as [_ (x0 & Hx0 & ->)].
       exact (Hidx x0 Hx0 Hd). }
  destruct Hidx as (m & -> & Hfm).
  set (m1 := set_distance (Some (euclidean valence arousal m)) m).
  assert (Hnd1 : NoDup (index (assign df))).
  { unfold assign. rewrite index_assign_distance. exact Hnd. }
  assert (Hm1 : m1 ∈ assign df).
  { apply assign_distance_elem, (first_min_elem _ _ _ _ Hfm). }
  change (name m) with (name m1). rewrite (loc_unique _ m1 Hnd1 Hm1).
  destruct (exists_ (audio_path m1)) eqn:Eex; [discriminate|].
  pose proof (missing_drop_label exists_ (assign df) m1 Hm1 Eex) as Hless.
  unfold assign in Hless at 2. rewrite missing_assign_distance in Hless.
  destruct depth as [|depth]; [lia|].
  apply (IH depth ltac:(lia)); [|lia].
  apply (sublist_NoDup _ (index (assign df)));
    [exact Hnd1 | apply index_sublist, drop_label_sublist].
Qed.

End Search.

Lemma find_matching_song_sublist (depth : nat) (exists_ : string -> bool)
    (df : DataFrame) (valence arousal : Q) :
  let out := find_matching_song depth exists_ df valence arousal in
  sublist (snd out) (assign_distance valence arousal df)
  /\ (forall r, fst out = Some r -> r ∈ snd out /\ playable exists_ r).
Proof. exact (find_matching_song_part exists_ valence arousal depth df). Qed.

(** The column is written before it is read. *)
Lemma find_matching_song_reassign (depth : nat) (exists_ : string -> bool)
    (df : DataFrame) (valence arousal valence' arousal' : Q) :
  find_matching_song depth exists_ (assign_distance valence' arousal' df)
    valence arousal
  = find_matching_song depth exists_ df valence arousal.
Proof.
  rewrite (find_matching_song_eq exists_ valence arousal depth
             (assign_distance valence' arousal' df)),
    (find_matching_song_eq exists_ valence arousal depth df),
    assign_distance_again.
  reflexivity.
Qed.

(** The labels keep identifying the rows through a query. *)
Lemma find_matching_song_index (depth : nat) (exists_ : string -> bool)
    (df : DataFrame) (valence arousal : Q) :
  NoDup (index df) ->
  NoDup (index (snd (find_matching_song depth exists_ df valence arousal))).
Proof.
  intros Hnd.
  pose proof (find_matching_song_sublist depth exists_ df valence arousal)
    as [Hsub _].
  apply index_sublist in Hsub. rewrite index_assign_distance in Hsub.
  exact (sublist_NoDup _ _ Hnd Hsub).
Qed.

(** Whatever a session answers is a row of the table it started from, and
    the table only loses rows. *)
Lemma session_names (queries : list Query) (df : DataFrame) :
  (forall r, Some r ∈ fst (session df queries) -> name r ∈ index df)
  /\ sublist (index (snd (session df queries))) (index df).
Proof.
  revert df. induction queries as [|q queries IH]; intros df; simpl.
  - split; [intros r Hr; inversion Hr | reflexivity].
  - pose proof (find_matching_song_sublist (q_depth q) (q_exists q) df
                  (q_valence q) (q_arousal q)) as [Hsub Hans].
    cbv zeta in Hsub, Hans.
    destruct (find_matching_song (q_depth q) (q_exists q) df (q_valence q)
                (q_arousal q)) as [answer df'].
    simpl in Hsub, Hans.
    apply index_sublist in Hsub. rewrite index_assign_distance in Hsub.
    destruct (IH df') as [IHans IHsub].
    destruct (session df' queries) as [answers final]. simpl in *.
    split.
    + intros r Hr. apply elem_of_cons in Hr as [Hr|Hr].
      * symmetry in Hr. destruct (Hans r Hr) as [Hin _].
        eapply elem_of_sublist; [|exact Hsub].
        unfold index. apply list_elem_of_fmap_2, Hin.
      * eapply elem_of_sublist; [apply IHans, Hr | exact Hsub].
    + etransitivity; eassumption.
Qed.

(** The first of the nearest rows is as near as every row that counts. *)
Lemma first_min_as_near (valence arousal : Q) (P : Song -> Prop)
    (l : list Song) (r : Song) :
  (forall x, P x -> has_distance valence arousal x) ->
  first_min (nearer valence arousal) P l r ->
  forall x, x ∈ l -> P x -> as_near valence arousal r x.
Proof.
  intros HP Hfm x Hx HPx.
  apply first_min_split in Hfm as (pre & post & -> & HPr & Hpre & Hpost).
  apply elem_of_app in Hx as [Hx|Hx].
  - apply nearer_as_near, Hpre; assumption.
  - apply elem_of_cons in Hx as [->|Hx].
    + apply as_near_refl, HP, HPr.
    + apply not_nearer_as_near; [apply HP, HPx | apply HP, HPr |].
      apply Hpost; assumption.
Qed.

(** Rounding makes the search return a row that is not the nearest.  The
    songs at (2.3, 2.3) and at (2.9, 1.1) both have their audio file; for
    the query (0.8, 0.8) the program computes the distance
    2.1213203435596424 for the first and 2.121320343559642 for the second,
    and returns the second, while the first is the nearer of the two. *)
Lemma find_matching_song_rounding :
  let table := [rounding_song_1; rounding_song_2] in
  let answer :=
    fst (find_matching_song 900 (fun _ => true) table double_0_8 double_0_8) in
  (F2Q (Q2F 2.3) = Some double_2_3 /\ F2Q (Q2F 2.9) = Some double_2_9
   /\ F2Q (Q2F 1.1) = Some double_1_1 /\ F2Q (Q2F 0.8) = Some double_0_8)
  /\ (Q2F double_2_3 = Q2F 2.3 /\ Q2F double_2_9 = Q2F 2.9
      /\ Q2F double_1_1 = Q2F 1.1 /\ Q2F double_0_8 = Q2F 0.8)
  /\ NoDup (index table)
  /\ (forall x, x ∈ table -> playable (fun _ => true) x)
  /\ answer
     = Some (set_distance
               (Some (euclidean double_0_8 double_0_8 rounding_song_2))
               rounding_song_2)
  /\ nearer double_0_8 double_0_8 rounding_song_2 rounding_song_1
  /\ (euclidean_R double_0_8 double_0_8 rounding_song_1
      < euclidean_R double_0_8 double_0_8 rounding_song_2)%R.
Proof.
  split; [vm_compute; repeat split|].
  split; [vm_compute; repeat split|].
  split.
  { unfold index. simpl. apply NoDup_cons. split; [|apply NoDup_singleton].
    intros H. apply list_elem_of_singleton in H. discriminate H. }
  split; [intros x _; reflexivity|].
  split; [vm_compute; reflexivity|].
  split; [vm_compute; reflexivity|].
  apply sq_distance_lt_real. unfold Qlt. vm_compute. reflexivity.
Qed.

(** C1, as amended.  On a table whose index labels identify its rows, as
    the loader makes it, a row that [find_matching_song] returns is a row
    of the table (with its distance written in it) whose audio file is
    there and whose distance to the query, as the program computes it in
    binary64, is a number and is least among such rows, and it is the first
    of them in the order of the table: such rows before it have a greater
    computed distance, such rows after it have a computed distance at least
    as great.  When no row has both its audio file and a computed distance
    that is a number, [find_matching_song] returns nothing; and, when the
    interpreter leaves room for as many nested calls as there are rows
    without audio file, it returns nothing only then. *)
Theorem find_matching_song_nearest :
  forall (depth : nat) (exists_ : string -> bool) (df : DataFrame)
         (valence arousal : Q),
    NoDup (index df) ->
    let answer := fst (find_matching_song depth exists_ df valence arousal) in
    ((forall x, x ∈ df -> ~ candidate exists_ valence arousal x) ->
     answer = None)
    /\ ((length (missing exists_ df) <= depth)%nat ->
        (answer = None
         <-> forall x, x ∈ df -> ~ candidate exists_ valence arousal x))
    /\ (forall closest,
          answer = Some closest ->
          exists pre row post,
            df = pre ++ row :: post
            /\ closest = set_distance (Some (euclidean valence arousal row)) row
            /\ distance closest = Some (euclidean valence arousal row)
            /\ candidate exists_ valence arousal row
            /\ (forall x, x ∈ df -> candidate exists_ valence arousal x ->
                  as_near valence arousal row x)
            /\ (forall x, x ∈ pre -> candidate exists_ valence arousal x ->
                  nearer valence arousal row x)
            /\ (forall x, x ∈ post -> candidate exists_ valence arousal x ->
                  as_near valence arousal row x)).
Proof.
  intros depth exists_ df valence arousal Hnd answer. subst answer.
  pose proof (find_matching_song_first_min exists_ valence arousal depth df
                Hnd) as Hans.
  destruct (fst (find_matching_song depth exists_ df valence arousal))
    as [closest|].
  - apply (first_min_assign _ valence arousal) in Hans as (row & -> & Hfm);
      [|reflexivity|reflexivity].
    assert (Hno : (forall x, x ∈ df -> ~ candidate exists_ valence arousal x)
                  -> False).
    { intros Hnone. apply first_min_elem in Hfm as [Hin HP].
      exact (Hnone row Hin HP). }
    split; [intros Hnone; contradiction|].
    split; [intros _; split; [discriminate | intros Hnone; contradiction]|].
    intros closest [= <-].
    assert (Hsub : forall x, candidate exists_ valence arousal x ->
                             has_distance valence arousal x)
      by (intros x [_ Hx]; exact Hx).
    pose proof (first_min_as_near valence arousal _ df row Hsub Hfm) as Hall.
    apply first_min_split in Hfm as (pre & post & -> & HP & Hpre & Hpost).
    exists pre, row, post.
    split; [reflexivity|]. split; [reflexivity|]. split; [reflexivity|].
    split; [exact HP|]. split; [exact Hall|]. split; [exact Hpre|].
    intros x Hx HPx. apply Hall; [|exact HPx].
    apply elem_of_app. right. apply list_elem_of_further, Hx.
  - split; [reflexivity|]. split; [|intros closest H; discriminate H].
    intros Hlen. split; [|reflexivity]. intros _ x Hx HP.
    exact (Hans Hlen _ (assign_distance_elem valence arousal df x Hx) HP).
Qed.

Lemma example_table_index : NoDup (index example_table).
Proof.
  unfold index, example_table; simpl.
  apply NoDup_cons. split.
  - intros H. apply list_elem_of_singleton in H. discriminate H.
  - apply NoDup_singleton.
Defined.

Lemma find_matching_song_nearest_witness :
  let closest :=
    set_distance (Some (euclidean (-0.8) (-0.4) example_song_1)) example_song_1 in
  NoDup (index example_table)
  /\ fst (find_matching_song 900 example_exists example_table (-0.8) (-0.4))
     = Some closest
  /\ (exists pre row post,
        example_table = pre ++ row :: post
        /\ closest = set_distance (Some (euclidean (-0.8) (-0.4) row)) row
        /\ candidate example_exists (-0.8) (-0.4) row
        /\ (forall x, x ∈ example_table ->
              candidate example_exists (-0.8) (-0.4) x ->
              as_near (-0.8) (-0.4) row x))
  /\ (length (missing (fun _ => false) example_table) <= 900)%nat
  /\ fst (find_matching_song 900 (fun _ => false) example_table (-0.8) (-0.4))
     = None.
Proof.
  intros closest.
  assert (Hlen : (length (missing (fun _ => false) example_table) <= 900)%nat)
    by (apply Nat.leb_le; vm_compute; reflexivity).
  assert (H : fst (find_matching_song 900 example_exists example_table
                     (-0.8) (-0.4)) = Some closest)
    by (vm_compute; reflexivity).
  assert (Hnone : forall x, x ∈ example_table ->
                            ~ candidate (fun _ => false) (-0.8) (-0.4) x).
  { intros x _ [Hp _]. discriminate Hp. }
  split; [exact example_table_index|]. split; [exact H|]. split.
  - destruct (proj2 (proj2 (find_matching_song_nearest 900 example_exists
                              example_table (-0.8) (-0.4) example_table_index))
                closest H)
      as (pre & row & post & Hsplit & Hrow & _ & Hcand & Hmin & _).
    exists pre, row, post. repeat split; try assumption; apply Hcand.
  - split; [exact Hlen|].
    exact (proj2 (proj1 (proj2 (find_matching_song_nearest 900 (fun _ => false)
                                  example_table (-0.8) (-0.4)
                                  example_table_index)) Hlen) Hnone).
Defined.

(** After a row without audio file has been dropped, the row returned is
    not always the nearest of those with a file.  The song at (0.8, 0.8)
    has no audio file; the query (0.8, 0.8) selects it, drops it and goes
    on to return the song at (2.9, 1.1), while the song at (2.3, 2.3),
    which has its file too, is nearer. *)
Lemma missing_row_rounding :
  let df := [rounding_song_3; rounding_song_1; rounding_song_2] in
  let table := assign_distance double_0_8 double_0_8 df in
  let out := find_matching_song 900 example_exists df double_0_8 double_0_8 in
  idxmin (distance_column table) = Ok 2%Z
  /\ loc table 2%Z
     = Ok (set_distance
             (Some (euclidean double_0_8 double_0_8 rounding_song_3))
             rounding_song_3)
  /\ example_exists (audio_path rounding_song_3) = false
  /\ fst out
     = Some (set_distance
               (Some (euclidean double_0_8 double_0_8 rounding_song_2))
               rounding_song_2)
  /\ (song_id <$> snd out) = [11%Z; 12%Z]
  /\ playable example_exists rounding_song_1
  /\ playable example_exists rounding_song_2
  /\ (euclidean_R double_0_8 double_0_8 rounding_song_1
      < euclidean_R double_0_8 double_0_8 rounding_song_2)%R.
Proof.
  split; [vm_compute; reflexivity|].
  split; [vm_compute; reflexivity|].
  split; [reflexivity|].
  split; [vm_compute; reflexivity|].
  split; [vm_compute; reflexivity|].
  split; [reflexivity|]. split; [reflexivity|].
  apply sq_distance_lt_real. unfold Qlt. vm_compute. reflexivity.
Qed.

(** C7, as amended.  When the row that [find_matching_song] selects as
    nearest (the first of least computed distance in the table) has no
    audio file, that row and no other is taken out of the table, for good:
    it is not in the table that the call leaves, it is not the answer of the
    call, and it is not the answer of any later query of the session,
    whatever the file system has become; the rows with an audio file all
    stay.  When the interpreter allows one more nested call, the search goes
    on with the reduced table: the call returns what a call on the reduced
    table returns, which, on a table whose labels identify its rows and with
    room for as many nested calls as rows without file are left, is the
    first row of the reduced table of least computed distance among those
    with an audio file, and nothing only if there is no such row. *)
Theorem missing_row_eliminated :
  forall (depth : nat) (exists_ : string -> bool) (df : DataFrame)
         (valence arousal : Q) (label : Z) (closest : Song),
    idxmin (distance_column (assign_distance valence arousal df)) = Ok label ->
    loc (assign_distance valence arousal df) label = Ok closest ->
    exists_ (audio_path closest) = false ->
    let table := assign_distance valence arousal df in
    let reduced := drop_label label table in
    let out := find_matching_song depth exists_ df valence arousal in
    (closest ∈ table /\ name closest = label
     /\ has_distance valence arousal closest
     /\ forall x, x ∈ table -> has_distance valence arousal x ->
                  as_near valence arousal closest x)
    /\ (exists pre post,
          table = pre ++ closest :: post /\ reduced = pre ++ post
          /\ (label ∉ index pre) /\ (label ∉ index post))
    /\ (length reduced + 1 = length df)%nat
    /\ (label ∉ index reduced)
    /\ sublist (snd out) reduced
    /\ (label ∉ index (snd out))
    /\ (forall r, fst out = Some r -> name r <> label)
    /\ (forall (queries : list Query) (r : Song),
          Some r ∈ fst (session (snd out) queries) -> name r <> label)
    /\ (forall x, x ∈ reduced -> playable exists_ x -> x ∈ snd out)
    /\ (forall depth',
          depth = S depth' ->
          out = find_matching_song depth' exists_ reduced valence arousal
          /\ (NoDup (index df) ->
              (forall r,
                 fst out = Some r ->
                 exists pre post,
                   reduced = pre ++ r :: post
                   /\ candidate exists_ valence arousal r
                   /\ (forall x, x ∈ pre ->
                         candidate exists_ valence arousal x ->
                         nearer valence arousal r x)
                   /\ (forall x, x ∈ post ->
                         candidate exists_ valence arousal x ->
                         as_near valence arousal r x))
              /\ ((forall x, x ∈ reduced ->
                              ~ candidate exists_ valence arousal x) ->
                  fst out = None)
              /\ ((length (missing exists_ reduced) <= depth')%nat ->
                  fst out = None ->
                  forall x, x ∈ reduced ->
                            ~ candidate exists_ valence arousal x))).
Proof.
  intros depth exists_ df valence arousal label closest Hidx Hloc Hex
    table reduced out.
  pose proof (loc_elem _ _ _ Hloc) as [Hin Hname].
  destruct (loc_split _ _ _ Hloc) as (pre & post & Hsplit & Hdrop & Hpre & Hpost).
  change (assign_distance valence arousal df) with table
    in Hidx, Hloc, Hin, Hsplit, Hdrop.
  change (drop_label label table) with reduced in Hdrop.
  assert (Hred : assign_distance valence arousal reduced = reduced)
    by apply assign_distance_drop.
  assert (Hgone : label ∉ index reduced) by apply drop_label_not_in.
  assert (Hout : out = match depth with
                       | O => (None, reduced)
                       | S d => find_matching_song d exists_ reduced
                                  valence arousal
                       end).
  { unfold out. rewrite find_matching_song_eq.
    change (assign_distance valence arousal df) with table.
    rewrite Hidx, Hloc, Hex, Hname. reflexivity. }
  assert (Hsub : sublist (snd out) reduced).
  { rewrite Hout. destruct depth as [|d]; [reflexivity|].
    pose proof (find_matching_song_sublist d exists_ reduced valence arousal)
      as [H _]. cbv zeta in H. rewrite Hred in H. exact H. }
  assert (Hans : forall r, fst out = Some r -> r ∈ snd out).
  { intros r Hr.
    exact (proj1 (proj2 (find_matching_song_sublist depth exists_ df
                           valence arousal) r Hr)). }
  assert (Hleft : label ∉ index (snd out)).
  { intros H. apply Hgone.
    eapply elem_of_sublist; [exact H | apply index_sublist, Hsub]. }
  split.
  { pose proof (idxmin_first_min valence arousal df) as Hmin.
    change (assign_distance valence arousal df) with table in Hmin.
    rewrite Hidx in Hmin. destruct Hmin as (m & Hm & Hfm).
    assert (Hm1 : set_distance (Some (euclidean valence arousal m)) m ∈ table)
      by (apply assign_distance_elem, (first_min_elem _ _ _ _ Hfm)).
    assert (Heq : set_distance (Some (euclidean valence arousal m)) m = closest).
    { rewrite Hsplit in Hm1. apply elem_of_app in Hm1 as [Hm1|Hm1].
      - exfalso. apply Hpre. rewrite Hm. unfold index.
        apply (list_elem_of_fmap_2 name) in Hm1. exact Hm1.
      - apply elem_of_cons in Hm1 as [Hm1|Hm1]; [exact Hm1|].
        exfalso. apply Hpost. rewrite Hm. unfold index.
        apply (list_elem_of_fmap_2 name) in Hm1. exact Hm1. }
    split; [exact Hin|]. split; [exact Hname|]. rewrite <- Heq.
    split; [exact (proj2 (first_min_elem _ _ _ _ Hfm))|].
    intros x Hx Hd.
    apply elem_of_assign_distance in Hx as [_ (x0 & Hx0 & ->)].
    exact (first_min_as_near valence arousal _ df m (fun x H => H) Hfm x0 Hx0 Hd). }
  split; [exists pre, post; repeat split; assumption|].
  split.
  { rewrite Hdrop, <- (length_assign_distance valence arousal df).
    change (assign_distance valence arousal df) with table.
    rewrite Hsplit, !length_app. simpl. lia. }
  split; [exact Hgone|]. split; [exact Hsub|]. split; [exact Hleft|].
  split.
  { intros r Hr Hlabel. apply Hleft. rewrite <- Hlabel.
    unfold index. apply list_elem_of_fmap_2, Hans, Hr. }
  split.
  { intros queries r Hr Hlabel. apply Hleft. rewrite <- Hlabel.
    apply (proj1 (session_names queries (snd out)) r Hr). }
  split.
  { intros x Hx HP. rewrite Hout. destruct depth as [|d]; [exact Hx|].
    apply find_matching_song_keeps; [rewrite Hred; exact Hx | exact HP]. }
  intros depth' ->. split; [exact Hout|].
  intros Hnd.
  assert (Hnd2 : NoDup (index reduced)).
  { apply (sublist_NoDup _ (index table)).
    - unfold table. rewrite index_assign_distance. exact Hnd.
    - apply index_sublist, drop_label_sublist. }
  pose proof (find_matching_song_first_min exists_ valence arousal depth'
                reduced Hnd2) as Hfirst.
  rewrite Hred, <- Hout in Hfirst.
  destruct (fst out) as [r|].
  - assert (Hno : (forall x, x ∈ reduced ->
                             ~ candidate exists_ valence arousal x) -> False).
    { intros Hnone. apply first_min_elem in Hfirst as [Hr HP].
      exact (Hnone r Hr HP). }
    split; [|split; [intros Hnone; contradiction | intros _ H; discriminate H]].
    intros r' [= <-].
    assert (Hsubset : forall x, candidate exists_ valence arousal x ->
                                has_distance valence arousal x)
      by (intros x [_ Hx]; exact Hx).
    pose proof (first_min_as_near valence arousal _ reduced r Hsubset Hfirst)
      as Hall.
    apply first_min_split in Hfirst as (pre' & post' & E & HP & Hb & Ha).
    exists pre', post'. split; [exact E|]. split; [exact HP|].
    split; [exact Hb|]. intros x Hx HPx. apply Hall; [|exact HPx].
    rewrite E. apply elem_of_app. right. apply list_elem_of_further, Hx.
  - split; [intros r H; discriminate H|].
    split; [reflexivity|]. intros Hlen _. exact (Hfirst Hlen).
Qed.

Lemma missing_row_eliminated_witness :
  let df1 := assign_distance (-0.8) (-0.4) example_table in
  let closest :=
    set_distance (Some (euclidean (-0.8) (-0.4) example_song_2))
      example_song_2 in
  let out := find_matching_song 900 example_exists example_table
               (-0.8) (-0.4) in
  idxmin (distance_column df1) = Ok 1%Z
  /\ loc df1 1%Z = Ok closest
  /\ example_exists (audio_path closest) = false
  /\ (exists pre post,
        df1 = pre ++ closest :: post /\ drop_label 1%Z df1 = pre ++ post)
  /\ out = find_matching_song 899 example_exists (drop_label 1%Z df1)
             (-0.8) (-0.4)
  /\ (song_id <$> fst out) = Some 1%Z
  /\ (forall r, fst out = Some r -> name r <> 1%Z)
  /\ (forall r,
        fst out = Some r ->
        exists pre post,
          drop_label 1%Z df1 = pre ++ r :: post
          /\ candidate example_exists (-0.8) (-0.4) r).
Proof.
  intros df1 closest out.
  assert (H1 : idxmin (distance_column
                         (assign_distance (-0.8) (-0.4) example_table)) = Ok 1%Z)
    by (vm_compute; reflexivity).
  assert (H2 : loc (assign_distance (-0.8) (-0.4) example_table) 1%Z
               = Ok closest)
    by (vm_compute; reflexivity).
  assert (H3 : example_exists (audio_path closest) = false) by reflexivity.
  destruct (missing_row_eliminated 900 example_exists example_table
              (-0.8) (-0.4) 1%Z closest H1 H2 H3)
    as (_ & (pre & post & Hsplit & Hdrop & _) & _ & _ & _ & _ & Hne & _ & _
        & Hretry).
  destruct (Hretry 899%nat eq_refl) as [Hout Hnext].
  destruct (Hnext example_table_index) as [Hsome _].
  split; [exact H1|]. split; [exact H2|]. split; [exact H3|].
  split; [exists pre, post; split; assumption|].
  split; [exact Hout|]. split; [vm_compute; reflexivity|]. split; [exact Hne|].
  intros r Hr. destruct (Hsome r Hr) as (pre' & post' & E & HP & _).
  exists pre', post'. split; assumption.
Defined.

(** The example of the specification: a query near song 1 returns song 1;
    a query at the coordinates of song 2, whose file is missing, removes
    song 2 from the table and returns song 1; so does every query after. *)
Example spec_example :
  (song_id <$> fst (find_matching_song 900 example_exists example_table
                      0.75 0.75))
  = Some 1%Z
  /\ (let out := find_matching_song 900 example_exists example_table
                   (-0.8) (-0.4) in
      (song_id <$> fst out) = Some 1%Z
      /\ (song_id <$> snd out) = [1%Z]
      /\ (song_id <$> fst (find_matching_song 900 (fun _ => true) (snd out)
                             (-0.8) (-0.4))) = Some 1%Z).
Proof. vm_compute. repeat split. Qed.

(** ** The dataset loader *)

Lemma insert_group_keys (row : LabelRow) (groups : list (Z * list LabelRow)) (k : Z) :
  k ∈ fst <$> insert_group row groups
  <-> k = l_song_id row \/ k ∈ fst <$> groups.
Proof.
  induction groups as [|[k0 g] groups IH]; simpl.
  - rewrite list_elem_of_singleton, elem_of_nil. tauto.
  - destruct (Z.ltb_spec (l_song_id row) k0) as [Hlt|Hge].
    + rewrite ?fmap_cons, ?elem_of_cons. simpl. tauto.
    + destruct (Z.eqb_spec (l_song_id row) k0) as [Heq|Hne].
      * rewrite ?fmap_cons, ?elem_of_cons. simpl. subst k0. tauto.
      * rewrite ?fmap_cons, ?elem_of_cons, IH. simpl. tauto.
Qed.

Lemma groupby_song_id_keys (rows : list LabelRow) (k : Z) :
  k ∈ fst <$> groupby_song_id rows <-> k ∈ l_song_id <$> rows.
Proof.
  unfold groupby_song_id.
  assert (H : forall acc,
             k ∈ fst <$> fold_left (fun groups row => insert_group row groups) rows acc
             <-> k ∈ l_song_id <$> rows \/ k ∈ fst <$> acc).
  { induction rows as [|row rows IH]; intros acc; simpl.
    - rewrite elem_of_nil. tauto.
    - rewrite IH, insert_group_keys, elem_of_cons. tauto. }
  rewrite H. simpl. rewrite elem_of_nil. tauto.
Qed.

Lemma agg_mean_keys (groups : list (Z * list LabelRow)) :
  l_song_id <$> agg_mean groups = fst <$> groups.
Proof.
  unfold agg_mean. rewrite <- list_fmap_compose.
  apply list_fmap_ext. intros _ [k g] _. reflexivity.
Qed.

Lemma labels_df_keys (labels_1 labels_2 : list LabelRow) (k : Z) :
  k ∈ l_song_id <$> labels_df labels_1 labels_2
  <-> k ∈ l_song_id <$> labels_1 \/ k ∈ l_song_id <$> labels_2.
Proof.
  unfold labels_df. rewrite agg_mean_keys, groupby_song_id_keys.
  rewrite fmap_app, elem_of_app. tauto.
Qed.

(** The ids of the merged table are the ids common to both sides. *)
Lemma merge_song_ids (features_df : list FeatureRow) (labels : list LabelRow) (s : Z) :
  s ∈ song_id <$> merge features_df labels
  <-> s ∈ f_song_id <$> features_df /\ s ∈ l_song_id <$> labels.
Proof.
  unfold merge. rewrite !list_elem_of_fmap. split.
  - intros (row & -> & Hrow).
    apply elem_of_lookup_imap in Hrow as (i & g & -> & Hg).
    apply list_elem_of_lookup_2, list_elem_of_In, in_flat_map in Hg
      as (f & Hf & Hg).
    apply list_elem_of_In, list_elem_of_fmap in Hg as (l & -> & Hl).
    apply list_elem_of_filter in Hl as [Hid Hl]. apply list_elem_of_In in Hf.
    simpl. split.
    + exists f. split; [reflexivity | exact Hf].
    + exists l. split; [symmetry; exact Hid | exact Hl].
  - intros [(f & -> & Hf) (l & Hid & Hl)].
    assert (Hg : merged_row f l
                 ∈ flat_map (fun f => merged_row f <$>
                               filter (fun l => l_song_id l = f_song_id f) labels)
                     features_df).
    { apply list_elem_of_In, in_flat_map. exists f. split.
      - apply list_elem_of_In, Hf.
      - apply list_elem_of_In, list_elem_of_fmap_2, list_elem_of_filter.
        split; [symmetry; exact Hid | exact Hl]. }
    apply list_elem_of_lookup in Hg as [i Hi].
    exists (merged_row f l (Z.of_nat i)). split; [reflexivity|].
    apply (elem_of_lookup_imap_2 (fun i row => row (Z.of_nat i)) _ _ i Hi).
Qed.

Lemma fillna_song_ids (df : DataFrame) : song_id <$> fillna df = song_id <$> df.
Proof.
  unfold fillna. rewrite <- list_fmap_compose.
  apply list_fmap_ext. intros _ row _. reflexivity.
Qed.

Lemma fillna_index (df : DataFrame) : index (fillna df) = index df.
Proof.
  unfold index, fillna. rewrite <- list_fmap_compose.
  apply list_fmap_ext. intros _ row _. reflexivity.
Qed.

(** The fresh index of a merged table: 0, 1, 2, ... *)
Lemma merge_index (features_df : list FeatureRow) (labels : list LabelRow) :
  index (merge features_df labels)
  = Z.of_nat <$> seq 0 (length (merge features_df labels)).
Proof.
  unfold index, merge. rewrite length_imap, fmap_imap.
  set (rows := flat_map _ features_df).
  rewrite <- (imap_seq_0 rows Z.of_nat).
  apply imap_ext. intros i g Hg. simpl.
  apply list_elem_of_lookup_2, list_elem_of_In, in_flat_map in Hg
    as (f & _ & Hg).
  apply list_elem_of_In, list_elem_of_fmap in Hg as (l & -> & _).
  reflexivity.
Qed.

(** A load that succeeds on two annotation files that could be read. *)
Lemma load_dataset_Ok
    (read_features : Z -> option (result (list (option Q))))
    (audio_file : Z -> string) (labels_1 labels_2 : list LabelRow)
    (df : DataFrame) :
  load_dataset read_features audio_file (Ok labels_1) (Ok labels_2) = Ok df ->
  match features_list read_features audio_file with
  | [] => Raise ValueError
  | features_df => Ok (fillna (merge features_df (labels_df labels_1 labels_2)))
  end = Ok df.
Proof.
  unfold load_dataset, load_dataset_body.
  destruct (features_list read_features audio_file); [discriminate|].
  intros H. exact H.
Qed.

(** The table the loader produces has labels that identify its rows. *)
Lemma load_dataset_index
    (read_features : Z -> option (result (list (option Q))))
    (audio_file : Z -> string) (labels_1 labels_2 : list LabelRow)
    (df : DataFrame) :
  load_dataset read_features audio_file (Ok labels_1) (Ok labels_2) = Ok df ->
  NoDup (index df).
Proof.
  intros Hload. apply load_dataset_Ok in Hload. revert Hload.
  destruct (features_list read_features audio_file) as [|f fs]; [discriminate|].
  intros [= <-]. rewrite fillna_index, merge_index.
  apply NoDup_fmap_2; [apply _ | apply NoDup_seq].
Qed.

(** C9.  The loader joins features and labels on [song_id] as an inner
    join: a song is in the final table exactly when it has a feature row
    and appears in one of the two annotation tables.  So a song with
    features but in neither annotation table is not in the final table. *)
Theorem load_dataset_inner_join :
  forall (read_features : Z -> option (result (list (option Q))))
         (audio_file : Z -> string) (labels_1 labels_2 : list LabelRow)
         (df : DataFrame),
    load_dataset read_features audio_file (Ok labels_1) (Ok labels_2) = Ok df ->
    (forall s : Z,
        s ∈ f_song_id <$> features_list read_features audio_file ->
        s ∉ l_song_id <$> labels_1 ->
        s ∉ l_song_id <$> labels_2 ->
        forall row, row ∈ df -> song_id row <> s)
    /\ (forall s : Z,
          s ∈ song_id <$> df
          <-> s ∈ f_song_id <$> features_list read_features audio_file
              /\ (s ∈ l_song_id <$> labels_1 \/ s ∈ l_song_id <$> labels_2)).
Proof.
  intros read_features audio_file labels_1 labels_2 df Hload.
  assert (Hiff : forall s : Z,
            s ∈ song_id <$> df
            <-> s ∈ f_song_id <$> features_list read_features audio_file
                /\ (s ∈ l_song_id <$> labels_1 \/ s ∈ l_song_id <$> labels_2)).
  { intros s. apply load_dataset_Ok in Hload.
    destruct (features_list read_features audio_file) as [|f fs] eqn:E;
      [discriminate|].
    injection Hload as <-.
    rewrite fillna_song_ids, merge_song_ids, labels_df_keys. reflexivity. }
  split; [|exact Hiff].
  intros s _ H1 H2 row Hrow Hid.
  assert (Hs : s ∈ song_id <$> df).
  { rewrite <- Hid. apply list_elem_of_fmap_2, Hrow. }
  apply Hiff in Hs as [_ [Hs|Hs]]; contradiction.
Qed.

Lemma load_dataset_inner_join_witness :
  load_dataset example_read_features example_audio_file (Ok example_labels)
      (Ok [])
  = Ok example_loaded
  /\ (2%Z ∈ f_song_id <$> features_list example_read_features example_audio_file)
  /\ (2%Z ∉ l_song_id <$> example_labels)
  /\ (forall row, row ∈ example_loaded -> song_id row <> 2%Z).
Proof.
  assert (H0 : load_dataset example_read_features example_audio_file
                 (Ok example_labels) (Ok []) = Ok example_loaded)
    by (vm_compute; reflexivity).
  assert (H1 : 2%Z ∈ f_song_id <$> features_list example_read_features
                                   example_audio_file)
    by (vm_compute; apply list_elem_of_here).
  assert (H2 : 2%Z ∉ l_song_id <$> example_labels).
  { intros H. apply list_elem_of_singleton in H. discriminate H. }
  assert (H3 : 2%Z ∉ l_song_id <$> @nil LabelRow).
  { intros H. inversion H. }
  split; [exact H0|]. split; [exact H1|]. split; [exact H2|].
  exact (proj1 (load_dataset_inner_join example_read_features
                  example_audio_file example_labels [] example_loaded H0)
           2%Z H1 H2 H3).
Defined.

(** * Further properties *)

(** ** The song matcher, continued *)

(** X4.  A query does not read the distances that an earlier query wrote.  *)
Theorem find_matching_song_ignores_old_distances :
  forall (depth : nat) (exists_ : string -> bool) (df : DataFrame)
         (valence arousal valence' arousal' : Q),
    find_matching_song depth exists_ (assign_distance valence' arousal' df)
      valence arousal
    = find_matching_song depth exists_ df valence arousal.
Proof.
  intros depth exists_ df valence arousal valence' arousal'.
  apply find_matching_song_reassign.
Qed.

(** X1.  Asking again, with the files as they were, gives the same answer and
    leaves the table as the first call left it, when the first call
    returned a row or had room for as many nested calls as there were rows
    without audio file; the second call needs no nested call. *)
Theorem find_matching_song_again :
  forall (depth depth' : nat) (exists_ : string -> bool) (df : DataFrame)
         (valence arousal : Q),
    let out := find_matching_song depth exists_ df valence arousal in
    fst out <> None \/ (length (missing exists_ df) <= depth)%nat ->
    find_matching_song depth' exists_ (snd out) valence arousal = out.
Proof.
  intros depth depth' exists_ df valence arousal out Hroom.
  exact (find_matching_song_stable exists_ valence arousal depth depth' df Hroom).
Qed.

Lemma find_matching_song_again_witness :
  let out := find_matching_song 900 example_exists example_table
               (-0.8) (-0.4) in
  (song_id <$> fst out) = Some 1%Z
  /\ (length (missing example_exists example_table) <= 900)%nat
  /\ find_matching_song 0 example_exists (snd out) (-0.8) (-0.4) = out.
Proof.
  intros out.
  assert (H : (length (missing example_exists example_table) <= 900)%nat)
    by (apply Nat.leb_le; vm_compute; reflexivity).
  split; [vm_compute; reflexivity|]. split; [exact H|].
  exact (find_matching_song_again 900 0 example_exists example_table
           (-0.8) (-0.4) (or_intror H)).
Defined.

(** X2.  A query removes no row whose audio file is there, keeps the order of
    the rows, and removes nothing at all when every file is there. *)
Theorem find_matching_song_keeps_playable :
  forall (depth : nat) (exists_ : string -> bool) (df : DataFrame)
         (valence arousal : Q),
    let out := find_matching_song depth exists_ df valence arousal in
    sublist (snd out) (assign_distance valence arousal df)
    /\ (length (snd out) <= length df)%nat
    /\ (forall x, x ∈ assign_distance valence arousal df ->
                  playable exists_ x -> x ∈ snd out)
    /\ ((forall x, x ∈ df -> playable exists_ x) ->
        snd out = assign_distance valence arousal df).
Proof.
  intros depth exists_ df valence arousal out.
  pose proof (find_matching_song_sublist depth exists_ df valence arousal)
    as [Hsub _].
  fold out in Hsub.
  split; [exact Hsub|]. split.
  { apply sublist_length in Hsub. rewrite length_assign_distance in Hsub.
    exact Hsub. }
  split.
  { intros x Hx HP.
    exact (find_matching_song_keeps exists_ valence arousal depth df x Hx HP). }
  intros Hall. unfold out. rewrite find_matching_song_eq.
  destruct (idxmin (distance_column (assign_distance valence arousal df)))
    as [label|e]; [|reflexivity].
  destruct (loc (assign_distance valence arousal df) label) as [m|e] eqn:Eloc;
    [|reflexivity].
  apply loc_elem in Eloc as [Hm _].
  apply elem_of_assign_distance in Hm as [_ (row & Hrow & ->)].
  pose proof (Hall row Hrow) as HP. unfold playable in HP.
  cbn [audio_path set_distance]. rewrite HP. reflexivity.
Qed.

Lemma find_matching_song_keeps_playable_witness :
  (forall x, x ∈ example_table -> playable (fun _ => true) x)
  /\ snd (find_matching_song 900 (fun _ => true) example_table 0.75 0.75)
     = assign_distance 0.75 0.75 example_table.
Proof.
  assert (H : forall x, x ∈ example_table -> playable (fun _ => true) x)
    by (intros x _; reflexivity).
  split; [exact H|].
  exact (proj2 (proj2 (proj2 (find_matching_song_keeps_playable 900
                                (fun _ => true) example_table 0.75 0.75))) H).
Defined.



Lemma find_matching_song_nil (depth : nat) (exists_ : string -> bool)
    (valence arousal : Q) :
  find_matching_song depth exists_ [] valence arousal = (None, []).
Proof. rewrite find_matching_song_eq. reflexivity. Qed.

Lemma session_empty (queries : list Query) :
  session [] queries = (const None <$> queries, []).
Proof.
  induction queries as [|q queries IH]; [reflexivity|].
  cbn [session]. rewrite find_matching_song_nil, IH. reflexivity.
Qed.

(** X5.  A search that returns nothing has emptied the table only if it was
    not cut short.  On a table whose labels identify its rows, when the
    answer is none, either no row left in the table has a distance that is
    a number, or the search has used up its room for nested calls and has
    removed exactly one row more than it could make such calls.  With room
    for as many nested calls as there are rows without audio file, and a
    distance for every row, the answer is none exactly when no row is left.
    On an empty table every query of the session returns none, whatever the
    file system has become. *)
Theorem failed_search_empties_table :
  forall (depth : nat) (exists_ : string -> bool) (df : DataFrame)
         (valence arousal : Q),
    NoDup (index df) ->
    let out := find_matching_song depth exists_ df valence arousal in
    (fst out = None ->
     (forall x, x ∈ snd out -> ~ has_distance valence arousal x)
     \/ (length (snd out) + S depth = length df)%nat)
    /\ ((length (missing exists_ df) <= depth)%nat ->
        (forall x, x ∈ df -> has_distance valence arousal x) ->
        (fst out = None <-> snd out = []))
    /\ (snd out = [] ->
        forall (queries : list Query) (answer : option Song),
          answer ∈ fst (session (snd out) queries) -> answer = None).
Proof.
  intros depth exists_ df valence arousal Hnd out.
  pose proof (find_matching_song_sublist depth exists_ df valence arousal)
    as [Hsub Hans]. fold out in Hsub, Hans.
  split; [|split].
  - exact (find_matching_song_none exists_ valence arousal depth df Hnd).
  - intros Hlen Hall. split.
    + intros Hnone. apply elem_of_nil_inv. intros x Hx.
      apply (find_matching_song_none_room exists_ valence arousal depth df
               Hnd Hlen Hnone x Hx).
      pose proof (elem_of_sublist _ _ _ Hx Hsub) as Hx'.
      apply elem_of_assign_distance in Hx' as [_ (x0 & Hx0 & ->)].
      exact (Hall x0 Hx0).
    + intros E. destruct (fst out) as [r|] eqn:Er; [|reflexivity].
      destruct (Hans r eq_refl) as [Hr _]. rewrite E in Hr. inversion Hr.
  - intros E queries answer Hin. rewrite E, session_empty in Hin.
    simpl in Hin. apply list_elem_of_fmap in Hin as (q & -> & _). reflexivity.
Qed.

Lemma silent_table_from_index (k n : nat) :
  NoDup (index (silent_table_from k n)).
Proof.
  unfold index, silent_table_from. rewrite fmap_app, <- list_fmap_compose.
  apply NoDup_app. split; [|split].
  - apply NoDup_fmap_2; [|apply NoDup_seq].
    intros i j H. simpl in H. lia.
  - intros x Hx Hx'. apply list_elem_of_fmap in Hx as (i & -> & _).
    apply list_elem_of_singleton in Hx'. simpl in Hx'. lia.
  - apply NoDup_singleton.
Defined.

Lemma silent_table_index (n : nat) : NoDup (index (silent_table n)).
Proof. exact (silent_table_from_index 0 n). Defined.

Lemma failed_search_empties_table_witness :
  (NoDup (index example_table)
   /\ (length (missing (fun _ => false) example_table) <= 900)%nat
   /\ (forall x, x ∈ example_table -> has_distance 0.75 0.75 x)
   /\ fst (find_matching_song 900 (fun _ => false) example_table 0.75 0.75)
      = None
   /\ snd (find_matching_song 900 (fun _ => false) example_table 0.75 0.75)
      = [])
  /\ (let out := find_matching_song 1 example_exists (silent_table 3)
                   (-0.8) (-0.4) in
      NoDup (index (silent_table 3))
      /\ fst out = None
      /\ (song_id <$> snd out) = [4%Z; 1%Z]
      /\ ((forall x, x ∈ snd out -> ~ has_distance (-0.8) (-0.4) x)
          \/ (length (snd out) + 2 = length (silent_table 3))%nat)).
Proof.
  split.
  - assert (Hlen : (length (missing (fun _ => false) example_table) <= 900)%nat)
      by (apply Nat.leb_le; vm_compute; reflexivity).
    assert (Hall : forall x, x ∈ example_table -> has_distance 0.75 0.75 x).
    { intros x Hx. apply elem_of_cons in Hx as [->|Hx]; [reflexivity|].
      apply list_elem_of_singleton in Hx as ->. reflexivity. }
    assert (H : fst (find_matching_song 900 (fun _ => false) example_table
                       0.75 0.75) = None) by (vm_compute; reflexivity).
    split; [exact example_table_index|]. split; [exact Hlen|].
    split; [exact Hall|]. split; [exact H|].
    exact (proj1 (proj1 (proj2 (failed_search_empties_table 900
                                  (fun _ => false) example_table 0.75 0.75
                                  example_table_index)) Hlen Hall) H).
  - intros out.
    assert (H : fst out = None) by (vm_compute; reflexivity).
    split; [exact (silent_table_index 3)|]. split; [exact H|].
    split; [vm_compute; reflexivity|].
    exact (proj1 (failed_search_empties_table 1 example_exists (silent_table 3)
                    (-0.8) (-0.4) (silent_table_index 3)) H).
Defined.

(** The search on a table that begins with songs without audio file, all
    at the point of the query: each call drops the first of them, and the
    search ends with the song that has its file when there is room for
    as many nested calls as there are songs to drop; otherwise it gives up,
    one song dropped by each call that could be made. *)
Lemma silent_table_search (n depth k : nat) :
  find_matching_song depth example_exists (silent_table_from k n) (-0.8) (-0.4)
  = if (n <=? depth)%nat
    then (Some (set_distance (Some (euclidean (-0.8) (-0.4) example_song_1))
                  example_song_1),
          assign_distance (-0.8) (-0.4) (silent_table_from (k + n) 0))
    else (None,
          assign_distance (-0.8) (-0.4)
            (silent_table_from (k + S depth) (n - S depth))).
Proof.
  revert depth k. induction n as [|n IH]; intros depth k.
  { rewrite find_matching_song_eq. reflexivity. }
  assert (Hhas : forall i, has_distance (-0.8) (-0.4) (silent_song i))
    by (intros i; reflexivity).
  assert (Hfar : forall i x, x ∈ silent_table_from (S k) n ->
                             ~ nearer (-0.8) (-0.4) x (silent_song i)).
  { intros i x Hx. unfold silent_table_from in Hx.
    apply elem_of_app in Hx as [Hx|Hx].
    - apply list_elem_of_fmap in Hx as (j & -> & _). discriminate.
    - apply list_elem_of_singleton in Hx as ->. discriminate. }
  assert (Htable : silent_table_from k (S n)
                   = silent_song k :: silent_table_from (S k) n)
    by reflexivity.
  set (first := set_distance (Some (euclidean (-0.8) (-0.4) (silent_song k)))
                  (silent_song k)).
  assert (Hidx : idxmin (distance_column
                           (assign_distance (-0.8) (-0.4)
                              (silent_table_from k (S n))))
                 = Ok (name first)).
  { pose proof (idxmin_first_min (-0.8) (-0.4) (silent_table_from k (S n)))
      as H.
    destruct (idxmin _) as [label|e].
    - destruct H as (m & -> & Hfm). rewrite Htable in Hfm.
      inversion Hfm as [r l _ _|a r l Ha Hrest]; subst; [reflexivity|].
      exfalso. apply first_min_elem in Hrest as [Hm _].
      exact (Hfar k m Hm (Ha (Hhas k))).
    - exfalso. apply (H (silent_song k)); [|apply Hhas].
      rewrite Htable. apply list_elem_of_here. }
  pose proof (silent_table_from_index k (S n)) as Hnd.
  assert (Hloc : loc (assign_distance (-0.8) (-0.4) (silent_table_from k (S n)))
                   (name first) = Ok first).
  { apply loc_unique.
    - rewrite index_assign_distance. exact Hnd.
    - rewrite Htable. apply list_elem_of_here. }
  assert (Hdrop : drop_label (name first)
                    (assign_distance (-0.8) (-0.4) (silent_table_from k (S n)))
                  = assign_distance (-0.8) (-0.4) (silent_table_from (S k) n)).
  { rewrite Htable. unfold assign_distance at 1. rewrite fmap_cons.
    unfold drop_label. rewrite filter_cons, decide_False
      by (intros H; apply H; reflexivity).
    apply drop_label_absent. rewrite index_assign_distance.
    rewrite Htable in Hnd. unfold index in Hnd. rewrite fmap_cons in Hnd.
    apply NoDup_cons in Hnd as [Hnotin _]. exact Hnotin. }
  rewrite find_matching_song_eq, Hidx, Hloc.
  change (example_exists (audio_path first)) with false. cbv iota.
  rewrite Hdrop. destruct depth as [|depth].
  - simpl. rewrite Nat.sub_0_r, Nat.add_1_r. reflexivity.
  - rewrite find_matching_song_reassign, IH.
    change (S n <=? S depth)%nat with (n <=? depth)%nat.
    change (S n - S (S depth))%nat with (n - S depth)%nat.
    replace (S k + n)%nat with (k + S n)%nat by lia.
    replace (S k + S depth)%nat with (k + S (S depth))%nat by lia.
    reflexivity.
Qed.

(** The limit of the interpreter at work: of a table of a thousand and one
    songs without audio file followed by one with its file, a search with
    all the nested calls that Python allows removes the songs without file
    and then gives up: it returns nothing, while the song that could be
    played is in the table; the next search returns it. *)
Example recursion_limit_reached :
  let out := find_matching_song recursion_limit example_exists
               (silent_table 1001) (-0.8) (-0.4) in
  length (silent_table 1001) = 1002%nat
  /\ (forall x, x ∈ silent_table 1001 -> has_distance (-0.8) (-0.4) x)
  /\ example_song_1 ∈ silent_table 1001
  /\ playable example_exists example_song_1
  /\ fst out = None
  /\ (song_id <$> snd out) = [1%Z]
  /\ (song_id <$> fst (find_matching_song recursion_limit example_exists
                         (snd out) (-0.8) (-0.4))) = Some 1%Z.
Proof.
  intros out.
  assert (Hout : out = (None, assign_distance (-0.8) (-0.4) [example_song_1])).
  { unfold out, silent_table. rewrite silent_table_search. reflexivity. }
  split.
  { unfold silent_table, silent_table_from.
    rewrite length_app, length_fmap, length_seq. reflexivity. }
  split.
  { intros x Hx. unfold silent_table, silent_table_from in Hx.
    apply elem_of_app in Hx as [Hx|Hx].
    - apply list_elem_of_fmap in Hx as (j & -> & _). reflexivity.
    - apply list_elem_of_singleton in Hx as ->. reflexivity. }
  split.
  { unfold silent_table, silent_table_from. apply elem_of_app. right.
    apply list_elem_of_here. }
  split; [reflexivity|].
  rewrite Hout. split; [reflexivity|]. split; [reflexivity|].
  cbn [snd]. rewrite find_matching_song_eq. reflexivity.
Qed.

(** ** The playback controller, continued *)

Lemma mixer_of_app (calls more : list MixerCall) :
  mixer_of (calls ++ more) = fold_left mixer_receive more (mixer_of calls).
Proof. unfold mixer_of. apply fold_left_app. Qed.

Lemma clamp_bounds (v : Q) : 0 <= py_max 0.0 (py_min 1.0 v) <= 1.
Proof.
  unfold py_max, py_min.
  destruct (Qlt_bool v 1.0) eqn:E1.
  - apply Qlt_bool_iff in E1.
    destruct (Qlt_bool 0.0 v) eqn:E2.
    + apply Qlt_bool_iff in E2. unfold Qlt, Qle in *. simpl in *. lia.
    + split; discriminate.
  - destruct (Qlt_bool 0.0 1.0) eqn:E2; split; discriminate.
Qed.

Lemma stopped_current_song (w : World) :
  playback_inv (self w) -> current_song (self (stopped w)) = None.
Proof.
  intros [Hinv _]. unfold stopped.
  destruct (is_playing (self w)) eqn:E; [reflexivity|].
  destruct (current_song (self w)) eqn:Ec; [|reflexivity].
  specialize (Hinv ltac:(discriminate)). congruence.
Qed.

Lemma stopped_in_sync (w : World) : in_sync w -> in_sync (stopped w).
Proof.
  intros (Hplay & Hvol & Hb & Hinv). unfold stopped.
  destruct (is_playing (self w)) eqn:E.
  - unfold in_sync. simpl. rewrite mixer_of_app. simpl.
    split; [reflexivity|]. split; [exact Hvol|]. split; [exact Hb|].
    split; [intros H; contradiction H; reflexivity | discriminate].
  - unfold in_sync. auto.
Qed.

Lemma step_in_sync (w : World) (o : Op) : in_sync w -> in_sync (step w o).
Proof.
  intros Hs. destruct o as [env song_path| |v]; unfold step.
  - pose proof (stopped_in_sync w Hs) as (Sp & Sv & Sb & Si).
    pose proof (stopped_volume w) as Ev.
    play_cases env song_path w; try exact Hs.
    + apply stopped_in_sync, Hs.
    + unfold in_sync. simpl. rewrite !mixer_of_app. simpl.
      split.
      * symmetry. apply stopped_current_song. apply Hs.
      * split; [rewrite <- Ev; reflexivity|]. split; assumption.
    + unfold in_sync, started. simpl. rewrite mixer_of_app. simpl.
      split; [reflexivity|]. split; [reflexivity|].
      split; [destruct Hs as (_ & _ & Hb & _); exact Hb|].
      split; [reflexivity | discriminate].
  - rewrite stop_song_stopped. apply stopped_in_sync, Hs.
  - rewrite set_volume_world. destruct Hs as (Hp & Hv & Hb & Hi).
    unfold in_sync. simpl. rewrite mixer_of_app. simpl.
    split; [exact Hp|]. split; [reflexivity|].
    split; [apply clamp_bounds | exact Hi].
Qed.

Lemma run_in_sync (ops : list Op) : in_sync (run ops init).
Proof.
  assert (H0 : in_sync init).
  { unfold in_sync. simpl. split; [reflexivity|]. split; [reflexivity|].
    split; [split; discriminate|].
    split; [intros H; contradiction H; reflexivity | discriminate]. }
  unfold run. generalize init H0.
  induction ops as [|o ops IH]; intros w Hw; simpl; [exact Hw|].
  apply IH, step_in_sync, Hw.
Qed.

(** X6.  Whatever operations have been performed since [__init__], the volume of
    the player lies between 0 and 1 and is the volume that the mixer was
    last given. *)
Theorem volume_always_in_sync :
  forall ops : list Op,
    let w := run ops init in
    0 <= volume (self w) <= 1
    /\ m_volume (mixer_of (mixer_calls w)) = Some (volume (self w)).
Proof.
  intros ops w. destruct (run_in_sync ops) as (_ & Hv & Hb & _).
  split; assumption.
Qed.

(** X7.  Whatever operations have been performed since [__init__], the song that
    the player records as current is the file that the calls made on the
    mixer have left playing, and none is recorded when they have left
    nothing playing. *)
Theorem current_song_always_in_sync :
  forall ops : list Op,
    let w := run ops init in
    m_playing (mixer_of (mixer_calls w)) = current_song (self w)
    /\ (is_playing (self w) = true
        <-> m_playing (mixer_of (mixer_calls w)) <> None).
Proof.
  intros ops w. destruct (run_in_sync ops) as (Hp & _ & _ & Hi).
  split; [exact Hp|]. fold w in Hp, Hi. rewrite Hp. symmetry. exact Hi.
Qed.

(** X8.  [stop_song] never fails and leaves nothing playing; it keeps the volume
    and the time of the last start; when nothing is playing it changes
    nothing and sends nothing to the mixer, so stopping twice is stopping
    once; when a song is playing the mixer receives one [stop]. *)
Theorem stop_song_idempotent :
  forall w : World,
    let w' := snd (stop_song w) in
    fst (stop_song w) = Ok tt
    /\ is_playing (self w') = false
    /\ volume (self w') = volume (self w)
    /\ last_play_time (self w') = last_play_time (self w)
    /\ (is_playing (self w) = false -> w' = w)
    /\ (is_playing (self w) = true ->
        current_song (self w') = None
        /\ mixer_calls w' = mixer_calls w ++ [music_stop])
    /\ snd (stop_song w') = w'.
Proof.
  intros w w'. subst w'. rewrite !stop_song_stopped. simpl.
  unfold stopped. destruct (is_playing (self w)) eqn:E; simpl; rewrite ?E;
    repeat split; try reflexivity; try discriminate; auto.
Qed.

Lemma stop_song_idempotent_witness :
  let w := started (env_at 100 true) "a.mp3" init in
  (is_playing (self w) = true
   /\ mixer_calls (snd (stop_song w)) = mixer_calls w ++ [music_stop])
  /\ (is_playing (self init) = false /\ snd (stop_song init) = init).
Proof.
  intros w.
  assert (H : is_playing (self w) = true) by reflexivity.
  assert (H0 : is_playing (self init) = false) by reflexivity.
  split.
  - split; [exact H|].
    exact (proj2 (proj1 (proj2 (proj2 (proj2 (proj2 (proj2
             (stop_song_idempotent w)))))) H)).
  - split; [exact H0|].
    exact (proj1 (proj2 (proj2 (proj2 (proj2 (stop_song_idempotent init)))))
             H0).
Defined.

(** X9.  Stopping does not reset the clock of the minimum interval: a
    [play_song] that would have been refused as too soon is still refused
    after a [stop_song], for any path, so that nothing is playing then. *)
Theorem stop_then_play_too_soon :
  forall (env : Env) (song_path : string) (w : World),
    time_time env - last_play_time (self w) < min_play_interval ->
    let w1 := snd (stop_song w) in
    play_song env song_path w1 = (Ok false, w1)
    /\ is_playing (self w1) = false.
Proof.
  intros env song_path w Hsoon w1. subst w1. rewrite stop_song_stopped. simpl.
  assert (Hsoon' : too_soon env (stopped w)).
  { unfold too_soon. rewrite stopped_last_play_time. exact Hsoon. }
  split.
  - play_cases env song_path (stopped w); try reflexivity; contradiction.
  - unfold stopped. destruct (is_playing (self w)) eqn:E; [reflexivity|exact E].
Qed.

Lemma stop_then_play_too_soon_witness :
  let w := started (env_at 100 true) "a.mp3" init in
  time_time (env_at 100.5 true) - last_play_time (self w) < min_play_interval
  /\ play_song (env_at 100.5 true) "a.mp3" (snd (stop_song w))
     = (Ok false, snd (stop_song w)).
Proof.
  intros w.
  assert (H : time_time (env_at 100.5 true) - last_play_time (self w)
              < min_play_interval) by reflexivity.
  split; [exact H|].
  exact (proj1 (stop_then_play_too_soon (env_at 100.5 true) "a.mp3"%string w H)).
Defined.

(** X10.  [play_song] returns true exactly when the minimum interval has passed
    and either the song is the one playing, or its file is there, is not
    empty, and the mixer loads and starts it; it then leaves the song
    recorded as current and playing. *)
Theorem play_song_true_iff :
  forall (env : Env) (song_path : string) (w : World),
    (fst (play_song env song_path w) = Ok true
     <-> min_play_interval <= time_time env - last_play_time (self w)
         /\ (already_playing song_path w
             \/ (path_exists env song_path = true
                 /\ path_getsize env song_path <> 0%Z
                 /\ load_ok env song_path = true
                 /\ play_ok env = true)))
    /\ (fst (play_song env song_path w) = Ok true ->
        already_playing song_path (snd (play_song env song_path w))).
Proof.
  intros env song_path w.
  assert (Hge : ~ too_soon env w ->
                min_play_interval <= time_time env - last_play_time (self w)).
  { intros H. apply Qnot_lt_le. exact H. }
  assert (Hlt : min_play_interval <= time_time env - last_play_time (self w) ->
                ~ too_soon env w).
  { intros H H'. exact (Qlt_not_le _ _ H' H). }
  play_cases env song_path w.
  all: split; [split; [try discriminate; intros _; split; auto; tauto|]|].
  all: try (intros [Hi Hc]; exfalso; apply Hlt in Hi;
            first [contradiction | destruct Hc as [Hc|(E1 & E2 & E3 & E4)];
                   [contradiction | congruence]]).
  all: try reflexivity; try discriminate.
  - intros _. assumption.
  - intros _. split; reflexivity.
Qed.

Lemma play_song_true_iff_witness :
  fst (play_song (env_at 100 true) "a.mp3" init) = Ok true
  /\ already_playing "a.mp3" (snd (play_song (env_at 100 true) "a.mp3" init)).
Proof.
  assert (H : fst (play_song (env_at 100 true) "a.mp3" init) = Ok true)
    by reflexivity.
  split; [exact H|].
  exact (proj2 (play_song_true_iff (env_at 100 true) "a.mp3"%string init) H).
Defined.

(** X11.  A call of [play_song] that changes the song sends the mixer [stop] (only
    if a song was playing), then [load] of the new file, [set_volume] with
    the player's volume and [play], in this order and nothing else; the
    volume of the player is not changed. *)
Theorem play_song_call_sequence :
  forall (env : Env) (song_path : string) (w : World),
    fst (play_song env song_path w) = Ok true ->
    ~ already_playing song_path w ->
    let w' := snd (play_song env song_path w) in
    mixer_calls w'
    = mixer_calls w
      ++ (if is_playing (self w) then [music_stop] else [])
      ++ [music_load song_path; music_set_volume (volume (self w)); music_play]
    /\ self w' = {| current_song := Some song_path; is_playing := true;
                    volume := volume (self w);
                    last_play_time := time_time env |}.
Proof.
  intros env song_path w Htrue Hnot w'. subst w'.
  play_cases env song_path w; try discriminate; try contradiction.
  split; [|reflexivity].
  unfold stopped. destruct (is_playing (self w)); simpl;
    rewrite <- ?app_assoc; reflexivity.
Qed.

Lemma play_song_call_sequence_witness :
  let w := started (env_at 100 true) "a.mp3" init in
  fst (play_song (env_at 200 true) "b.mp3" w) = Ok true
  /\ ~ already_playing "b.mp3" w
  /\ mixer_calls (snd (play_song (env_at 200 true) "b.mp3" w))
     = mixer_calls w
       ++ [music_stop]
       ++ [music_load "b.mp3"; music_set_volume (volume (self w)); music_play].
Proof.
  intros w.
  assert (H : fst (play_song (env_at 200 true) "b.mp3" w) = Ok true)
    by reflexivity.
  assert (H0 : ~ already_playing "b.mp3" w).
  { intros [Hc _]. discriminate Hc. }
  split; [exact H|]. split; [exact H0|].
  exact (proj1 (play_song_call_sequence (env_at 200 true) "b.mp3"%string w H H0)).
Defined.

(** ** The emotion classifier adapter, continued *)

Lemma emotion_map_values (label : string) (p : Q * Q) :
  emotion_map !! label = Some p ->
  (-0.8 <= fst p <= 0.8) /\ (-0.4 <= snd p <= 0.8).
Proof.
  intros H. unfold emotion_map in H.
  apply elem_of_list_to_map_2 in H.
  repeat (apply elem_of_cons in H as [H|H];
          [injection H as _ ->; simpl; repeat split; discriminate|]).
  inversion H.
Qed.

(** X12.  Whatever the detector answers, the coordinates that [detect_emotion]
    returns lie in the rectangle of the table, valence from -0.8 to 0.8 and
    arousal from -0.4 to 0.8, and they are (0, 0) when no label is
    returned. *)
Theorem detect_emotion_range :
  forall (Frame : Type) (detect_emotions : Frame -> result (list Face))
         (frame : Frame),
    let out := detect_emotion Frame detect_emotions frame in
    let label := fst (fst out) in
    let valence := snd (fst out) in
    let arousal := snd out in
    (-0.8 <= valence <= 0.8)
    /\ (-0.4 <= arousal <= 0.8)
    /\ (label = None -> valence = 0 /\ arousal = 0).
Proof.
  intros Frame detect frame. unfold detect_emotion, detect_emotion_body.
  destruct (detect frame) as [[|face faces]|e]; simpl;
    try (repeat split; discriminate).
  destruct (max_item (emotions face)) as [dominant|e]; simpl;
    try (repeat split; discriminate).
  unfold emotion_to_valence_arousal.
  destruct (emotion_map !! fst dominant) as [[v a]|] eqn:E; simpl.
  - destruct (emotion_map_values _ _ E) as [Hv Ha].
    split; [exact Hv|]. split; [exact Ha | discriminate].
  - repeat split; discriminate.
Qed.

Lemma detect_emotion_range_witness :
  fst (fst (detect_emotion unit (fun _ => Ok []) tt)) = None
  /\ snd (fst (detect_emotion unit (fun _ => Ok []) tt)) = 0
  /\ snd (detect_emotion unit (fun _ => Ok []) tt) = 0.
Proof.
  assert (H : fst (fst (detect_emotion unit (fun _ => Ok []) tt)) = None)
    by reflexivity.
  split; [exact H|].
  exact (proj2 (proj2 (detect_emotion_range unit (fun _ => Ok []) tt)) H).
Defined.

Lemma max_by_score_first (items : list (string * Q)) (best : string * Q) :
  exists pre post,
    best :: items = pre ++ max_by_score best items :: post
    /\ forall y, y ∈ pre -> snd y < snd (max_by_score best items).
Proof.
  revert best. induction items as [|x rest IH]; intros best; simpl.
  - exists [], []. split; [reflexivity|]. intros y Hy. inversion Hy.
  - destruct (Qlt_bool (snd best) (snd x)) eqn:E.
    + apply Qlt_bool_iff in E.
      destruct (IH x) as (pre & post & Heq & Hpre).
      exists (best :: pre), post. split; [simpl; f_equal; exact Heq|].
      intros y Hy. apply elem_of_cons in Hy as [->|Hy]; [|apply Hpre, Hy].
      eapply Qlt_le_trans; [exact E | apply max_by_score_ge_best].
    + apply Qlt_bool_false_iff in E.
      destruct (IH best) as (pre & post & Heq & Hpre).
      destruct pre as [|b pre].
      * simpl in Heq. injection Heq as Hb Hrest.
        exists [], (x :: post). split; [simpl; congruence|].
        intros y Hy. inversion Hy.
      * simpl in Heq. injection Heq as <- Hrest.
        exists (best :: x :: pre), post.
        split; [simpl; do 2 f_equal; exact Hrest|].
        assert (Hbest : snd best < snd (max_by_score best rest))
          by (apply Hpre, list_elem_of_here).
        intros y Hy. apply elem_of_cons in Hy as [->|Hy]; [exact Hbest|].
        apply elem_of_cons in Hy as [->|Hy].
        -- eapply Qle_lt_trans; eassumption.
        -- apply Hpre. apply list_elem_of_further, Hy.
Qed.

(** X13.  When the detector reports faces, only the first one counts, and the
    label returned is that of the first of its emotions to reach the
    greatest score: the emotions listed before it score strictly less, the
    ones listed after it score no more. *)
Theorem detect_emotion_first_maximum :
  forall (Frame : Type) (detect_emotions : Frame -> result (list Face))
         (frame : Frame) (face : Face) (faces : list Face),
    detect_emotions frame = Ok (face :: faces) ->
    emotions face <> [] ->
    detect_emotion Frame detect_emotions frame
    = detect_emotion unit (fun _ => Ok [face]) tt
    /\ exists pre dominant post,
         emotions face = pre ++ dominant :: post
         /\ (forall y, y ∈ pre -> snd y < snd dominant)
         /\ (forall y, y ∈ post -> snd y <= snd dominant)
         /\ fst (fst (detect_emotion Frame detect_emotions frame))
            = Some (fst dominant).
Proof.
  intros Frame detect frame face faces Hdet Hne.
  unfold detect_emotion, detect_emotion_body. rewrite Hdet.
  split; [reflexivity|].
  destruct (emotions face) as [|x rest] eqn:E; [contradiction|].
  destruct (max_by_score_first rest x) as (pre & post & Heq & Hpre).
  exists pre, (max_by_score x rest), post.
  split; [exact Heq|]. split; [exact Hpre|]. split.
  - intros y Hy. apply max_by_score_max. rewrite Heq.
    apply elem_of_app. right. apply list_elem_of_further, Hy.
  - unfold max_item.
    destruct (emotion_to_valence_arousal (Some (fst (max_by_score x rest))));
      reflexivity.
Qed.

Lemma detect_emotion_first_maximum_witness :
  let face := {| emotions := [("sad"%string, 0.2); ("happy"%string, 0.4);
                              ("angry"%string, 0.4)] |} in
  emotions face <> []
  /\ detect_emotion unit (fun _ => Ok [face; {| emotions := [] |}]) tt
     = detect_emotion unit (fun _ => Ok [face]) tt
  /\ fst (fst (detect_emotion unit (fun _ => Ok [face]) tt))
     = Some "happy"%string.
Proof.
  intros face.
  assert (H : emotions face <> []) by discriminate.
  split; [exact H|]. split; [|reflexivity].
  exact (proj1 (detect_emotion_first_maximum unit
                  (fun _ => Ok [face; {| emotions := [] |}]) tt face
                  [{| emotions := [] |}] eq_refl H)).
Defined.

(** ** The dataset loader, continued *)

Lemma sublist_StronglySorted {A : Type} (R : relation A) (l1 l2 : list A) :
  sublist l1 l2 -> StronglySorted R l2 -> StronglySorted R l1.
Proof.
  induction 1 as [|x l1 l2 Hsub IH|x l1 l2 Hsub IH]; intros Hs.
  - constructor.
  - apply StronglySorted_cons in Hs as [Hall Hs].
    apply StronglySorted_cons. split; [|apply IH, Hs].
    apply Forall_forall. intros y Hy.
    apply (proj1 (Forall_forall _ _) Hall). eapply elem_of_sublist; eassumption.
  - apply StronglySorted_cons in Hs as [_ Hs]. apply IH, Hs.
Qed.

Lemma StronglySorted_lt_NoDup (l : list Z) : StronglySorted Z.lt l -> NoDup l.
Proof.
  induction l as [|x l IH]; intros Hs; [constructor|].
  apply StronglySorted_cons in Hs as [Hall Hs].
  apply NoDup_cons. split; [|apply IH, Hs].
  intros Hx. apply (proj1 (Forall_forall _ _) Hall) in Hx. lia.
Qed.

Lemma seqZ_sorted (m n : Z) : StronglySorted Z.lt (seqZ m n).
Proof.
  unfold seqZ. apply (StronglySorted_fmap _ lt).
  - intros x y Hxy. lia.
  - generalize 0%nat. induction (Z.to_nat n) as [|k IH]; intros a; simpl.
    + constructor.
    + apply StronglySorted_cons. split; [|apply IH].
      apply Forall_forall. intros y Hy. apply elem_of_seq in Hy. lia.
Qed.

Section LoaderFacts.
Variable read_features : Z -> option (result (list (option Q))).
Variable audio_file : Z -> string.
Variables labels_1 labels_2 : list LabelRow.

Let features_df := features_list read_features audio_file.

Lemma features_list_elem (f : FeatureRow) :
  f ∈ features_df <->
  (2 <= f_song_id f < 2058)%Z
  /\ read_features (f_song_id f) = Some (Ok (f_features f))
  /\ f_audio_path f = audio_file (f_song_id f).
Proof.
  unfold features_df, features_list. rewrite list_elem_of_omap. split.
  - intros (s & Hs & Hf). apply elem_of_seqZ in Hs.
    destruct (read_features s) as [[m|e]|] eqn:E; try discriminate.
    injection Hf as <-. simpl. split; [lia|]. split; [exact E | reflexivity].
  - intros (Hr & Hread & Hpath). exists (f_song_id f). split.
    + apply elem_of_seqZ. lia.
    + rewrite Hread. destruct f as [m s p]. simpl in *. subst p. reflexivity.
Qed.

Lemma features_list_ids_sublist :
  sublist (f_song_id <$> features_df) (seqZ 2 2056).
Proof.
  unfold features_df, features_list.
  induction (seqZ 2 2056) as [|s l IH]; simpl; [constructor|].
  destruct (read_features s) as [[m|e]|]; simpl.
  - apply sublist_skip, IH.
  - apply sublist_cons, IH.
  - apply sublist_cons, IH.
Qed.

Lemma features_list_sorted : StronglySorted Z.lt (f_song_id <$> features_df).
Proof.
  apply (sublist_StronglySorted _ _ _ features_list_ids_sublist), seqZ_sorted.
Qed.

End LoaderFacts.

Lemma insert_group_sorted (row : LabelRow) (groups : list (Z * list LabelRow)) :
  StronglySorted Z.lt (fst <$> groups) ->
  StronglySorted Z.lt (fst <$> insert_group row groups).
Proof.
  induction groups as [|[k g] groups IH]; intros Hs; simpl.
  - apply StronglySorted_cons. split; constructor.
  - rewrite fmap_cons in Hs. apply StronglySorted_cons in Hs as [Hall Hs].
    simpl in Hall.
    destruct (Z.ltb_spec (l_song_id row) k) as [Hlt|Hge].
    + rewrite !fmap_cons. simpl. apply StronglySorted_cons. split.
      * apply Forall_cons. split; [exact Hlt|].
        eapply Forall_impl; [exact Hall|]. intros y Hy. simpl in Hy. lia.
      * apply StronglySorted_cons. split; assumption.
    + destruct (Z.eqb_spec (l_song_id row) k) as [Heq|Hne].
      * rewrite fmap_cons. simpl. apply StronglySorted_cons. split; assumption.
      * rewrite fmap_cons. simpl. apply StronglySorted_cons.
        split; [|apply IH, Hs].
        apply Forall_forall. intros y Hy.
        apply insert_group_keys in Hy as [->|Hy]; [lia|].
        apply (proj1 (Forall_forall _ _) Hall), Hy.
Qed.

Lemma filter_song_id_snoc (seen : list LabelRow) (row : LabelRow) (k : Z) :
  filter (fun r => l_song_id r = k) (seen ++ [row])
  = filter (fun r => l_song_id r = k) seen
    ++ (if decide (l_song_id row = k) then [row] else []).
Proof.
  rewrite filter_app. reflexivity.
Qed.

(** Each group holds the rows seen so far that carry its key, in their
    order. *)
Lemma insert_group_groups (seen : list LabelRow) (row : LabelRow)
    (groups : list (Z * list LabelRow)) :
  StronglySorted Z.lt (fst <$> groups) ->
  (l_song_id row ∉ fst <$> groups ->
   filter (fun r => l_song_id r = l_song_id row) seen = []) ->
  Forall (fun kg => snd kg = filter (fun r => l_song_id r = fst kg) seen) groups ->
  Forall (fun kg => snd kg = filter (fun r => l_song_id r = fst kg) (seen ++ [row]))
    (insert_group row groups).
Proof.
  assert (Hother : forall kg : Z * list LabelRow,
             snd kg = filter (fun r => l_song_id r = fst kg) seen ->
             fst kg <> l_song_id row ->
             snd kg = filter (fun r => l_song_id r = fst kg) (seen ++ [row])).
  { intros kg Hkg Hne. rewrite filter_song_id_snoc, decide_False by congruence.
    rewrite app_nil_r. exact Hkg. }
  induction groups as [|[k g] groups IH]; intros Hs Hfresh Hall; simpl.
  - apply Forall_cons. split; [|constructor]. simpl.
    rewrite filter_song_id_snoc, decide_True by reflexivity.
    rewrite Hfresh; [reflexivity|]. intros H. inversion H.
  - rewrite fmap_cons in Hs. apply StronglySorted_cons in Hs as [Hgt Hs].
    simpl in Hgt.
    apply Forall_cons in Hall as [Hkg Hall]. simpl in Hkg.
    assert (Hrest : forall kg, kg ∈ groups -> (k < fst kg)%Z).
    { intros kg Hin. apply (proj1 (Forall_forall _ _) Hgt).
      apply list_elem_of_fmap_2, Hin. }
    destruct (Z.ltb_spec (l_song_id row) k) as [Hlt|Hge].
    + apply Forall_cons. split.
      * simpl. rewrite filter_song_id_snoc, decide_True by reflexivity.
        rewrite Hfresh; [reflexivity|].
        rewrite fmap_cons, elem_of_cons. simpl. intros [H|H]; [lia|].
        apply (proj1 (Forall_forall _ _) Hgt) in H. lia.
      * apply Forall_cons. split.
        -- apply (Hother (k, g)); simpl; [exact Hkg | lia].
        -- apply Forall_forall. intros kg Hin. apply Hother.
           ++ apply (proj1 (Forall_forall _ _) Hall), Hin.
           ++ specialize (Hrest kg Hin). lia.
    + destruct (Z.eqb_spec (l_song_id row) k) as [Heq|Hne].
      * apply Forall_cons. split.
        -- simpl. rewrite filter_song_id_snoc, decide_True by exact Heq.
           rewrite Hkg. reflexivity.
        -- apply Forall_forall. intros kg Hin. apply Hother.
           ++ apply (proj1 (Forall_forall _ _) Hall), Hin.
           ++ specialize (Hrest kg Hin). lia.
      * apply Forall_cons. split.
        -- apply (Hother (k, g)); simpl; [exact Hkg | congruence].
        -- apply IH; [exact Hs | | exact Hall].
           intros Hnot. apply Hfresh.
           rewrite fmap_cons, elem_of_cons. simpl. intros [H|H];
             [congruence | contradiction].
Qed.

Lemma groupby_song_id_groups (rows : list LabelRow) :
  StronglySorted Z.lt (fst <$> groupby_song_id rows)
  /\ Forall (fun kg => snd kg = filter (fun r => l_song_id r = fst kg) rows)
       (groupby_song_id rows).
Proof.
  unfold groupby_song_id.
  assert (H : forall seen groups,
             StronglySorted Z.lt (fst <$> groups) ->
             (forall k, k ∈ fst <$> groups <-> k ∈ l_song_id <$> seen) ->
             Forall (fun kg => snd kg = filter (fun r => l_song_id r = fst kg) seen)
               groups ->
             let final := fold_left (fun groups row => insert_group row groups)
                            rows groups in
             StronglySorted Z.lt (fst <$> final)
             /\ Forall (fun kg => snd kg
                                  = filter (fun r => l_song_id r = fst kg)
                                      (seen ++ rows)) final).
  { induction rows as [|row rows IH]; intros seen groups Hs Hkeys Hall; simpl.
    - rewrite app_nil_r. split; assumption.
    - replace (seen ++ row :: rows) with ((seen ++ [row]) ++ rows)
        by (rewrite <- app_assoc; reflexivity).
      apply IH.
      + apply insert_group_sorted, Hs.
      + intros k. rewrite insert_group_keys, fmap_app, elem_of_app, Hkeys.
        simpl. rewrite list_elem_of_singleton. tauto.
      + apply insert_group_groups; [exact Hs | | exact Hall].
        intros Hnot. apply elem_of_nil_inv. intros r Hr.
        apply list_elem_of_filter in Hr as [Hid Hr]. apply Hnot.
        apply Hkeys. rewrite <- Hid. apply list_elem_of_fmap_2, Hr. }
  apply (H [] []).
  - constructor.
  - intros k. simpl. tauto.
  - constructor.
Qed.

(** The annotation table after grouping: one row for each annotated song,
    in increasing order of the ids, holding the means over all the rows of
    that song in the two tables. *)
Lemma labels_df_rows (labels_1 labels_2 : list LabelRow) :
  StronglySorted Z.lt (l_song_id <$> labels_df labels_1 labels_2)
  /\ forall l, l ∈ labels_df labels_1 labels_2 ->
       let rows := filter (fun r => l_song_id r = l_song_id l)
                     (labels_1 ++ labels_2) in
       rows <> []
       /\ l_valence_average l = mean (l_valence_average <$> rows)
       /\ l_arousal_average l = mean (l_arousal_average <$> rows).
Proof.
  unfold labels_df.
  destruct (groupby_song_id_groups (labels_1 ++ labels_2)) as [Hs Hall].
  split; [rewrite agg_mean_keys; exact Hs|].
  intros l Hl. unfold agg_mean in Hl.
  apply list_elem_of_fmap in Hl as ([k g] & -> & Hkg). simpl.
  pose proof (proj1 (Forall_forall _ _) Hall _ Hkg) as Hg. simpl in Hg.
  rewrite <- Hg. split; [|split; reflexivity].
  intros ->.
  assert (Hk : k ∈ fst <$> groupby_song_id (labels_1 ++ labels_2)).
  { apply (list_elem_of_fmap_2 fst _ (k, [])), Hkg. }
  apply groupby_song_id_keys, list_elem_of_fmap in Hk as (r & Hid & Hr).
  assert (Hin : r ∈ filter (fun r => l_song_id r = k) (labels_1 ++ labels_2)).
  { apply list_elem_of_filter. split; [symmetry; exact Hid | exact Hr]. }
  rewrite <- Hg in Hin. inversion Hin.
Qed.

Lemma merge_elem (features_df : list FeatureRow) (labels : list LabelRow)
    (row : Song) :
  row ∈ merge features_df labels ->
  exists f l label,
    f ∈ features_df /\ l ∈ labels /\ l_song_id l = f_song_id f
    /\ row = merged_row f l label.
Proof.
  unfold merge. intros Hrow.
  apply elem_of_lookup_imap in Hrow as (i & g & -> & Hg).
  apply list_elem_of_lookup_2, list_elem_of_In, in_flat_map in Hg
    as (f & Hf & Hg).
  apply list_elem_of_In, list_elem_of_fmap in Hg as (l & -> & Hl).
  apply list_elem_of_filter in Hl as [Hid Hl]. apply list_elem_of_In in Hf.
  exists f, l, (Z.of_nat i). repeat split; assumption.
Qed.

Lemma filter_key_at_most_one (labels : list LabelRow) (s : Z) :
  NoDup (l_song_id <$> labels) ->
  (length (filter (fun l => l_song_id l = s) labels) <= 1)%nat.
Proof.
  induction labels as [|x labels IH]; intros Hnd; [simpl; lia|].
  rewrite fmap_cons in Hnd. apply NoDup_cons in Hnd as [Hx Hnd].
  rewrite filter_cons. destruct (decide (l_song_id x = s)) as [Heq|Hne].
  - assert (Hnil : filter (fun l => l_song_id l = s) labels = []).
    { apply elem_of_nil_inv. intros y Hy.
      apply list_elem_of_filter in Hy as [Hid Hy]. apply Hx.
      rewrite Heq, <- Hid. apply list_elem_of_fmap_2, Hy. }
    rewrite Hnil. simpl. lia.
  - apply IH, Hnd.
Qed.

Lemma merge_song_ids_sublist (features_df : list FeatureRow)
    (labels : list LabelRow) :
  NoDup (l_song_id <$> labels) ->
  sublist (song_id <$> merge features_df labels) (f_song_id <$> features_df).
Proof.
  intros Hnd. unfold merge. rewrite fmap_imap.
  set (rows := flat_map _ features_df).
  assert (Hext : imap (fun n => song_id ∘ (fun row : Z -> Song => row (Z.of_nat n))) rows
                 = (fun row : Z -> Song => song_id (row 0%Z)) <$> rows).
  { rewrite <- imap_const. apply imap_ext. intros i g Hg. simpl.
    apply list_elem_of_lookup_2, list_elem_of_In, in_flat_map in Hg
      as (f & _ & Hg).
    apply list_elem_of_In, list_elem_of_fmap in Hg as (l & -> & _).
    reflexivity. }
  rewrite Hext. subst rows. clear Hext.
  induction features_df as [|f features_df IH]; simpl; [constructor|].
  rewrite fmap_app, <- list_fmap_compose.
  pose proof (filter_key_at_most_one labels (f_song_id f) Hnd) as Hlen.
  destruct (filter (fun l => l_song_id l = f_song_id f) labels) as [|l [|l' ls]];
    simpl in *.
  - apply sublist_cons, IH.
  - apply sublist_skip, IH.
  - lia.
Qed.

(** X14.  The table that the loader produces lists every song at most once, in
    increasing order of the song ids, and has no more rows than there are
    readable feature files. *)
Theorem load_dataset_songs_once :
  forall (read_features : Z -> option (result (list (option Q))))
         (audio_file : Z -> string) (labels_1 labels_2 : list LabelRow)
         (df : DataFrame),
    load_dataset read_features audio_file (Ok labels_1) (Ok labels_2) = Ok df ->
    StronglySorted Z.lt (song_id <$> df)
    /\ NoDup (song_id <$> df)
    /\ (length df <= length (features_list read_features audio_file))%nat
    /\ (length df <= 2056)%nat.
Proof.
  intros read_features audio_file labels_1 labels_2 df Hload.
  apply load_dataset_Ok in Hload.
  destruct (features_list read_features audio_file) as [|f0 fs] eqn:E;
    [discriminate|].
  rewrite <- E in *. injection Hload as <-.
  assert (Hsub : sublist (song_id <$> fillna (merge (features_list read_features audio_file)
                                                (labels_df labels_1 labels_2)))
                   (f_song_id <$> features_list read_features audio_file)).
  { rewrite fillna_song_ids. apply merge_song_ids_sublist.
    apply StronglySorted_lt_NoDup, labels_df_rows. }
  assert (Hsorted : StronglySorted Z.lt
                      (song_id <$> fillna (merge (features_list read_features audio_file)
                                              (labels_df labels_1 labels_2)))).
  { exact (sublist_StronglySorted _ _ _ Hsub
             (features_list_sorted read_features audio_file)). }
  split; [exact Hsorted|]. split; [apply StronglySorted_lt_NoDup, Hsorted|].
  apply sublist_length in Hsub. rewrite !length_fmap in Hsub.
  split; [exact Hsub|].
  pose proof (sublist_length _ _
                (features_list_ids_sublist read_features audio_file)) as Hl.
  rewrite length_fmap, length_seqZ in Hl. lia.
Qed.

Lemma load_dataset_songs_once_witness :
  load_dataset example_read_features example_audio_file (Ok example_labels)
      (Ok [])
  = Ok example_loaded
  /\ NoDup (song_id <$> example_loaded).
Proof.
  assert (H0 : load_dataset example_read_features example_audio_file
                 (Ok example_labels) (Ok []) = Ok example_loaded)
    by (vm_compute; reflexivity).
  split; [exact H0|].
  exact (proj1 (proj2 (load_dataset_songs_once example_read_features
                         example_audio_file example_labels [] example_loaded
                         H0))).
Defined.

(** X15.  Every row of the loaded table belongs to a song between 2 and 2057
    whose feature file could be read; its audio path is the one built from
    its id, and its distance column is not yet written. *)
Theorem load_dataset_rows :
  forall (read_features : Z -> option (result (list (option Q))))
         (audio_file : Z -> string) (labels_1 labels_2 : list LabelRow)
         (df : DataFrame),
    load_dataset read_features audio_file (Ok labels_1) (Ok labels_2) = Ok df ->
    forall row, row ∈ df ->
      (2 <= song_id row < 2058)%Z
      /\ (exists means, read_features (song_id row) = Some (Ok means))
      /\ audio_path row = audio_file (song_id row)
      /\ distance row = None.
Proof.
  intros read_features audio_file labels_1 labels_2 df Hload row Hrow.
  apply load_dataset_Ok in Hload.
  destruct (features_list read_features audio_file) as [|f0 fs] eqn:E;
    [discriminate|].
  rewrite <- E in *. injection Hload as <-.
  unfold fillna in Hrow. apply list_elem_of_fmap in Hrow as (row0 & -> & Hrow0).
  apply merge_elem in Hrow0 as (f & l & label & Hf & _ & _ & ->). simpl.
  apply features_list_elem in Hf as (Hr & Hread & Hpath).
  split; [exact Hr|]. split; [eexists; exact Hread|].
  split; [exact Hpath | reflexivity].
Qed.

Lemma load_dataset_rows_witness :
  load_dataset example_read_features example_audio_file (Ok example_labels)
      (Ok [])
  = Ok example_loaded
  /\ (forall row, row ∈ example_loaded ->
        audio_path row = example_audio_file (song_id row)).
Proof.
  assert (H0 : load_dataset example_read_features example_audio_file
                 (Ok example_labels) (Ok []) = Ok example_loaded)
    by (vm_compute; reflexivity).
  split; [exact H0|]. intros row Hrow.
  exact (proj1 (proj2 (proj2 (load_dataset_rows example_read_features
                                example_audio_file example_labels []
                                example_loaded H0 row Hrow)))).
Defined.



(** X17.  The loader fails exactly when no song between 2 and 2057 has a
    feature file that can be read, or one of the two annotation files cannot
    be read with its three columns; what it raises is then a plain
    [Exception], whatever went wrong inside (the error of concatenating
    nothing when there is no feature row, otherwise the error of the first
    annotation file that failed).  Missing or unreadable feature files of
    some songs, and annotation tables without rows, do not make it fail;
    with no annotation row at all the table is empty. *)
Theorem load_dataset_fails_iff :
  forall (read_features : Z -> option (result (list (option Q))))
         (audio_file : Z -> string) (labels_1 labels_2 : result (list LabelRow)),
    let load := load_dataset read_features audio_file labels_1 labels_2 in
    let body := load_dataset_body read_features audio_file labels_1 labels_2 in
    (features_list read_features audio_file = []
     <-> forall s means, (2 <= s < 2058)%Z ->
                         read_features s <> Some (Ok means))
    /\ (load = Raise Exception
        <-> features_list read_features audio_file = []
            \/ (exists e, labels_1 = Raise e) \/ (exists e, labels_2 = Raise e))
    /\ (forall e, load = Raise e -> e = Exception)
    /\ (features_list read_features audio_file = [] -> body = Raise ValueError)
    /\ (forall e, features_list read_features audio_file <> [] ->
                  labels_1 = Raise e -> body = Raise e)
    /\ (forall rows_1 e, features_list read_features audio_file <> [] ->
                         labels_1 = Ok rows_1 -> labels_2 = Raise e ->
                         body = Raise e)
    /\ (forall s means rows_1 rows_2,
          (2 <= s < 2058)%Z -> read_features s = Some (Ok means) ->
          labels_1 = Ok rows_1 -> labels_2 = Ok rows_2 ->
          load = Ok (fillna (merge (features_list read_features audio_file)
                               (labels_df rows_1 rows_2))))
    /\ (forall df,
          load_dataset read_features audio_file (Ok []) (Ok []) = Ok df ->
          df = []).
Proof.
  intros read_features audio_file labels_1 labels_2 load body.
  assert (Hnil : features_list read_features audio_file = []
                 <-> forall s means, (2 <= s < 2058)%Z ->
                                     read_features s <> Some (Ok means)).
  { split.
    - intros E s means Hs Hread.
      assert (H : {| f_features := means; f_song_id := s;
                     f_audio_path := audio_file s |}
                  ∈ features_list read_features audio_file).
      { apply features_list_elem. simpl. auto. }
      rewrite E in H. inversion H.
    - intros Hno. apply elem_of_nil_inv. intros f Hf.
      apply features_list_elem in Hf as (Hr & Hread & _).
      exact (Hno _ _ Hr Hread). }
  split; [exact Hnil|].
  unfold load, body, load_dataset, load_dataset_body.
  split; [|split; [|split; [|split; [|split; [|split]]]]].
  - destruct (features_list read_features audio_file) as [|f fs].
    { split; [left; reflexivity | reflexivity]. }
    destruct labels_1 as [rows_1|e1].
    2: { split; [right; left; eexists; reflexivity | reflexivity]. }
    destruct labels_2 as [rows_2|e2].
    2: { split; [right; right; eexists; reflexivity | reflexivity]. }
    split; [discriminate|]. intros [H|[[e H]|[e H]]]; discriminate.
  - intros e.
    destruct (features_list read_features audio_file) as [|f fs];
      [intros [= <-]; reflexivity|].
    destruct labels_1 as [rows_1|e1]; [|intros [= <-]; reflexivity].
    destruct labels_2 as [rows_2|e2]; [discriminate|intros [= <-]; reflexivity].
  - intros ->. reflexivity.
  - intros e Hne ->.
    destruct (features_list read_features audio_file); [contradiction|reflexivity].
  - intros rows_1 e Hne -> ->.
    destruct (features_list read_features audio_file); [contradiction|reflexivity].
  - intros s means rows_1 rows_2 Hs Hread -> ->.
    destruct (features_list read_features audio_file) as [|f fs] eqn:E.
    + exfalso. exact (proj1 Hnil eq_refl s means Hs Hread).
    + reflexivity.
  - intros df Hload. apply load_dataset_Ok in Hload.
    destruct (features_list read_features audio_file) as [|f0 fs] eqn:E;
      [discriminate|].
    rewrite <- E in *. injection Hload as <-.
    apply elem_of_nil_inv. intros row Hrow.
    unfold fillna in Hrow.
    apply list_elem_of_fmap in Hrow as (row0 & _ & Hrow0).
    apply merge_elem in Hrow0 as (f & l & label & _ & Hl & _).
    inversion Hl.
Qed.

Lemma load_dataset_fails_iff_witness :
  (2 <= 2 < 2058)%Z
  /\ example_read_features 2 = Some (Ok [Some 1; None])
  /\ load_dataset example_read_features example_audio_file (Ok example_labels)
       (Ok [])
     = Ok (fillna (merge (features_list example_read_features example_audio_file)
                     (labels_df example_labels [])))
  /\ features_list example_read_features example_audio_file <> []
  /\ load_dataset_body example_read_features example_audio_file
       (Raise FileNotFoundError) (Ok [])
     = Raise FileNotFoundError
  /\ load_dataset example_read_features example_audio_file
       (Raise FileNotFoundError) (Ok [])
     = Raise Exception
  /\ load_dataset example_read_features example_audio_file
       (Ok example_labels) (Raise KeyError)
     = Raise Exception.
Proof.
  assert (H : (2 <= 2 < 2058)%Z) by lia.
  assert (H0 : example_read_features 2 = Some (Ok [Some 1; None]))
    by reflexivity.
  assert (H1 : features_list example_read_features example_audio_file <> [])
    by (vm_compute; discriminate).
  split; [exact H|]. split; [exact H0|]. split; [|split; [exact H1|split; [|split]]].
  - exact (proj1 (proj2 (proj2 (proj2 (proj2 (proj2 (proj2
             (load_dataset_fails_iff example_read_features example_audio_file
                (Ok example_labels) (Ok [])))))))) 2%Z _ _ _ H H0 eq_refl eq_refl).
  - exact (proj1 (proj2 (proj2 (proj2 (proj2
             (load_dataset_fails_iff example_read_features example_audio_file
                (Raise FileNotFoundError) (Ok []))))))
             FileNotFoundError H1 eq_refl).
  - apply (proj1 (proj2 (load_dataset_fails_iff example_read_features
                           example_audio_file (Raise FileNotFoundError) (Ok [])))).
    right. left. eexists. reflexivity.
  - apply (proj1 (proj2 (load_dataset_fails_iff example_read_features
                           example_audio_file (Ok example_labels) (Raise KeyError)))).
    right. right. eexists. reflexivity.
Defined.






(** X24.  The table that the loader produces is indexed 0, 1, 2, ... in the
    order of its rows, so its labels identify its rows; and they still do
    in the table left by any session of queries on it, which is what the
    matcher needs to find the nearest song. *)
Theorem load_dataset_fresh_index :
  forall (read_features : Z -> option (result (list (option Q))))
         (audio_file : Z -> string) (labels_1 labels_2 : list LabelRow)
         (df : DataFrame),
    load_dataset read_features audio_file (Ok labels_1) (Ok labels_2) = Ok df ->
    index df = Z.of_nat <$> seq 0 (length df)
    /\ NoDup (index df)
    /\ (forall queries : list Query,
          NoDup (index (snd (session df queries)))).
Proof.
  intros read_features audio_file labels_1 labels_2 df Hload.
  assert (Hidx : index df = Z.of_nat <$> seq 0 (length df)).
  { apply load_dataset_Ok in Hload.
    destruct (features_list read_features audio_file) as [|f fs];
      [discriminate|].
    injection Hload as <-. rewrite fillna_index, merge_index.
    unfold fillna. rewrite length_fmap. reflexivity. }
  assert (Hnd : NoDup (index df)).
  { rewrite Hidx. apply NoDup_fmap_2; [apply _ | apply NoDup_seq]. }
  split; [exact Hidx|]. split; [exact Hnd|].
  intros queries.
  exact (sublist_NoDup _ _ Hnd (proj2 (session_names queries df))).
Qed.

Lemma load_dataset_fresh_index_witness :
  load_dataset example_read_features example_audio_file (Ok example_labels)
      (Ok [])
  = Ok example_loaded
  /\ index example_loaded = Z.of_nat <$> seq 0 (length example_loaded).
Proof.
  assert (H0 : load_dataset example_read_features example_audio_file
                 (Ok example_labels) (Ok []) = Ok example_loaded)
    by (vm_compute; reflexivity).
  split; [exact H0|].
  exact (proj1 (load_dataset_fresh_index example_read_features
                  example_audio_file example_labels [] example_loaded H0)).
Defined.

(** ** The application *)

Lemma play_song_never_raises (env : Env) (song_path : string) (w : World) :
  fst (play_song env song_path w) = Ok false
  \/ fst (play_song env song_path w) = Ok true.
Proof. play_cases env song_path w; auto. Qed.

Section AppFacts.
Import App.
Variable Frame : Type.
Variable detect_emotions : Frame -> result (list Face).

Let turn := update_frame_turn Frame detect_emotions.

(** What a turn of the loop can do. *)
Lemma update_frame_turn_cases (depth : nat) (env : Env)
    (captured : option Frame) (app : EmotionMusicPlayerApp) :
  turn depth env captured app = app
  \/ exists valence arousal,
       let found := find_matching_song depth (path_exists env) (merged_df app)
                      valence arousal in
       let app' := turn depth env captured app in
       merged_df app' = snd found
       /\ is_running app' = is_running app
       /\ cap_opened app' = cap_opened app
       /\ status_label app' = status_running
       /\ ((fst found = None
            /\ music_player app' = music_player app
            /\ song_label app' = song_label app)
           \/ exists row,
                fst found = Some row
                /\ music_player app'
                   = snd (play_song env (audio_path row) (music_player app))
                /\ ((fst (play_song env (audio_path row) (music_player app))
                     = Ok true
                     /\ song_label app' = playing_song (song_id row))
                    \/ (fst (play_song env (audio_path row) (music_player app))
                        = Ok false
                        /\ song_label app' = song_label app))).
Proof.
  unfold turn, update_frame_turn.
  destruct captured as [frame|]; [|left; reflexivity].
  destruct (detect_emotion Frame detect_emotions frame)
    as [[emotion valence] arousal].
  destruct (truthy emotion); [|left; reflexivity].
  right. exists valence, arousal.
  destruct (find_matching_song depth (path_exists env) (merged_df app)
              valence arousal)
    as [[row|] df]; simpl.
  - pose proof (play_song_never_raises env (audio_path row)
                  (music_player app)) as Hres.
    destruct (play_song env (audio_path row) (music_player app))
      as [[[|]|e] w] eqn:E; simpl in *.
    + repeat split. right. exists row. rewrite E. repeat split.
      left. split; reflexivity.
    + repeat split. right. exists row. rewrite E. repeat split.
      right. split; reflexivity.
    + destruct Hres; discriminate.
  - repeat split. left. repeat split.
Qed.

(** X19.  A turn in which no picture was captured, or in which the detector
    returned no label (it raised, saw no face, or the first face had no
    score), changes nothing: not the table, not the playback, not the
    labels. *)
Theorem frame_without_emotion :
  (forall depth env app, turn depth env None app = app)
  /\ (forall depth env frame app,
        fst (fst (detect_emotion Frame detect_emotions frame)) = None ->
        turn depth env (Some frame) app = app)
  /\ (forall frame,
        match detect_emotions frame with
        | Raise _ | Ok [] =>
            fst (fst (detect_emotion Frame detect_emotions frame)) = None
        | Ok (face :: _) =>
            emotions face = [] ->
            fst (fst (detect_emotion Frame detect_emotions frame)) = None
        end).
Proof.
  split; [reflexivity|]. split.
  - intros depth env frame app H. unfold turn, update_frame_turn.
    destruct (detect_emotion Frame detect_emotions frame)
      as [[emotion valence] arousal]. simpl in H. subst emotion. reflexivity.
  - intros frame. unfold detect_emotion, detect_emotion_body.
    destruct (detect_emotions frame) as [[|face faces]|e]; try reflexivity.
    intros ->. reflexivity.
Qed.

Lemma play_song_after (env : Env) (song_path : string) (w : World) :
  let w' := snd (play_song env song_path w) in
  volume (self w') = volume (self w)
  /\ (fst (play_song env song_path w) = Ok true ->
      already_playing song_path w')
  /\ (fst (play_song env song_path w) = Ok false ->
      w' = w \/ is_playing (self w') = false).
Proof.
  assert (Hs : is_playing (self (stopped w)) = false).
  { unfold stopped. destruct (is_playing (self w)) eqn:E; [reflexivity|exact E]. }
  play_cases env song_path w; rewrite ?stopped_volume;
    (split; [reflexivity|]); (split; [try discriminate; intros _|]);
    try discriminate; auto.
  split; reflexivity.
Qed.

(** X20.  When a turn of the loop changes the song label, the label names a song
    of the table, found for the detected emotion, whose audio file is there
    and which the player is then playing. *)
Theorem song_label_set_when_playing :
  forall depth env captured app,
    let app' := turn depth env captured app in
    song_label app' <> song_label app ->
    exists row,
      song_label app' = playing_song (song_id row)
      /\ row ∈ merged_df app'
      /\ path_exists env (audio_path row) = true
      /\ current_song (self (music_player app')) = Some (audio_path row)
      /\ is_playing (self (music_player app')) = true.
Proof.
  intros depth env captured app app' Hne. subst app'.
  destruct (update_frame_turn_cases depth env captured app) as [E|(v & a & H)].
  { rewrite E in Hne. contradiction Hne. reflexivity. }
  cbv zeta in H.
  destruct H as (Hdf & _ & _ & _ & [(_ & _ & Hl)|(row & Hrow & Hw & Hp)]).
  { contradiction. }
  destruct Hp as [[Htrue Hl]|[_ Hl]]; [|contradiction].
  pose proof (find_matching_song_sublist depth (path_exists env)
                (merged_df app) v a)
    as [_ Hans]. cbv zeta in Hans. destruct (Hans row Hrow) as [Hin Hplay].
  pose proof (play_song_after env (audio_path row) (music_player app))
    as (_ & Hafter & _). cbv zeta in Hafter. destruct (Hafter Htrue) as [Hc Hi].
  exists row. rewrite Hdf, Hw. repeat split; assumption.
Qed.

Lemma handle_inv (df : DataFrame) (app : EmotionMusicPlayerApp) (e : Event Frame) :
  let inv := fun app : EmotionMusicPlayerApp =>
    in_sync (music_player app)
    /\ volume (self (music_player app)) = 0.5
    /\ sublist (index (merged_df app)) (index df) in
  inv app -> inv (handle Frame detect_emotions app e).
Proof.
  intros inv (Hsync & Hvol & Hsub). subst inv. cbv beta.
  destruct e as [depth env captured| |]; simpl.
  - destruct (is_running app) eqn:Erun;
      [|exact (conj Hsync (conj Hvol Hsub))].
    fold turn.
    destruct (update_frame_turn_cases depth env captured app)
      as [E|(v & a & H)].
    { rewrite E. exact (conj Hsync (conj Hvol Hsub)). }
    cbv zeta in H. destruct H as (Hdf & _ & _ & _ & Hcases).
    pose proof (find_matching_song_sublist depth (path_exists env)
                  (merged_df app) v a)
      as [Hsub' _]. cbv zeta in Hsub'.
    apply index_sublist in Hsub'. rewrite index_assign_distance in Hsub'.
    assert (Hsub2 : sublist (index (merged_df (turn depth env captured app)))
                      (index df)).
    { rewrite Hdf. etransitivity; eassumption. }
    destruct Hcases as [(_ & Hw & _)|(row & _ & Hw & _)].
    + rewrite Hw. exact (conj Hsync (conj Hvol Hsub2)).
    + pose proof (step_in_sync (music_player app)
                    (op_play_song env (audio_path row)) Hsync) as Hsync'.
      simpl in Hsync'.
      pose proof (play_song_after env (audio_path row) (music_player app))
        as (Hv & _ & _). cbv zeta in Hv.
      rewrite Hw. split; [exact Hsync'|]. split; [rewrite Hv; exact Hvol|].
      exact Hsub2.
  - pose proof (step_in_sync (music_player app) op_stop_song Hsync) as Hsync'.
    simpl in Hsync'. split; [exact Hsync'|].
    split; [rewrite stop_song_stopped; simpl; rewrite stopped_volume; exact Hvol|].
    exact Hsub.
  - pose proof (step_in_sync (music_player app) op_stop_song Hsync) as Hsync'.
    simpl in Hsync'. split; [exact Hsync'|].
    split; [rewrite stop_song_stopped; simpl; rewrite stopped_volume; exact Hvol|].
    exact Hsub.
Qed.

Lemma run_app_inv (df : DataFrame) (events : list (Event Frame)) :
  let app := run_app Frame detect_emotions events (init_app df) in
  in_sync (music_player app)
  /\ volume (self (music_player app)) = 0.5
  /\ sublist (index (merged_df app)) (index df).
Proof.
  unfold run_app.
  assert (H0 : in_sync (music_player (init_app df))
               /\ volume (self (music_player (init_app df))) = 0.5
               /\ sublist (index (merged_df (init_app df))) (index df)).
  { split; [exact (run_in_sync [])|]. split; reflexivity. }
  generalize (init_app df) H0.
  induction events as [|e events IH]; intros app Happ; simpl; [exact Happ|].
  apply IH. exact (handle_inv df app e Happ).
Qed.

(** X22.  The application never changes the volume: it is 0.5, in the player and
    in the mixer, after any turns of the loop and button presses; and the
    table never gains a row. *)
Theorem app_volume_constant :
  forall (df : DataFrame) (events : list (Event Frame)),
    let app := run_app Frame detect_emotions events (init_app df) in
    volume (self (music_player app)) = 0.5
    /\ m_volume (mixer_of (mixer_calls (music_player app))) = Some 0.5
    /\ sublist (index (merged_df app)) (index df).
Proof.
  intros df events app.
  destruct (run_app_inv df events) as ((_ & Hm & _) & Hv & Hsub).
  fold app in Hm, Hv, Hsub. rewrite Hv in Hm. repeat split; assumption.
Qed.

End AppFacts.

Lemma frame_without_emotion_witness :
  fst (fst (detect_emotion unit (fun _ => Raise MixerError) tt)) = None
  /\ App.update_frame_turn unit (fun _ => Raise MixerError) 900
       (env_at 100 true) (Some tt) (App.init_app example_table)
     = App.init_app example_table.
Proof.
  assert (H : fst (fst (detect_emotion unit (fun _ => Raise MixerError) tt))
              = None) by reflexivity.
  split; [exact H|].
  exact (proj1 (proj2 (frame_without_emotion unit (fun _ => Raise MixerError)))
           900%nat (env_at 100 true) tt (App.init_app example_table) H).
Defined.

Lemma song_label_set_when_playing_witness :
  let app := App.init_app example_table in
  let app' := App.update_frame_turn unit example_detector 900 (env_at 100 true)
                (Some tt) app in
  App.song_label app' <> App.song_label app
  /\ exists row,
       App.song_label app' = App.playing_song (song_id row)
       /\ current_song (self (App.music_player app')) = Some (audio_path row).
Proof.
  intros app app'.
  assert (H : App.song_label app' <> App.song_label app)
    by (vm_compute; discriminate).
  split; [exact H|].
  destruct (song_label_set_when_playing unit example_detector 900
              (env_at 100 true) (Some tt) app H) as (row & Hl & _ & _ & Hc & _).
  exists row. split; assumption.
Defined.
